(** * Edmonds' blossom algorithm (snippets/blossom_algo.py)

    A shallow embedding of [max_matching] and of its three nested helpers
    [lca], [mark_path] and [find_path], followed by the properties of the
    matching driver and of the alternating-tree search.

    The Python code works on six arrays shared by the nested functions
    ([match], [p], [base], [q], [used], [blossom]).  They are the fields of
    the record [state], threaded explicitly through every function.  Array
    accesses follow Python: an index in [-len, 0) counts from the end, any
    other index outside [0, len) raises [IndexError].  Every [while] loop
    takes a bound on its number of iterations. *)

From Stdlib Require Import ZArith List Bool Lia Permutation.
Import ListNotations.
Open Scope Z_scope.

(** ** Outcomes of a run *)

(** The two places where the sentinel -1 could be used as an index:
    [p[match[b]]] in the second loop of [lca], and the [prev = -1] fallback
    of the augmentation flip. *)
Inductive site : Type := SiteLca | SiteFlip.

Inductive outcome (A : Type) : Type :=
| Ok (a : A)
| OutOfFuel
| IndexError
| Trap (s : site).

Arguments Ok {A} a.
Arguments OutOfFuel {A}.
Arguments IndexError {A}.
Arguments Trap {A} s.

Definition bind {A B : Type} (m : outcome A) (k : A -> outcome B) : outcome B :=
  match m with
  | Ok a => k a
  | OutOfFuel => OutOfFuel
  | IndexError => IndexError
  | Trap s => Trap s
  end.

Notation "x <- m ;; k" := (bind m (fun x => k))
  (at level 61, m at next level, right associativity).

(** ** Python lists *)

Definition py_index {A : Type} (l : list A) (i : Z) : option nat :=
  let n := Z.of_nat (length l) in
  if (0 <=? i) && (i <? n) then Some (Z.to_nat i)
  else if (- n <=? i) && (i <? 0) then Some (Z.to_nat (i + n))
  else None.

Fixpoint list_set {A : Type} (l : list A) (k : nat) (x : A) : list A :=
  match l, k with
  | [], _ => []
  | _ :: t, O => x :: t
  | h :: t, S k' => h :: list_set t k' x
  end.

(** [l[i]] *)
Definition py_get {A : Type} (l : list A) (i : Z) : outcome A :=
  match py_index l i with
  | Some k => match nth_error l k with Some x => Ok x | None => IndexError end
  | None => IndexError
  end.

(** [l[i] = x] *)
Definition py_set {A : Type} (l : list A) (i : Z) (x : A) : outcome (list A) :=
  match py_index l i with
  | Some k => Ok (list_set l k x)
  | None => IndexError
  end.

(** [range(n)] *)
Definition range (n : nat) : list Z := map Z.of_nat (seq 0 n).

(** ** The shared arrays *)

Record state : Type := mkState {
  match_ : list Z;      (* match[u] = v if u is matched to v, else -1 *)
  p : list Z;           (* parent in the alternating tree *)
  base : list Z;        (* base vertex of the blossom containing u *)
  q : list Z;           (* BFS queue, head first *)
  used : list bool;     (* whether the vertex is in the tree *)
  blossom : list bool   (* marks of the blossom being contracted *)
}.

Definition set_match (st : state) (m : list Z) : state :=
  mkState m (p st) (base st) (q st) (used st) (blossom st).
Definition set_p (st : state) (x : list Z) : state :=
  mkState (match_ st) x (base st) (q st) (used st) (blossom st).
Definition set_base (st : state) (x : list Z) : state :=
  mkState (match_ st) (p st) x (q st) (used st) (blossom st).
Definition set_q (st : state) (x : list Z) : state :=
  mkState (match_ st) (p st) (base st) x (used st) (blossom st).
Definition set_used (st : state) (x : list bool) : state :=
  mkState (match_ st) (p st) (base st) (q st) x (blossom st).
Definition set_blossom (st : state) (x : list bool) : state :=
  mkState (match_ st) (p st) (base st) (q st) (used st) x.

(** The code as it runs, and the code with one site guarded. *)
Definition unguarded : site -> bool := fun _ => false.

Definition guard (s : site) : site -> bool :=
  fun s' =>
    match s, s' with
    | SiteLca, SiteLca => true
    | SiteFlip, SiteFlip => true
    | _, _ => false
    end.

Section Blossom.

(** [strict s = true] turns the use of -1 as an index at site [s] into
    [Trap s]; with no site guarded the functions are the Python code as it
    runs. *)
Variable strict : site -> bool.

(** [adj], and [n = len(adj)] *)
Variable adj : list (list Z).
Let n : nat := length adj.

(** ** lca *)

(** First loop of [lca]: marks the bases on the way from [a] to the root. *)
Fixpoint lca_mark (fuel : nat) (st : state) (used_path : list bool) (a : Z)
  : outcome (list bool) :=
  match fuel with
  | O => OutOfFuel
  | S fuel' =>
      a <- py_get (base st) a ;;
      used_path <- py_set used_path a true ;;
      ma <- py_get (match_ st) a ;;
      if ma =? -1 then Ok used_path
      else
        a <- py_get (p st) ma ;;
        lca_mark fuel' st used_path a
  end.

(** Second loop of [lca]: walks up from [b] to the first marked base. *)
Fixpoint lca_find (fuel : nat) (st : state) (used_path : list bool) (b : Z)
  : outcome Z :=
  match fuel with
  | O => OutOfFuel
  | S fuel' =>
      b <- py_get (base st) b ;;
      marked <- py_get used_path b ;;
      if marked then Ok b
      else
        mb <- py_get (match_ st) b ;;
        if strict SiteLca && (mb =? -1) then Trap SiteLca
        else
          b <- py_get (p st) mb ;;
          lca_find fuel' st used_path b
  end.

Definition lca (fuel : nat) (st : state) (a b : Z) : outcome Z :=
  used_path <- lca_mark fuel st (repeat false n) a ;;
  lca_find fuel st used_path b.

(** ** mark_path *)

Fixpoint mark_path (fuel : nat) (st : state) (v b x : Z) : outcome state :=
  match fuel with
  | O => OutOfFuel
  | S fuel' =>
      bv <- py_get (base st) v ;;
      if bv =? b then Ok st
      else
        bl <- py_set (blossom st) bv true ;;
        mv <- py_get (match_ st) v ;;
        bmv <- py_get (base st) mv ;;
        bl <- py_set bl bmv true ;;
        p' <- py_set (p st) v x ;;
        x <- py_get (match_ st) v ;;
        v <- py_get p' x ;;
        mark_path fuel' (set_p (set_blossom st bl) p') v b x
  end.

(** ** find_path *)

(** [for i in range(n): base[i] = i] *)
Fixpoint reset_base (ixs : list Z) (b : list Z) : outcome (list Z) :=
  match ixs with
  | [] => Ok b
  | i :: ixs' => b <- py_set b i i ;; reset_base ixs' b
  end.

(** The contraction loop: [for i in range(n): if blossom[base[i]]: ...] *)
Fixpoint contract (ixs : list Z) (curbase : Z) (st : state) : outcome state :=
  match ixs with
  | [] => Ok st
  | i :: ixs' =>
      bi <- py_get (base st) i ;;
      marked <- py_get (blossom st) bi ;;
      if marked then
        b' <- py_set (base st) i curbase ;;
        ui <- py_get (used st) i ;;
        if negb ui then
          u' <- py_set (used st) i true ;;
          contract ixs' curbase
            (set_q (set_used (set_base st b') u') (q st ++ [i]))
        else contract ixs' curbase (set_base st b')
      else contract ixs' curbase st
  end.

(** The augmentation flip: [while curr != -1: ...] *)
Fixpoint flip (fuel : nat) (st : state) (curr : Z) : outcome state :=
  if curr =? -1 then Ok st
  else
    match fuel with
    | O => OutOfFuel
    | S fuel' =>
        prev <- py_get (p st) curr ;;
        nxt <- (if negb (prev =? -1) then py_get (match_ st) prev
                else if strict SiteFlip then Trap SiteFlip else Ok (-1)) ;;
        m <- py_set (match_ st) curr prev ;;
        m <- py_set m prev curr ;;
        flip fuel' (set_match st m) nxt
    end.

(** The body of [for u in adj[v]]; the boolean tells whether the
    augmenting path was found (the [return True]). *)
Definition visit (fuel : nat) (root v u : Z) (st : state)
  : outcome (bool * state) :=
  bv <- py_get (base st) v ;;
  bu <- py_get (base st) u ;;
  skip <- (if bv =? bu then Ok true
           else mv <- py_get (match_ st) v ;; Ok (mv =? u)) ;;
  if skip then Ok (false, st)
  else
    cycle <- (if u =? root then Ok true
              else
                mu <- py_get (match_ st) u ;;
                if mu =? -1 then Ok false
                else pmu <- py_get (p st) mu ;; Ok (negb (pmu =? -1))) ;;
    if cycle then
      curbase <- lca fuel st v u ;;
      st <- mark_path fuel (set_blossom st (repeat false n)) v curbase u ;;
      st <- mark_path fuel st u curbase v ;;
      st <- contract (range n) curbase st ;;
      Ok (false, st)
    else
      pu <- py_get (p st) u ;;
      if pu =? -1 then
        p' <- py_set (p st) u v ;;
        let st := set_p st p' in
        mu <- py_get (match_ st) u ;;
        if mu =? -1 then
          st <- flip fuel st u ;;
          Ok (true, st)
        else
          u' <- py_set (used st) mu true ;;
          Ok (false, set_q (set_used st u') (q st ++ [mu]))
      else Ok (false, st).

(** [for u in adj[v]: ...] *)
Fixpoint scan (fuel : nat) (root v : Z) (us : list Z) (st : state)
  : outcome (bool * state) :=
  match us with
  | [] => Ok (false, st)
  | u :: us' =>
      r <- visit fuel root v u st ;;
      if fst r then Ok r else scan fuel root v us' (snd r)
  end.

(** [while q: ...]; [k] bounds the inner loops. *)
Fixpoint bfs (fuel k : nat) (root : Z) (st : state) : outcome (bool * state) :=
  match fuel with
  | O => OutOfFuel
  | S fuel' =>
      match q st with
      | [] => Ok (false, st)
      | v :: q' =>
          us <- py_get adj v ;;
          r <- scan k root v us (set_q st q') ;;
          if fst r then Ok r else bfs fuel' k root (snd r)
      end
  end.

Definition find_path (fuel : nat) (root : Z) (st : state)
  : outcome (bool * state) :=
  b <- reset_base (range n) (base st) ;;
  let st := mkState (match_ st) (repeat (-1) n) b [] (repeat false n)
                    (blossom st) in
  u' <- py_set (used st) root true ;;
  bfs fuel fuel root (set_q (set_used st u') [root]).

(** ** max_matching *)

Definition init_state : state :=
  mkState (repeat (-1) n) (repeat (-1) n) (range n) [] (repeat false n)
          (repeat false n).

(** The main loop: [for v in range(n): if match[v] == -1: ...] *)
Fixpoint main_loop (fuel : nat) (vs : list Z) (st : state) (res : Z)
  : outcome (state * Z) :=
  match vs with
  | [] => Ok (st, res)
  | v :: vs' =>
      mv <- py_get (match_ st) v ;;
      if mv =? -1 then
        r <- find_path fuel v st ;;
        main_loop fuel vs' (snd r) (if fst r then res + 1 else res)
      else main_loop fuel vs' st res
  end.

Definition max_matching (fuel : nat) : outcome (list Z * Z) :=
  r <- main_loop fuel (range n) init_state 0 ;;
  Ok (match_ (fst r), snd r).

End Blossom.

(** ** The two scenario graphs *)

(** The 5-cycle 0-1-2-3-4-0, as the demo of the source builds it. *)
Definition cycle5 : list (list Z) := [[1; 4]; [0; 2]; [1; 3]; [2; 4]; [3; 0]].

(** A single edge 0-1 and two isolated vertices. *)
Definition edge4 : list (list Z) := [[1]; [0]; []; []].

(** ** The demo under [__main__] *)

(** [adj[u].append(v); adj[v].append(u)] *)
Definition add_edge (adj : list (list Z)) (e : Z * Z)
  : outcome (list (list Z)) :=
  au <- py_get adj (fst e) ;;
  adj <- py_set adj (fst e) (au ++ [snd e]) ;;
  av <- py_get adj (snd e) ;;
  py_set adj (snd e) (av ++ [fst e]).

(** [for u, v in edges: ...] *)
Fixpoint add_edges (adj : list (list Z)) (edges : list (Z * Z))
  : outcome (list (list Z)) :=
  match edges with
  | [] => Ok adj
  | e :: es => adj <- add_edge adj e ;; add_edges adj es
  end.

(** [adj = [[] for _ in range(n)]] and the loop over the edges. *)
Definition build_adj (n : nat) (edges : list (Z * Z))
  : outcome (list (list Z)) :=
  add_edges (repeat [] n) edges.

Definition pair_eqb (a b : Z * Z) : bool :=
  (fst a =? fst b) && (snd a =? snd b).

(** [for u, v in enumerate(match): ...]: [seen] is the set of the pairs
    printed so far; the result is the list of the pairs printed, in the
    order of the lines. *)
Fixpoint print_pairs (u : Z) (m : list Z) (seen : list (Z * Z))
  : list (Z * Z) :=
  match m with
  | [] => []
  | v :: m' =>
      if negb (v =? -1) && negb (existsb (pair_eqb (v, u)) seen) then
        (u, v) :: print_pairs (u + 1) m' ((u, v) :: seen)
      else print_pairs (u + 1) m' seen
  end.

(** The demo for [n] vertices and a list of edges (the source runs it with
    5 vertices and the edges of the 5-cycle): the size printed and the
    pairs printed. *)
Definition demo (fuel : nat) (n : nat) (edges : list (Z * Z))
  : outcome (Z * list (Z * Z)) :=
  adj <- build_adj n edges ;;
  r <- max_matching unguarded adj fuel ;;
  Ok (snd r, print_pairs 0 (fst r) []).

(** ** Graphs and matchings *)

Definition in_range {A : Type} (l : list A) (i : Z) : bool :=
  (0 <=? i) && (i <? Z.of_nat (length l)).

(** An array of integers read as a total function: [d] outside the array. *)
Definition zview (l : list Z) (d : Z) (i : Z) : Z :=
  if in_range l i then nth (Z.to_nat i) l d else d.

Definition bview (l : list bool) (i : Z) : bool :=
  if in_range l i then nth (Z.to_nat i) l false else false.

(** [v] occurs in [adj[u]]. *)
Definition edge (adj : list (list Z)) (u v : Z) : Prop :=
  0 <= u < Z.of_nat (length adj) /\ In v (nth (Z.to_nat u) adj []).

(** Well-formed graphs: neighbours are vertices, there is no self-loop and
    every edge is stored in both directions. *)
Definition wf_graph (adj : list (list Z)) : Prop :=
  forall u v, edge adj u v ->
    0 <= v < Z.of_nat (length adj) /\ v <> u /\ edge adj v u.

(** A test of [wf_graph]. *)
Definition wf_graphb (adj : list (list Z)) : bool :=
  forallb
    (fun u =>
       forallb
         (fun v =>
            (0 <=? v) && (v <? Z.of_nat (length adj)) && negb (v =? u) &&
            existsb (Z.eqb u) (nth (Z.to_nat v) adj []))
         (nth (Z.to_nat u) adj []))
    (range (length adj)).

(** [match[u]], and -1 outside the array. *)
Definition mate (m : list Z) (u : Z) : Z := zview m (-1) u.

(** A matching of the graph: one entry per vertex, and every entry other
    than the sentinel is a neighbour that points back. *)
Definition wf_matching (adj : list (list Z)) (m : list Z) : Prop :=
  length m = length adj /\
  forall u, mate m u <> -1 ->
    edge adj u (mate m u) /\ mate m (mate m u) = u.

(** A test of [wf_matching]. *)
Definition wf_matchingb (adj : list (list Z)) (m : list Z) : bool :=
  (length m =? length adj)%nat &&
  forallb
    (fun u =>
       (mate m u =? -1) ||
       (existsb (Z.eqb (mate m u)) (nth (Z.to_nat u) adj []) &&
        (mate m (mate m u) =? u)))
    (range (length m)).

(** Number of entries that differ from the sentinel. *)
Definition matched (m : list Z) : Z :=
  Z.of_nat (length (filter (fun v => negb (v =? -1)) m)).

(** The arrays of a state as functions. *)
Definition Mf (st : state) : Z -> Z := zview (match_ st) (-1).
Definition Pf (st : state) : Z -> Z := zview (p st) (-1).
Definition Bf (st : state) (i : Z) : Z := zview (base st) i i.
Definition Uf (st : state) : Z -> bool := bview (used st).
Definition Lf (st : state) : Z -> bool := bview (blossom st).

(** All six arrays but the queue have one entry per vertex. *)
Definition sized (k : nat) (st : state) : Prop :=
  length (match_ st) = k /\ length (p st) = k /\ length (base st) = k /\
  length (used st) = k /\ length (blossom st) = k.

(** The measure that bounds the search loop: vertices not yet in the tree
    plus vertices waiting in the queue. *)
Definition unused (l : list bool) : nat := length (filter negb l).

Definition measure (st : state) : nat := (unused (used st) + length (q st))%nat.

(** ** Alternating walks *)

(** Elements at even and at odd positions. *)
Fixpoint evens (l : list Z) : list Z :=
  match l with
  | x :: _ :: t => x :: evens t
  | _ => []
  end.

Fixpoint odds (l : list Z) : list Z :=
  match l with
  | _ :: y :: t => y :: odds t
  | _ => []
  end.

Section Forest.

Variable n : Z.
Variable E : Z -> Z -> Prop.
Variable M : Z -> Z.
Variable r : Z.
Variables P B : Z -> Z.
Variable U : Z -> bool.

(** [Walk x A d]: [A] is [x; M x; P (M x); M (P (M x)); ...], the walk that
    goes from [x] along its matched edge, then to the tree parent of the
    mate, and so on, up to [d] excluded. *)
Inductive Walk : Z -> list Z -> Z -> Prop :=
| Walk_nil : forall x, Walk x [] x
| Walk_cons : forall x A d,
    M x <> -1 -> P (M x) <> -1 ->
    Walk (P (M x)) A d ->
    Walk x (x :: M x :: A) d.

(** [Linked x A]: in the walk [A], the parent of the first vertex is [x] and
    the parent of every later vertex at an even position is its predecessor:
    what [mark_path] leaves behind. *)
Inductive Linked : Z -> list Z -> Prop :=
| Linked_nil : forall x, Linked x []
| Linked_cons : forall x v m A,
    P v = x -> Linked m A -> Linked x (v :: m :: A).

(** The invariant of the search loop of [find_path]. *)
Record Inv : Prop := {
  inv_root : U r = true /\ B r = r /\ P r = -1;
  inv_V : forall x, U x = true -> 0 <= x < n;
  inv_used : forall x, U x = true ->
    exists A1 A2,
      Walk x A1 (B x) /\ Walk (B x) A2 r /\
      NoDup (A1 ++ A2 ++ [r]) /\
      forall z, In z A1 -> B z = B x;
  inv_p : forall x, P x <> -1 ->
    U (P x) = true /\ E (P x) x /\ M x <> -1 /\ U (M x) = true;
  inv_base : forall x,
    B (B x) = B x /\ (B x <> x -> U x = true) /\
    (U x = true -> U (B x) = true);
  inv_mate : forall x, U x = true -> U (M x) = true ->
    B (M x) = B x /\ B x <> x;
  inv_blos : forall x, B x <> x -> U (M x) = true
}.

End Forest.

Section Contraction.

Variable E : Z -> Z -> Prop.
Variable M : Z -> Z.
Variable r : Z.
Variables P B : Z -> Z.
Variable U : Z -> bool.
Variable c : Z.

(** The situation in which a blossom is contracted: [v] and [u] are two
    adjacent outer vertices; their paths to the root reach the blossom of
    [c] at [dv] and [du], after the walks [A] and [A'], whose outer
    vertices lie in pairwise different blossoms, none of them [c]. *)
Record Fork (v u : Z) (A Cv A' Cu : list Z) (dv du : Z) : Prop := {
  fk_v : U v = true;
  fk_u : U u = true;
  fk_E : E v u;
  fk_A : Walk M P v A dv;
  fk_Cv : Walk M P dv Cv r;
  fk_ndv : NoDup (A ++ Cv ++ [r]);
  fk_A' : Walk M P u A' du;
  fk_Cu : Walk M P du Cu r;
  fk_ndu : NoDup (A' ++ Cu ++ [r]);
  fk_dv : B dv = c;
  fk_du : B du = c;
  fk_ne : forall y, In y (evens A) -> B y <> c;
  fk_ne' : forall y, In y (evens A') -> B y <> c;
  fk_sep : forall y z, In y (evens A) -> In z (evens A') -> B y <> B z
}.

Variables P' B' : Z -> Z.
Variable U' : Z -> bool.

(** The arrays after the two calls of [mark_path] and the contraction
    loop. *)
Record Contracted (v u : Z) (A A' : list Z) : Prop := {
  ct_P : forall z, ~ In z (evens A) -> ~ In z (evens A') -> P' z = P z;
  ct_L : Linked P' u A;
  ct_L' : Linked P' v A';
  ct_Bc : forall z,
    In (B z) (map B A) \/ In (B z) (map B A') -> B' z = c;
  ct_Bn : forall z,
    ~ In (B z) (map B A) -> ~ In (B z) (map B A') -> B' z = B z;
  ct_U : forall z,
    U' z = true <->
    (U z = true \/ In (B z) (map B A) \/ In (B z) (map B A'))
}.

End Contraction.

(** The state of a search from [root] that has left the matching [m]
    untouched. *)
Definition searching (adj : list (list Z)) (m : list Z) (root : Z)
           (st : state) : Prop :=
  match_ st = m /\ sized (length adj) st /\
  Inv (Z.of_nat (length adj)) (edge adj) (mate m) root
      (Pf st) (Bf st) (Uf st).

(** Every vertex waiting in the queue is in the tree. *)
Definition queued (st : state) : Prop :=
  forall x, In x (q st) -> Uf st x = true.

(** ** Completeness of the search *)

Section Complete.

Variable E : Z -> Z -> Prop.
Variables P B : Z -> Z.
Variable U : Z -> bool.
Variable Q : list Z.
Variable cur : Z.
Variable rest : list Z.

(** The edge from [v] to [u] is still to be examined: [v] waits in the
    queue, or [v] is the vertex being scanned and [u] is among the
    neighbours not yet visited. *)
Definition pending (v u : Z) : Prop := In v Q \/ (v = cur /\ In u rest).

(** Every edge that leaves an outer vertex and is not to be examined any
    more leads to an outer vertex of the same blossom or to an inner
    vertex. *)
Definition Comp : Prop :=
  forall v u, E v u -> U v = true ->
    pending v u \/
    (U u = true /\ (B v = B u \/ pending u v)) \/
    (U u = false /\ P u <> -1).

End Complete.

(** [Comp] on the arrays of a state. *)
Definition complete (adj : list (list Z)) (st : state) (cur : Z)
           (rest : list Z) : Prop :=
  Comp (edge adj) (Pf st) (Bf st) (Uf st) (q st) cur rest.

(** The edge from [v] to [x] needs no further work: [x] is in the blossom
    of [v], or it is an inner vertex of the tree. *)
Definition settled (st : state) (v x : Z) : Prop :=
  (Uf st x = true /\ Bf st v = Bf st x) \/
  (Uf st x = false /\ Pf st x <> -1).

(** The inner vertices of the tree: they have a parent but were never
    enqueued. *)
Definition If (st : state) (x : Z) : bool :=
  negb (Uf st x) && negb (Pf st x =? -1).

(** ** What a failed search leaves behind *)

Section Hungarian.

Variable E : Z -> Z -> Prop.
Variable M : Z -> Z.

(** A tree that cannot grow: [O] are its outer vertices, grouped in
    blossoms by [B], and [I] its inner vertices. *)
Record Hung (O I : Z -> bool) (B : Z -> Z) : Prop := {
  hg_edge : forall a b, O a = true -> E a b ->
    I b = true \/ (O b = true /\ B b = B a);
  hg_inner : forall x, I x = true ->
    M x <> -1 /\ O (M x) = true /\ B (M x) = M x;
  hg_blossom : forall a, O a = true -> B a <> a ->
    M a <> -1 /\ O (M a) = true /\ B (M a) = B a;
  hg_free : forall a, O a = true -> M a = -1 -> B a = a;
  hg_base : forall a, O a = true -> B a = a -> M a <> -1 ->
    I (M a) = true
}.

(** [Alt a l]: after [a], the list [l] is [b1; M b1; b2; M b2; ...; bk]:
    every [bi] is a neighbour of its predecessor, and the last vertex is
    free.  With a free first vertex this is an augmenting path. *)
Inductive Alt : Z -> list Z -> Prop :=
| Alt_end : forall a b, E a b -> M b = -1 -> Alt a [b]
| Alt_step : forall a b l,
    E a b -> M b <> -1 -> Alt (M b) l -> Alt a (b :: M b :: l).

Definition Aug (a : Z) (l : list Z) : Prop :=
  M a = -1 /\ Alt a l /\ NoDup (a :: l).

(** Every free vertex is the root of a tree that cannot grow. *)
Definition certified (n : Z) : Prop :=
  forall r, 0 <= r < n -> M r = -1 ->
    exists O I B, Hung O I B /\ O r = true.

End Hungarian.

(** ** Comparing two matchings *)

(** From [r], alternately the mate in [M2] and the mate in [M]. *)
Fixpoint alt_seq (M M2 : Z -> Z) (r : Z) (t : nat) : Z :=
  match t with
  | O => r
  | S t' =>
      if Nat.even t' then M2 (alt_seq M M2 r t') else M (alt_seq M M2 r t')
  end.

(** The vertices without a mate. *)
Definition free (m : list Z) : list Z :=
  filter (fun v => mate m v =? -1) (range (length m)).

(** [m'] is [m] after the flip of an augmenting path that ends at [r]:
    the vertices off the path keep their mates, those on the path all
    have one. *)
Definition augmented (adj : list (list Z)) (m : list Z) (r : Z)
           (m' : list Z) : Prop :=
  wf_matching adj m' /\ matched m' = matched m + 2 /\
  exists a l,
    Aug (edge adj) (mate m) a l /\ In r l /\
    (forall z, ~ In z (a :: l) -> mate m' z = mate m z) /\
    (forall z, In z (a :: l) -> mate m' z <> -1).

(** ** Graphs with self-loops *)

(** The adjacency lists without the entries [v] of [adj[v]]. *)
Fixpoint strip_from (i : Z) (adj : list (list Z)) : list (list Z) :=
  match adj with
  | [] => []
  | l :: t => filter (fun u => negb (u =? i)) l :: strip_from (i + 1) t
  end.

Definition strip_loops (adj : list (list Z)) : list (list Z) :=
  strip_from 0 adj.

(** ** Graphs with repeated neighbours *)

(** A list of neighbours without the entries that occur earlier in it or
    in [seen]. *)
Fixpoint drop_repeats (seen us : list Z) : list Z :=
  match us with
  | [] => []
  | u :: us' =>
      if existsb (Z.eqb u) seen then drop_repeats seen us'
      else u :: drop_repeats (u :: seen) us'
  end.

(** The adjacency lists with every neighbour kept at its first place. *)
Definition uniq (adj : list (list Z)) : list (list Z) :=
  map (drop_repeats []) adj.

(** ** Comparing two runs *)

(** What the caller of a search sees: the flag and [match]. *)
Definition found_and_match (o : outcome (bool * state))
  : outcome (bool * list Z) :=
  r <- o ;; Ok (fst r, match_ (snd r)).

(** Two states that differ at most in the marker array [blossom]. *)
Definition same_but_blossom (st st' : state) : Prop :=
  match_ st = match_ st' /\ p st = p st' /\ base st = base st' /\
  q st = q st' /\ used st = used st'.

(** Two outcomes of the same kind, with related results. *)
Definition orel {A : Type} (R : A -> A -> Prop) (o o' : outcome A) : Prop :=
  match o, o' with
  | Ok a, Ok a' => R a a'
  | OutOfFuel, OutOfFuel => True
  | IndexError, IndexError => True
  | Trap x, Trap y => x = y
  | _, _ => False
  end.

(** [m] is a maximum matching of the graph. *)
Definition maximum (adj : list (list Z)) (m : list Z) : Prop :=
  wf_matching adj m /\
  forall m2, wf_matching adj m2 -> matched m2 <= matched m.

Arguments Walk_nil {M P} x.
Arguments Walk_cons {M P} x A d _ _ _.
Arguments Alt_end {E M} a b _ _.
Arguments Alt_step {E M} a b l _ _ _.

(** ** Inversion of a sequence of binds *)

Lemma bind_Ok {A B : Type} (m : outcome A) (k : A -> outcome B) (b : B) :
  bind m k = Ok b -> exists a, m = Ok a /\ k a = Ok b.
Proof.
  destruct m; simpl; intros H; try discriminate. eauto.
Qed.

Ltac bind_next H :=
  let a := fresh "a" in
  let Ha := fresh "Ha" in
  apply bind_Ok in H; destruct H as (a & Ha & H).

Tactic Notation "bind_inv" hyp(H) "as" ident(a) ident(Ha) :=
  apply bind_Ok in H; destruct H as (a & Ha & H).

Ltac inv_ok H := injection H as H; subst.

(** ** The matching is written by the flip alone *)

Section MatchUntouched.

Variable strict : site -> bool.
Variable adj : list (list Z).

Lemma mark_path_match fuel : forall st v b x st',
  mark_path fuel st v b x = Ok st' -> match_ st' = match_ st.
Proof.
  induction fuel as [|fuel IH]; simpl; intros st v b x st' H; [discriminate|].
  bind_next H. destruct (a =? b).
  - inv_ok H. reflexivity.
  - do 7 bind_next H. apply IH in H. exact H.
Qed.

Lemma contract_match ixs : forall curbase st st',
  contract ixs curbase st = Ok st' -> match_ st' = match_ st.
Proof.
  induction ixs as [|i ixs IH]; simpl; intros curbase st st' H.
  - inv_ok H. reflexivity.
  - do 2 bind_next H. destruct a0.
    + do 2 bind_next H. destruct a1; simpl in H.
      * apply IH in H. exact H.
      * bind_next H. apply IH in H. exact H.
    + apply IH in H. exact H.
Qed.

Lemma visit_match fuel root v u st st' :
  visit strict adj fuel root v u st = Ok (false, st') ->
  match_ st' = match_ st.
Proof.
  unfold visit. intros H.
  bind_inv H as bv Hbv. bind_inv H as bu Hbu. bind_inv H as skip Hskip.
  destruct skip.
  - inv_ok H. reflexivity.
  - bind_inv H as cyc Hcyc. destruct cyc.
    + bind_inv H as cb Hcb. bind_inv H as s1 Hs1. bind_inv H as s2 Hs2.
      bind_inv H as s3 Hs3. inv_ok H.
      apply contract_match in Hs3. apply mark_path_match in Hs2, Hs1.
      rewrite Hs3, Hs2, Hs1. reflexivity.
    + bind_inv H as pu Hpu. destruct (pu =? -1).
      * bind_inv H as p' Hp'. bind_inv H as mu Hmu. destruct (mu =? -1).
        -- bind_inv H as s1 Hs1. discriminate.
        -- bind_inv H as u' Hu'. inv_ok H. reflexivity.
      * inv_ok H. reflexivity.
Qed.

Lemma scan_match fuel root v us : forall st st',
  scan strict adj fuel root v us st = Ok (false, st') ->
  match_ st' = match_ st.
Proof.
  induction us as [|u us IH]; simpl; intros st st' H.
  - inv_ok H. reflexivity.
  - bind_next H. destruct a as [[|] st1]; simpl in H; [discriminate|].
    apply IH in H. apply visit_match in Ha. congruence.
Qed.

Lemma bfs_match fuel k root : forall st st',
  bfs strict adj fuel k root st = Ok (false, st') ->
  match_ st' = match_ st.
Proof.
  induction fuel as [|fuel IH]; simpl; intros st st' H; [discriminate|].
  destruct (q st) as [|v q'] eqn:Eq.
  - inv_ok H. reflexivity.
  - do 2 bind_next H. destruct a0 as [[|] st1]; simpl in H; [discriminate|].
    apply IH in H. apply scan_match in Ha0. simpl in Ha0. congruence.
Qed.

End MatchUntouched.

(** ** Lists read two elements at a time *)

Lemma list_pair_ind (Q : list Z -> Prop) :
  Q [] -> (forall x, Q [x]) -> (forall x y t, Q t -> Q (x :: y :: t)) ->
  forall l, Q l.
Proof.
  intros H0 H1 H2.
  assert (H : forall l, Q l /\ forall x, Q (x :: l)).
  { induction l as [|y t [IHa IHb]]; split; auto. }
  intros l. apply H.
Qed.

Lemma evens_In l : forall z, In z (evens l) -> In z l.
Proof.
  induction l as [|x|x y t IH] using list_pair_ind; simpl; intros z Hz;
    try contradiction.
  destruct Hz as [->|Hz]; auto.
Qed.

Lemma odds_In l : forall z, In z (odds l) -> In z l.
Proof.
  induction l as [|x|x y t IH] using list_pair_ind; simpl; intros z Hz;
    try contradiction.
  destruct Hz as [->|Hz]; auto.
Qed.

Lemma NoDup_evens_odds l :
  NoDup l -> forall z, In z (evens l) -> In z (odds l) -> False.
Proof.
  induction l as [|x|x y t IH] using list_pair_ind; simpl; intros Hnd z He Ho;
    try contradiction.
  inversion Hnd as [|? ? Hx Hnd1]; subst.
  inversion Hnd1 as [|? ? Hy Hnd2]; subst.
  destruct He as [->|He], Ho as [->|Ho].
  - apply Hx. left. reflexivity.
  - apply Hx. right. apply odds_In. exact Ho.
  - apply Hy. apply evens_In. exact He.
  - exact (IH Hnd2 z He Ho).
Qed.

Lemma NoDup_app_disj (l1 l2 : list Z) x :
  NoDup (l1 ++ l2) -> In x l1 -> In x l2 -> False.
Proof.
  induction l1 as [|a l1 IH]; simpl; intros Hnd H1 H2; [contradiction|].
  inversion Hnd as [|? ? Ha Hnd']; subst. destruct H1 as [->|H1].
  - apply Ha. apply in_or_app. right. exact H2.
  - exact (IH Hnd' H1 H2).
Qed.

Section WalkFacts.

Variable M : Z -> Z.
Variable r : Z.
Hypothesis M_ok : forall x, M x <> -1 -> M (M x) = x /\ M x <> x /\ x <> -1.
Hypothesis r_free : M r = -1.

Lemma Walk_app P x A y A' z :
  Walk M P x A y -> Walk M P y A' z -> Walk M P x (A ++ A') z.
Proof.
  induction 1 as [x|x A d Hm Hp Hw IH]; simpl; intros H'; auto.
  apply Walk_cons; auto.
Qed.

Lemma Walk_root P A d : Walk M P r A d -> A = [] /\ d = r.
Proof.
  inversion 1; subst; auto. congruence.
Qed.

Lemma Walk_det_gen P x A d :
  Walk M P x A d -> d = r -> forall A', Walk M P x A' r -> A = A'.
Proof.
  induction 1 as [x|x A d Hm Hp Hw IH]; intros -> A' H'.
  - apply Walk_root in H'. destruct H'; auto.
  - inversion H' as [|? A0 ? Hm' Hp' Hw']; subst.
    + congruence.
    + f_equal. f_equal. apply IH; auto.
Qed.

Lemma Walk_det P x A A' : Walk M P x A r -> Walk M P x A' r -> A = A'.
Proof.
  intros H H'. exact (Walk_det_gen P x A r H eq_refl A' H').
Qed.

Lemma Walk_In_cases P x A d :
  Walk M P x A d -> forall t, In t A -> In t (evens A) \/ In t (odds A).
Proof.
  induction 1 as [x|x A d Hm Hp Hw IH]; simpl; intros t Ht; [contradiction|].
  destruct Ht as [->|[->|Ht]]; auto.
  destruct (IH t Ht); auto.
Qed.

Lemma Walk_evens_app P x A1 y A2 :
  Walk M P x A1 y -> evens (A1 ++ A2) = evens A1 ++ evens A2.
Proof.
  induction 1 as [x|x A d Hm Hp Hw IH]; simpl; auto. f_equal. exact IH.
Qed.

Lemma Walk_odds_app P x A1 y A2 :
  Walk M P x A1 y -> odds (A1 ++ A2) = odds A1 ++ odds A2.
Proof.
  induction 1 as [x|x A d Hm Hp Hw IH]; simpl; auto. f_equal. exact IH.
Qed.

Lemma Walk_split_evens P x A d :
  Walk M P x A d -> forall t, In t (evens A) ->
  exists A1 A2,
    A = A1 ++ t :: M t :: A2 /\ Walk M P x A1 t /\
    M t <> -1 /\ P (M t) <> -1 /\ Walk M P (P (M t)) A2 d.
Proof.
  induction 1 as [x|x A d Hm Hp Hw IH]; simpl; intros t Ht; [contradiction|].
  destruct Ht as [->|Ht].
  - exists [], A. repeat split; auto. apply Walk_nil.
  - destruct (IH t Ht) as (A1 & A2 & -> & H1 & H2 & H3 & H4).
    exists (x :: M x :: A1), A2. repeat split; auto.
    apply Walk_cons; auto.
Qed.

Lemma Walk_split_odds P x A d :
  Walk M P x A d -> forall t, In t (odds A) ->
  exists A1 A2,
    A = A1 ++ M t :: t :: A2 /\ Walk M P x A1 (M t) /\
    M t <> -1 /\ M (M t) = t /\ P t <> -1 /\ Walk M P (P t) A2 d.
Proof.
  induction 1 as [x|x A d Hm Hp Hw IH]; simpl; intros t Ht; [contradiction|].
  destruct Ht as [<-|Ht].
  - destruct (M_ok x Hm) as (Hmm & Hne & Hx).
    exists [], A. rewrite Hmm. repeat split; auto.
    apply Walk_nil.
  - destruct (IH t Ht) as (A1 & A2 & -> & H1 & H2 & H3 & H4 & H5).
    exists (x :: M x :: A1), A2. repeat split; auto.
    apply Walk_cons; auto.
Qed.

Lemma Walk_suffix P x A d t :
  Walk M P x A d -> In t (evens A) ->
  exists A1 A2, A = A1 ++ A2 /\ Walk M P x A1 t /\ Walk M P t A2 d /\
                In t (evens A2).
Proof.
  intros H Ht.
  destruct (Walk_split_evens P x A d H t Ht) as (A1 & A2 & -> & H1 & H2 & H3 & H4).
  exists A1, (t :: M t :: A2). repeat split; auto.
  - apply Walk_cons; auto.
  - simpl. auto.
Qed.

Lemma Walk_agree P P' x A d :
  Walk M P x A d -> (forall z, In z (odds A) -> P' z = P z) -> Walk M P' x A d.
Proof.
  induction 1 as [x|x A d Hm Hp Hw IH]; simpl; intros Hag.
  - apply Walk_nil.
  - assert (Hx : P' (M x) = P (M x)) by (apply Hag; auto).
    rewrite <- Hx in Hw, Hp. rewrite <- Hx in IH.
    apply Walk_cons; auto.
Qed.

Lemma Walk_used P (U : Z -> bool) x A d :
  (forall z, P z <> -1 -> U (P z) = true) ->
  U x = true -> Walk M P x A d ->
  U d = true /\ forall z, In z (evens A) -> U z = true.
Proof.
  intros Hp Hx H. induction H as [x|x A d Hm Hpm Hw IH]; simpl.
  - split; [assumption | intros z []].
  - destruct (IH (Hp _ Hpm)) as [Hd Hall]. split; auto.
    intros z [<-|Hz]; auto.
Qed.

Lemma Walk_odds_mate P x A d t :
  Walk M P x A d -> In t (odds A) -> In (M t) (evens A) /\ M (M t) = t.
Proof.
  intros H Ht.
  destruct (Walk_split_odds P x A d H t Ht) as (A1 & A2 & -> & H1 & H2 & H3 & H4 & H5).
  split; auto.
  rewrite (Walk_evens_app P x A1 (M t) _ H1). apply in_or_app. right.
  simpl. auto.
Qed.

Lemma Walk_evens_mate P x A d t :
  Walk M P x A d -> In t (evens A) -> In (M t) (odds A) /\ M t <> -1.
Proof.
  intros H Ht.
  destruct (Walk_split_evens P x A d H t Ht) as (A1 & A2 & -> & H1 & H2 & H3 & H4).
  split; auto.
  rewrite (Walk_odds_app P x A1 t _ H1). apply in_or_app. right.
  simpl. auto.
Qed.

Lemma Walk_cmp P x L1 d1 :
  Walk M P x L1 d1 -> forall L2 d2, Walk M P x L2 d2 ->
  (exists K, L2 = L1 ++ K /\ Walk M P d1 K d2) \/
  (exists K, L1 = L2 ++ K /\ Walk M P d2 K d1).
Proof.
  induction 1 as [x|x A d Hm Hp Hw IH]; intros L2 d2 H2.
  - left. exists L2. split; auto.
  - inversion H2 as [|? A0 ? Hm' Hp' Hw']; subst.
    + right. exists (d2 :: M d2 :: A). split; auto. apply Walk_cons; auto.
    + destruct (IH _ _ Hw') as [(K & -> & HK)|(K & -> & HK)].
      * left. exists K. split; auto.
      * right. exists K. split; auto.
Qed.

Lemma Walk_head P x L d : Walk M P x L d -> In x (L ++ [d]).
Proof.
  inversion 1; subst; simpl; auto.
Qed.

Lemma Walk_nonempty P x L d : Walk M P x L d -> x <> d -> In x (evens L).
Proof.
  inversion 1; subst; simpl; intros Hne; [congruence | auto].
Qed.

Lemma Walk_In_mate P x A d t :
  Walk M P x A d -> In t A -> In (M t) A /\ M t <> -1.
Proof.
  intros H Ht. destruct (Walk_In_cases P x A d H t Ht) as [He|Ho].
  - destruct (Walk_evens_mate P x A d t H He) as [Hi Hn].
    split; [apply odds_In; exact Hi | exact Hn].
  - destruct (Walk_split_odds P x A d H t Ho) as (A1 & A2 & -> & H1 & H2 & H3 & H4 & H5).
    split; [|exact H2]. apply in_or_app. right. simpl. auto.
Qed.

Lemma Linked_prefix P P' x0 v L1 w :
  Walk M P v L1 w -> forall L2, Linked P' x0 (L1 ++ L2) -> Linked P' x0 L1.
Proof.
  intros H. revert x0.
  induction H as [x|x A d Hm Hp Hw IH]; simpl; intros x0 L2 HL.
  - apply Linked_nil.
  - inversion HL; subst. apply Linked_cons; auto. eapply IH; eauto.
Qed.

Lemma Linked_spec P P' v A d :
  Walk M P v A d -> forall x0, Linked P' x0 A ->
  forall x, In x (evens A) ->
    (P' x = x0 /\ x = v) \/
    (exists m, In m (odds A) /\ P' x = m /\ P m = x).
Proof.
  induction 1 as [x1|x1 A d Hm Hp Hw IH]; intros x0 HL x Hx.
  - destruct Hx.
  - inversion HL as [|? ? ? ? Hpx HL']; subst. simpl in Hx.
    destruct Hx as [<-|Hx]; auto.
    right. destruct (IH _ HL' x Hx) as [[H1 H2]|(m & H1 & H2 & H3)].
    + exists (M x1). simpl. auto.
    + exists m. simpl. auto.
Qed.

Lemma Walk_evens_pred P v L d :
  Walk M P v L d -> forall x, In x (evens L ++ [d]) ->
  x = v \/ exists y, In y (odds L) /\ P y = x.
Proof.
  induction 1 as [x1|x1 A d Hm Hp Hw IH]; intros x Hx.
  - simpl in Hx. destruct Hx as [<-|[]]. auto.
  - simpl in Hx. destruct Hx as [<-|Hx]; auto.
    right. destruct (IH x Hx) as [->|(y & Hy & Hyp)].
    + exists (M x1). simpl. auto.
    + exists y. simpl. auto.
Qed.

Lemma Linked_agree P P' x0 A :
  Linked P x0 A -> (forall z, In z (evens A) -> P' z = P z) ->
  Linked P' x0 A.
Proof.
  induction 1 as [x|x v m A Hp HL IH]; intros Hag.
  - apply Linked_nil.
  - apply Linked_cons.
    + rewrite Hag; simpl; auto.
    + apply IH. intros z Hz. apply Hag. simpl. auto.
Qed.

(** Walking back along the links left by [mark_path]. *)
Lemma Walk_rev P P' v L w :
  Walk M P v L w -> forall x0, Linked P' x0 L -> L <> [] -> x0 <> -1 ->
  Walk M P' (last L 0) (rev L) x0.
Proof.
  induction 1 as [x|x A d Hm Hp Hw IH]; intros x0 HL Hne Hx0.
  - congruence.
  - inversion HL as [|? ? ? ? Hpx HL']; subst.
    destruct (M_ok x Hm) as (Hmm & Hxm & Hx1).
    assert (W1 : Walk M P' (M x) [M x; x] (P' x)).
    { assert (W : Walk M P' (M x) (M x :: M (M x) :: []) (P' (M (M x)))).
      { apply Walk_cons.
        - rewrite Hmm. exact Hx1.
        - rewrite Hmm. exact Hx0.
        - apply Walk_nil. }
      rewrite Hmm in W. exact W. }
    destruct A as [|a A'].
    + simpl. exact W1.
    + assert (Hl : last (x :: M x :: a :: A') 0 = last (a :: A') 0) by reflexivity.
      rewrite Hl.
      replace (rev (x :: M x :: a :: A')) with (rev (a :: A') ++ [M x; x]).
      * eapply Walk_app; [|exact W1]. apply IH; auto. discriminate.
      * simpl. rewrite <- !app_assoc. reflexivity.
Qed.

Lemma Walk_first_odd P (Q : Z -> Prop) (Qdec : forall z, {Q z} + {~ Q z})
      x L d :
  Walk M P x L d ->
  (forall z, In z (odds L) -> ~ Q z) \/
  (exists L1 L2 z,
      L = L1 ++ M z :: z :: L2 /\ Walk M P x L1 (M z) /\ Q z /\
      (forall t, In t (odds L1) -> ~ Q t) /\
      M z <> -1 /\ M (M z) = z /\ P z <> -1 /\ Walk M P (P z) L2 d).
Proof.
  induction 1 as [x|x A d Hm Hp Hw IH].
  - left. intros z [].
  - destruct (M_ok x Hm) as (Hmm & Hxm & Hx1).
    destruct (Qdec (M x)) as [Hq|Hq].
    + right. exists [], A, (M x). rewrite Hmm.
      repeat split; auto; try apply Walk_nil; try (intros t []).
    + destruct IH as [IH|(L1 & L2 & z & -> & H1 & H2 & H3 & H4 & H5 & H6 & H7)].
      * left. simpl. intros z [<-|Hz]; auto.
      * right. exists (x :: M x :: L1), L2, z. repeat split; auto.
        -- apply Walk_cons; auto.
        -- simpl. intros t [<-|Ht]; auto.
Qed.

End WalkFacts.

(** ** Consequences of the invariant *)

Section InvFacts.

Variable n : Z.
Variable E : Z -> Z -> Prop.
Variable M : Z -> Z.
Variable r : Z.
Hypothesis M_ok : forall x, M x <> -1 -> M (M x) = x /\ M x <> x /\ x <> -1.
Hypothesis r_free : M r = -1.

Variables P B : Z -> Z.
Variable U : Z -> bool.
Hypothesis HI : Inv n E M r P B U.

Lemma inv_neg : U (-1) = false.
Proof.
  destruct (U (-1)) eqn:Hu; auto.
  apply (inv_V _ _ _ _ _ _ _ HI) in Hu. lia.
Qed.

Lemma inv_unused_base x : U x = false -> B x = x.
Proof.
  intros Hx. destruct (Z.eq_dec (B x) x) as [|Hne]; auto.
  destruct (inv_base _ _ _ _ _ _ _ HI x) as (_ & H & _).
  rewrite (H Hne) in Hx. discriminate.
Qed.

Lemma inv_used_base x : U x = true -> U (B x) = true.
Proof.
  apply (inv_base _ _ _ _ _ _ _ HI x).
Qed.

Lemma inv_base_idem x : B (B x) = B x.
Proof.
  apply (inv_base _ _ _ _ _ _ _ HI x).
Qed.

Lemma inv_path x :
  U x = true -> exists A, Walk M P x A r /\ NoDup (A ++ [r]).
Proof.
  intros Hx.
  destruct (inv_used _ _ _ _ _ _ _ HI x Hx) as (A1 & A2 & H1 & H2 & Hnd & _).
  exists (A1 ++ A2). split.
  - eapply Walk_app; eauto.
  - rewrite <- app_assoc. exact Hnd.
Qed.

Lemma inv_matched x :
  U x = true -> x <> r -> M x <> -1 /\ P (M x) <> -1.
Proof.
  intros Hx Hne. destruct (inv_path x Hx) as (A & H & _).
  inversion H; subst; [congruence | auto].
Qed.

Lemma inv_walk_used x A d :
  U x = true -> Walk M P x A d ->
  U d = true /\ forall z, In z (evens A) -> U z = true.
Proof.
  intros Hx H. apply (Walk_used M P U x A d); auto.
  intros z Hz. apply (inv_p _ _ _ _ _ _ _ HI z Hz).
Qed.

Lemma inv_stem b : U b = true -> B b = b -> U (M b) = false.
Proof.
  intros Hb Hbb. destruct (U (M b)) eqn:Hm; auto.
  destruct (inv_mate _ _ _ _ _ _ _ HI b Hb Hm) as [_ Hne]. congruence.
Qed.

Lemma inv_mates_base x :
  U x = true -> U (M x) = true -> B (M x) = B x.
Proof.
  intros Hx Hm. apply (inv_mate _ _ _ _ _ _ _ HI x Hx Hm).
Qed.

(** An outer vertex [t] of a path to the root cuts it in three: the walk
    before [t], the walk inside the blossom of [t] down to its base, and
    the path of that base. *)
Lemma inv_interval x S t :
  Walk M P x S r -> U x = true -> In t (evens S) ->
  exists S1 S2 S3,
    S = S1 ++ S2 ++ S3 /\ Walk M P x S1 t /\ Walk M P t S2 (B t) /\
    Walk M P (B t) S3 r /\ forall z, In z S2 -> B z = B t.
Proof.
  intros H Hx Ht.
  destruct (Walk_suffix M P x S r t H Ht) as (S1 & S' & -> & H1 & H2 & _).
  assert (Hut : U t = true).
  { destruct (inv_walk_used x S1 t Hx H1) as [Hd _]. exact Hd. }
  destruct (inv_used _ _ _ _ _ _ _ HI t Hut) as (A1 & A2 & Ha1 & Ha2 & _ & Hb).
  assert (S' = A1 ++ A2).
  { apply (Walk_det M r r_free P t); auto. eapply Walk_app; eauto. }
  subst S'. exists S1, A1, A2. repeat split; auto.
Qed.

(** The base of an outer vertex is not matched to an outer vertex, so it
    cannot sit at an odd position of a walk. *)
Lemma inv_base_not_odd x A d b :
  U x = true -> Walk M P x A d -> U b = true -> B b = b ->
  In b (odds A) -> False.
Proof.
  intros Hx H Hb Hbb Ho.
  destruct (Walk_odds_mate M M_ok P x A d b H Ho) as [He Hmm].
  destruct (inv_walk_used x A d Hx H) as [_ Hall].
  pose proof (Hall _ He) as Hum.
  rewrite (inv_stem b Hb Hbb) in Hum. discriminate.
Qed.

(** Every vertex of a walk from an outer vertex is outer, or is the
    unused mate of an outer vertex of the walk. *)
Lemma inv_walk_In x A d t :
  U x = true -> Walk M P x A d -> In t A ->
  (U t = true) \/ (U t = false /\ In t (odds A) /\ In (M t) (evens A)).
Proof.
  intros Hx H Ht. destruct (U t) eqn:Hu; auto. right.
  destruct (inv_walk_used x A d Hx H) as [_ Hall].
  destruct (Walk_In_cases M P x A d H t Ht) as [He|Ho].
  - rewrite (Hall _ He) in Hu. discriminate.
  - repeat split; auto. apply (Walk_odds_mate M M_ok P x A d t H Ho).
Qed.

(** Every vertex of a walk is represented by an outer vertex of the walk:
    itself or its mate. *)
Lemma inv_walk_rep x L d t :
  U x = true -> Walk M P x L d -> In t L ->
  exists y, In y (evens L) /\
    ((U t = true /\ B y = B t) \/ (U t = false /\ y = M t /\ B t = t)).
Proof.
  intros Hx H Ht.
  destruct (inv_walk_used x L d Hx H) as [_ Hall].
  destruct (inv_walk_In x L d t Hx H Ht) as [Hu|(Hu & Ho & He)].
  - destruct (Walk_In_cases M P x L d H t Ht) as [He|Ho].
    + exists t. split; auto.
    + destruct (Walk_odds_mate M M_ok P x L d t H Ho) as [He Hmm].
      exists (M t). split; auto. left. split; auto.
      pose proof (inv_mates_base (M t) (Hall _ He)) as Hb.
      rewrite Hmm in Hb. symmetry. apply Hb. exact Hu.
  - exists (M t). split; auto. right. repeat split; auto.
    apply inv_unused_base. exact Hu.
Qed.

Lemma inv_walk_base_ne x L d c t :
  U x = true -> Walk M P x L d -> U c = true ->
  (forall y, In y (evens L) -> B y <> c) ->
  In t L -> B t <> c.
Proof.
  intros Hx H Hc Hall Ht.
  destruct (inv_walk_rep x L d t Hx H Ht) as (y & Hy & [[Hu Hb]|(Hu & _ & Hb)]).
  - rewrite <- Hb. apply Hall. exact Hy.
  - rewrite Hb. intros ->. congruence.
Qed.

(** In the part of a path that lies before the blossom of [d], the base of
    every vertex is again in that part. *)
Lemma inv_walk_base_in v A dv Cv t :
  U v = true -> Walk M P v A dv -> Walk M P dv Cv r ->
  NoDup (A ++ Cv ++ [r]) ->
  (forall y, In y (evens A) -> B y <> B dv) ->
  In t A -> In (B t) A.
Proof.
  intros Hv WA WC Hnd Hall.
  assert (Hdv : ~ In dv A).
  { intros Hin. apply (NoDup_app_disj A (Cv ++ [r]) dv Hnd Hin).
    apply (Walk_head M P dv Cv r WC). }
  assert (Hev : forall t, In t (evens A) -> In (B t) A).
  { clear t. intros t Ht.
    assert (HW : Walk M P v (A ++ Cv) r) by (eapply Walk_app; eauto).
    assert (Ht' : In t (evens (A ++ Cv))).
    { rewrite (Walk_evens_app M P v A dv Cv WA). apply in_or_app. auto. }
    destruct (inv_interval v (A ++ Cv) t HW Hv Ht')
      as (S1 & S2 & S3 & Heq & W1 & W2 & W3 & Hb).
    assert (Hne : B t <> B dv) by (apply Hall; exact Ht).
    assert (Hne' : B t <> dv).
    { intros Heq'. apply Hne. rewrite <- Heq'. symmetry. apply inv_base_idem. }
    assert (W12 : Walk M P v (S1 ++ S2) (B t)) by (eapply Walk_app; eauto).
    destruct (Walk_cmp M P v (S1 ++ S2) (B t) W12 A dv WA)
      as [(K & -> & HK)|(K & HeqK & HK)].
    - pose proof (Walk_head M P (B t) K dv HK) as Hh.
      apply in_app_or in Hh. destruct Hh as [Hh|[Hh|[]]].
      + apply in_or_app. right. exact Hh.
      + congruence.
    - exfalso.
      pose proof (Walk_head M P dv K (B t) HK) as Hh.
      apply in_app_or in Hh. destruct Hh as [Hh|[Hh|[]]]; [|congruence].
      assert (Hin : In dv (S1 ++ S2)).
      { rewrite HeqK. apply in_or_app. right. exact Hh. }
      apply in_app_or in Hin. destruct Hin as [Hin|Hin].
      + destruct (Walk_cmp M P v S1 t W1 A dv WA)
          as [(K1 & -> & HK1)|(K1 & -> & HK1)].
        * apply Hdv. apply in_or_app. left. exact Hin.
        * assert (W23 : Walk M P t (S2 ++ S3) r) by (eapply Walk_app; eauto).
          pose proof (Walk_head M P t (S2 ++ S3) r W23) as Hh2.
          rewrite app_assoc in Hnd. rewrite Heq in Hnd.
          rewrite <- !app_assoc in Hnd.
          apply (NoDup_app_disj _ _ t Hnd).
          -- apply evens_In. exact Ht.
          -- apply in_or_app. right.
             rewrite <- app_assoc in Hh2. exact Hh2.
      + apply Hne. symmetry. apply Hb. exact Hin. }
  intros Ht.
  destruct (inv_walk_rep v A dv t Hv WA Ht) as (y & Hy & [[Hu Hb]|(Hu & _ & Hb)]).
  - rewrite <- Hb. apply Hev. exact Hy.
  - rewrite Hb. exact Ht.
Qed.

End InvFacts.

(** ** The invariant at the start of a search and after a tree extension *)

Section Steps.

Variable n : Z.
Variable E : Z -> Z -> Prop.
Variable M : Z -> Z.
Variable r : Z.
Hypothesis M_ok : forall x, M x <> -1 -> M (M x) = x /\ M x <> x /\ x <> -1.
Hypothesis M_V : forall x, M x <> -1 -> 0 <= x < n.
Hypothesis r_free : M r = -1.
Hypothesis r_V : 0 <= r < n.

Lemma Inv_init (P B : Z -> Z) (U : Z -> bool) :
  (forall z, P z = -1) -> (forall z, B z = z) ->
  (forall z, U z = true <-> z = r) ->
  Inv n E M r P B U.
Proof.
  intros HP HB HU.
  assert (Hr : U r = true) by (apply HU; reflexivity).
  constructor.
  - repeat split; auto.
  - intros x Hx. apply HU in Hx. subst. exact r_V.
  - intros x Hx. apply HU in Hx. subst x.
    exists [], []. rewrite HB. repeat split; try apply Walk_nil.
    + simpl. constructor; [intros []|constructor].
    + intros z [].
  - intros x Hx. elim Hx. apply HP.
  - intros x. rewrite !HB. repeat split; auto.
  - intros x Hx Hm. apply HU in Hx. apply HU in Hm. subst x.
    rewrite r_free in Hm. lia.
  - intros x Hx. elim Hx. apply HB.
Qed.

Section Extend.

Variables P B : Z -> Z.
Variable U : Z -> bool.
Hypothesis HI : Inv n E M r P B U.

Variables v u : Z.
Hypothesis Hv : U v = true.
Hypothesis Hvu : E v u.
Hypothesis Hur : u <> r.
Hypothesis Hpu : P u = -1.
Hypothesis Hmu : M u <> -1.
Hypothesis Hpm : P (M u) = -1.

Variable P' : Z -> Z.
Variable U' : Z -> bool.
Hypothesis HP'u : P' u = v.
Hypothesis HP' : forall z, z <> u -> P' z = P z.
Hypothesis HU' : forall z, U' z = true <-> U z = true \/ z = M u.

Lemma extend_u_unused : U u = false.
Proof.
  destruct (U u) eqn:Hu; auto.
  destruct (inv_matched n E M r P B U HI u Hu Hur) as [_ H]. congruence.
Qed.

Lemma extend_m_unused : U (M u) = false.
Proof.
  destruct (U (M u)) eqn:Hu; auto.
  destruct (M_ok u Hmu) as (Hmm & Hne & Hu1).
  assert (Hmr : M u <> r).
  { intros Heq. rewrite Heq, r_free in Hmm. congruence. }
  destruct (inv_matched n E M r P B U HI (M u) Hu Hmr) as [_ H].
  rewrite Hmm in H. congruence.
Qed.

Lemma extend_agree x A d :
  Walk M P x A d -> Walk M P' x A d.
Proof.
  intros H. apply (Walk_agree M P P' x A d H).
  intros z Hz. apply HP'. intros ->.
  destruct (Walk_split_odds M M_ok P x A d H u Hz) as (_ & _ & _ & _ & _ & _ & Hp & _).
  congruence.
Qed.

Lemma extend_fresh x A d t :
  U x = true -> Walk M P x A d -> U t = false -> P t = -1 -> ~ In t A.
Proof.
  intros Hx H Ht Hp Hin.
  destruct (inv_walk_In n E M r M_ok P B U HI x A d t Hx H Hin)
    as [Hu|(_ & Ho & _)].
  - congruence.
  - destruct (Walk_split_odds M M_ok P x A d H t Ho) as (_ & _ & _ & _ & _ & _ & Hp' & _).
    congruence.
Qed.

Lemma Inv_extend : Inv n E M r P' B U'.
Proof.
  pose proof extend_u_unused as Huu. pose proof extend_m_unused as Hum.
  destruct (M_ok u Hmu) as (Hmm & Hne & Hu1).
  destruct (inv_root _ _ _ _ _ _ _ HI) as (Hr1 & Hr2 & Hr3).
  assert (Hvn : v <> -1).
  { apply (inv_V _ _ _ _ _ _ _ HI) in Hv. lia. }
  constructor.
  - repeat split; auto.
    + apply HU'. auto.
    + rewrite HP'; auto.
  - intros x Hx. apply HU' in Hx. destruct Hx as [Hx| ->].
    + apply (inv_V _ _ _ _ _ _ _ HI x Hx).
    + apply M_V. rewrite Hmm. exact Hu1.
  - intros x Hx. apply HU' in Hx.
    destruct (U x) eqn:Hux.
    + destruct (inv_used _ _ _ _ _ _ _ HI x Hux) as (A1 & A2 & H1 & H2 & Hnd & Hb).
      exists A1, A2. repeat split; auto using extend_agree.
    + destruct Hx as [Hx| ->]; [discriminate|].
      destruct (inv_path n E M r P B U HI v Hv) as (Av & Hwv & Hndv).
      exists [], (M u :: u :: Av).
      rewrite (inv_unused_base n E M r P B U HI (M u) Hum).
      repeat split.
      * apply Walk_nil.
      * assert (W : Walk M P' (M u) (M u :: M (M u) :: Av) r).
        { apply Walk_cons.
          - rewrite Hmm. exact Hu1.
          - rewrite Hmm, HP'u. exact Hvn.
          - rewrite Hmm, HP'u. apply extend_agree. exact Hwv. }
        rewrite Hmm in W. exact W.
      * simpl. constructor; [|constructor]; auto.
        -- intros [Heq|Hin]; [congruence|].
           apply in_app_or in Hin. destruct Hin as [Hin|[Heq|[]]].
           ++ revert Hin. apply (extend_fresh v Av r); auto.
           ++ rewrite <- Heq in Hum. congruence.
        -- intros Hin. apply in_app_or in Hin. destruct Hin as [Hin|[Heq|[]]].
           ++ revert Hin. apply (extend_fresh v Av r); auto.
           ++ congruence.
      * intros z [].
  - intros x Hx. destruct (Z.eq_dec x u) as [->|Hxu].
    + rewrite HP'u. repeat split; auto; apply HU'; auto.
    + rewrite HP' in Hx |- * by auto.
      destruct (inv_p _ _ _ _ _ _ _ HI x Hx) as (H1 & H2 & H3 & H4).
      repeat split; auto; apply HU'; auto.
  - intros x. destruct (inv_base _ _ _ _ _ _ _ HI x) as (H1 & H2 & H3).
    repeat split; auto.
    + intros Hb. apply HU'. auto.
    + intros Hx. apply HU' in Hx. apply HU'. destruct Hx as [Hx| ->]; auto.
      rewrite (inv_unused_base n E M r P B U HI (M u) Hum). auto.
  - intros x Hx Hm. apply HU' in Hx. apply HU' in Hm.
    destruct Hx as [Hx| ->].
    + destruct Hm as [Hm|Hm].
      * apply (inv_mate _ _ _ _ _ _ _ HI x Hx Hm).
      * assert (Hxu : x = u).
        { assert (Hmx : M x <> -1) by congruence.
          destruct (M_ok x Hmx) as (Hxx & _). congruence. }
        congruence.
    + rewrite Hmm in Hm. destruct Hm as [Hm|Hm]; congruence.
  - intros x Hx. apply HU'. left. apply (inv_blos _ _ _ _ _ _ _ HI x Hx).
Qed.

End Extend.

End Steps.

(** ** The invariant after a blossom contraction *)

Section ContractFacts.

Variable n : Z.
Variable E : Z -> Z -> Prop.
Variable M : Z -> Z.
Variable r : Z.
Hypothesis M_ok : forall x, M x <> -1 -> M (M x) = x /\ M x <> x /\ x <> -1.
Hypothesis M_V : forall x, M x <> -1 -> 0 <= x < n.
Hypothesis r_free : M r = -1.
Hypothesis E_sym : forall u v, E u v -> E v u.

Variables P B : Z -> Z.
Variable U : Z -> bool.
Hypothesis HI : Inv n E M r P B U.
Variable c : Z.

Lemma Fork_swap v u A Cv A' Cu dv du :
  Fork E M r P B U c v u A Cv A' Cu dv du ->
  Fork E M r P B U c u v A' Cu A Cv du dv.
Proof.
  intros [H1 H2 H3 H4 H5 H6 H7 H8 H9 H10 H11 H12 H13 H14].
  constructor; auto.
  intros y z Hy Hz Heq. apply (H14 z y Hz Hy). auto.
Qed.

Lemma Contracted_swap P' B' U' v u A A' :
  Contracted P B U c P' B' U' v u A A' ->
  Contracted P B U c P' B' U' u v A' A.
Proof.
  intros [H1 H2 H3 H4 H5 H6]. constructor; auto.
  - intros z [H|H]; apply H4; auto.
  - intros z. rewrite H6. tauto.
Qed.

Section Side.

Variables v u : Z.
Variables A Cv A' Cu : list Z.
Variables dv du : Z.
Hypothesis HF : Fork E M r P B U c v u A Cv A' Cu dv du.

Lemma fork_dv_used : U dv = true.
Proof.
  destruct (inv_walk_used n E M r P B U HI v A dv (fk_v _ _ _ _ _ _ _ _ _ _ _ _ _ _ _ HF)
              (fk_A _ _ _ _ _ _ _ _ _ _ _ _ _ _ _ HF)) as [H _].
  exact H.
Qed.

Lemma fork_c_used : U c = true.
Proof.
  rewrite <- (fk_dv _ _ _ _ _ _ _ _ _ _ _ _ _ _ _ HF).
  apply (inv_used_base n E M r P B U HI). exact fork_dv_used.
Qed.

Lemma fork_c_base : B c = c.
Proof.
  rewrite <- (fk_dv _ _ _ _ _ _ _ _ _ _ _ _ _ _ _ HF).
  apply (inv_base_idem n E M r P B U HI).
Qed.

Lemma fork_ne t : In t A -> B t <> c.
Proof.
  pose proof HF as [fk_v fk_u fk_E fk_A fk_Cv fk_ndv fk_A' fk_Cu fk_ndu
                       fk_dv fk_du fk_ne fk_ne' fk_sep]. apply (inv_walk_base_ne n E M r M_ok P B U HI v A dv c t); auto.
  exact fork_c_used.
Qed.

Lemma fork_base_in t : In t A -> In (B t) A.
Proof.
  pose proof HF as [fk_v fk_u fk_E fk_A fk_Cv fk_ndv fk_A' fk_Cu fk_ndu
                       fk_dv fk_du fk_ne fk_ne' fk_sep].
  apply (inv_walk_base_in n E M r M_ok r_free P B U HI v A dv Cv t); auto.
  rewrite fk_dv. exact fk_ne.
Qed.

Lemma fork_disj t : In t A -> In t A' -> False.
Proof.
  pose proof HF as [fk_v fk_u fk_E fk_A fk_Cv fk_ndv fk_A' fk_Cu fk_ndu
                       fk_dv fk_du fk_ne fk_ne' fk_sep]. intros H1 H2.
  destruct (inv_walk_rep n E M r M_ok P B U HI v A dv t fk_v fk_A H1)
    as (y & Hy & Hyc).
  destruct (inv_walk_rep n E M r M_ok P B U HI u A' du t fk_u fk_A' H2)
    as (z & Hz & Hzc).
  apply (fk_sep y z Hy Hz).
  destruct Hyc as [[Hu1 Hb1]|(Hu1 & -> & _)], Hzc as [[Hu2 Hb2]|(Hu2 & -> & _)];
    congruence.
Qed.

(** Both paths end with the path of [c]. *)
Lemma fork_tail :
  exists D1v D1u D2,
    Cv = D1v ++ D2 /\ Cu = D1u ++ D2 /\
    Walk M P dv D1v c /\ Walk M P du D1u c /\ Walk M P c D2 r /\
    (forall z, In z D1v -> B z = c) /\ (forall z, In z D1u -> B z = c).
Proof.
  pose proof fork_dv_used as Hdv.
  assert (Hdu : U du = true).
  { pose proof HF as [fk_v fk_u fk_E fk_A fk_Cv fk_ndv fk_A' fk_Cu fk_ndu
                       fk_dv fk_du fk_ne fk_ne' fk_sep].
    destruct (inv_walk_used n E M r P B U HI u A' du fk_u fk_A') as [H _].
    exact H. }
  pose proof HF as [fk_v fk_u fk_E fk_A fk_Cv fk_ndv fk_A' fk_Cu fk_ndu
                       fk_dv fk_du fk_ne fk_ne' fk_sep].
  destruct (inv_used _ _ _ _ _ _ _ HI dv Hdv) as (A1 & A2 & Ha1 & Ha2 & _ & Hb).
  destruct (inv_used _ _ _ _ _ _ _ HI du Hdu) as (A1' & A2' & Ha1' & Ha2' & _ & Hb').
  rewrite fk_dv in *. rewrite fk_du in *.
  assert (A2' = A2) by (apply (Walk_det M r r_free P c); auto). subst A2'.
  exists A1, A1', A2. repeat split; auto.
  - apply (Walk_det M r r_free P dv); auto. eapply Walk_app; eauto.
  - apply (Walk_det M r r_free P du); auto. eapply Walk_app; eauto.
Qed.

Lemma fork_disj_C t : In t A -> In t (Cu ++ [r]) -> False.
Proof.
  intros H1 H2.
  destruct fork_tail as (D1v & D1u & D2 & Hcv & Hcu & _ & _ & _ & _ & Hbu).
  rewrite Hcu, <- app_assoc in H2.
  apply in_app_or in H2. destruct H2 as [H2|H2].
  - apply (fork_ne t H1). apply Hbu. exact H2.
  - pose proof HF as [fk_v fk_u fk_E fk_A fk_Cv fk_ndv fk_A' fk_Cu fk_ndu
                       fk_dv fk_du fk_ne fk_ne' fk_sep]. apply (NoDup_app_disj _ _ t fk_ndv H1).
    rewrite Hcv, <- app_assoc. apply in_or_app. right. exact H2.
Qed.

Lemma fork_disj_path t : In t A -> In t (A' ++ Cu ++ [r]) -> False.
Proof.
  intros H1 H2. apply in_app_or in H2. destruct H2 as [H2|H2].
  - exact (fork_disj t H1 H2).
  - exact (fork_disj_C t H1 H2).
Qed.

Lemma fork_r_notin : ~ In r A.
Proof.
  intros H. apply (fork_disj_C r H). apply in_or_app. right. simpl. auto.
Qed.

End Side.

Section SideNew.

Variables v u : Z.
Variables A Cv A' Cu : list Z.
Variables dv du : Z.
Hypothesis HF : Fork E M r P B U c v u A Cv A' Cu dv du.

Variables P' B' : Z -> Z.
Variable U' : Z -> bool.
Hypothesis HC : Contracted P B U c P' B' U' v u A A'.

Let HFs := Fork_swap v u A Cv A' Cu dv du HF.

Lemma new_agree x L d :
  Walk M P x L d ->
  (forall z, In z (odds L) -> ~ In z (evens A) /\ ~ In z (evens A')) ->
  Walk M P' x L d.
Proof.
  intros H Hall. apply (Walk_agree M P P' x L d H).
  intros z Hz. destruct (Hall z Hz). apply (ct_P _ _ _ _ _ _ _ _ _ _ _ HC); auto.
Qed.

Lemma new_walk_other : Walk M P' u A' du.
Proof.
  pose proof HF as [fk_v fk_u fk_E fk_A fk_Cv fk_ndv fk_A' fk_Cu fk_ndu
                       fk_dv fk_du fk_ne fk_ne' fk_sep].
  apply new_agree; auto. intros z Hz. split.
  - intros Hin. apply (fork_disj v u A Cv A' Cu dv du HF z).
    + apply evens_In; auto.
    + apply odds_In; auto.
  - intros Hin. apply (NoDup_evens_odds A') with (z := z); auto.
    apply (NoDup_app_remove_r _ _ fk_ndu).
Qed.

Lemma new_walk_tail x L d :
  Walk M P x L d -> (forall z, In z L -> In z Cu) -> Walk M P' x L d.
Proof.
  pose proof HF as [fk_v fk_u fk_E fk_A fk_Cv fk_ndv fk_A' fk_Cu fk_ndu
                       fk_dv fk_du fk_ne fk_ne' fk_sep].
  intros H Hall. apply new_agree; auto. intros z Hz.
  apply odds_In in Hz. apply Hall in Hz. split; intros Hin.
  - apply (fork_disj_C v u A Cv A' Cu dv du HF z).
    + apply evens_In; auto.
    + apply in_or_app. auto.
  - apply (NoDup_app_disj _ _ z fk_ndu).
    + apply evens_In; auto.
    + apply in_or_app. auto.
Qed.

Lemma new_B_A t : In t A -> B' t = c.
Proof.
  intros Ht. apply (ct_Bc _ _ _ _ _ _ _ _ _ _ _ HC). left.
  apply in_map. exact Ht.
Qed.

Lemma new_B_A' t : In t A' -> B' t = c.
Proof.
  intros Ht. apply (ct_Bc _ _ _ _ _ _ _ _ _ _ _ HC). right.
  apply in_map. exact Ht.
Qed.

Lemma new_B_c t : B t = c -> B' t = c.
Proof.
  intros Ht. rewrite <- Ht. apply (ct_Bn _ _ _ _ _ _ _ _ _ _ _ HC).
  - rewrite Ht. intros Hin. apply in_map_iff in Hin.
    destruct Hin as (y & Hy & Hin).
    exact (fork_ne v u A Cv A' Cu dv du HF y Hin Hy).
  - rewrite Ht. intros Hin. apply in_map_iff in Hin.
    destruct Hin as (y & Hy & Hin).
    exact (fork_ne u v A' Cu A Cv du dv HFs y Hin Hy).
Qed.

Lemma new_rev z A1 A2 :
  A = A1 ++ z :: M z :: A2 -> Walk M P v A1 z ->
  M z <> -1 -> P (M z) <> -1 ->
  Walk M P' (M z) (rev (A1 ++ [z; M z])) u.
Proof.
  intros HeqA W1 Hm Hp.
  assert (WL : Walk M P v (A1 ++ [z; M z]) (P (M z))).
  { eapply Walk_app; [exact W1|]. apply Walk_cons; auto. apply Walk_nil. }
  assert (HL : Linked P' u (A1 ++ [z; M z])).
  { apply (Linked_prefix M P P' u v _ _ WL A2).
    rewrite <- app_assoc. simpl. rewrite <- HeqA.
    apply (ct_L _ _ _ _ _ _ _ _ _ _ _ HC). }
  assert (Hu : u <> -1).
  { pose proof (inv_V _ _ _ _ _ _ _ HI u (fk_u _ _ _ _ _ _ _ _ _ _ _ _ _ _ _ HF)).
    lia. }
  pose proof (Walk_rev M M_ok P P' v _ _ WL u HL) as W.
  replace (last (A1 ++ [z; M z]) 0) with (M z) in W.
  - apply W; auto. destruct A1; discriminate.
  - change [z; M z] with ([z] ++ [M z]). rewrite app_assoc.
    rewrite last_last. reflexivity.
Qed.

(** The new path of the mate of an outer vertex of [A]. *)
Lemma new_path_odd z :
  In z (evens A) ->
  exists N1 N2,
    Walk M P' (M z) N1 c /\ Walk M P' c N2 r /\
    NoDup (N1 ++ N2 ++ [r]) /\
    (forall t, In t N1 -> B' t = c) /\
    (forall t, In t (N1 ++ N2 ++ [r]) -> In t A \/ In t (A' ++ Cu ++ [r])).
Proof.
  intros Hz.
  pose proof HF as [fk_v fk_u fk_E fk_A fk_Cv fk_ndv fk_A' fk_Cu fk_ndu
                       fk_dv fk_du fk_ne fk_ne' fk_sep].
  destruct (Walk_split_evens M P v A dv fk_A z Hz)
    as (A1 & A2 & HeqA & W1 & Hm & Hp & W2).
  destruct (fork_tail v u A Cv A' Cu dv du HF)
    as (D1v & D1u & D2 & Hcv & Hcu & Wdv & Wdu & Wc & Hbv & Hbu).
  exists (rev (A1 ++ [z; M z]) ++ A' ++ D1u), D2.
  assert (Hsub : forall t, In t (rev (A1 ++ [z; M z])) -> In t A).
  { intros t Ht. apply in_rev in Ht. rewrite HeqA.
    apply in_app_or in Ht. apply in_or_app.
    destruct Ht as [Ht|[<-|[<-|[]]]]; simpl; auto. }
  assert (Heq : (rev (A1 ++ [z; M z]) ++ A' ++ D1u) ++ D2 ++ [r] =
                rev (A1 ++ [z; M z]) ++ A' ++ Cu ++ [r]).
  { rewrite Hcu. rewrite <- !app_assoc. reflexivity. }
  repeat split.
  - eapply Walk_app; [apply (new_rev z A1 A2); auto|].
    eapply Walk_app; [apply new_walk_other|].
    apply new_walk_tail; auto.
    intros t Ht. rewrite Hcu. apply in_or_app. auto.
  - apply new_walk_tail; auto.
    intros t Ht. rewrite Hcu. apply in_or_app. auto.
  - rewrite Heq. apply NoDup_app; auto.
    + apply NoDup_rev. apply (NoDup_app_remove_r _ (A2)).
      rewrite <- app_assoc. simpl. rewrite <- HeqA.
      apply (NoDup_app_remove_r _ _ fk_ndv).
    + intros t Ht Hin. apply Hsub in Ht.
      exact (fork_disj_path v u A Cv A' Cu dv du HF t Ht Hin).
  - intros t Ht. apply in_app_or in Ht. destruct Ht as [Ht|Ht].
    + apply new_B_A. auto.
    + apply in_app_or in Ht. destruct Ht as [Ht|Ht].
      * apply new_B_A'. auto.
      * apply new_B_c. auto.
  - intros t Ht. rewrite Heq in Ht. apply in_app_or in Ht.
    destruct Ht as [Ht|Ht]; auto.
Qed.

Section FirstOdd.

(** An outer vertex [x] whose old path [L] first uses a rewritten parent
    at [z], an outer vertex of [A]. *)
Variables x z : Z.
Variables L1 L2 : list Z.
Hypothesis Hx : U x = true.
Hypothesis ND : NoDup ((L1 ++ M z :: z :: L2) ++ [r]).
Hypothesis W1 : Walk M P x L1 (M z).
Hypothesis Hz : In z (evens A).
Hypothesis Hmin :
  forall t, In t (odds L1) -> ~ In t (evens A) /\ ~ In t (evens A').
Hypothesis Hmz : M z <> -1.
Hypothesis Hmm : M (M z) = z.
Hypothesis Hpz : P z <> -1.
Hypothesis W2 : Walk M P (P z) L2 r.

Lemma first_Wz : Walk M P (M z) (M z :: z :: L2) r.
Proof.
  assert (W : Walk M P (M z) (M z :: M (M z) :: L2) r).
  { apply Walk_cons; rewrite Hmm; auto.
    destruct (M_ok z Hmz) as (_ & _ & H). exact H. }
  rewrite Hmm in W. exact W.
Qed.

Lemma first_mz_A : In (M z) A.
Proof.
  pose proof HF as [fk_v fk_u fk_E fk_A fk_Cv fk_ndv fk_A' fk_Cu fk_ndu
                       fk_dv fk_du fk_ne fk_ne' fk_sep].
  apply odds_In. apply (Walk_evens_mate M P v A dv z fk_A Hz).
Qed.

Lemma first_suffix t :
  In t (evens L1) ->
  exists St, Walk M P t St r /\ In z (odds St) /\ In (M z) St /\ U t = true.
Proof.
  intros Ht.
  destruct (Walk_suffix M P x L1 (M z) t W1 Ht) as (La & Lb & HeqL & Wa & Wb & _).
  exists (Lb ++ M z :: z :: L2). repeat split.
  - eapply Walk_app; [exact Wb|]. exact first_Wz.
  - rewrite (Walk_odds_app M P t Lb (M z) _ Wb). apply in_or_app. right.
    simpl. auto.
  - apply in_or_app. right. simpl. auto.
  - destruct (inv_walk_used n E M r P B U HI x La t Hx Wa) as [H _]. exact H.
Qed.

Lemma first_evens_A t : In t (evens L1) -> In t (evens A) -> False.
Proof.
  intros Ht Ha. pose proof HF as [fk_v fk_u fk_E fk_A fk_Cv fk_ndv fk_A' fk_Cu fk_ndu
                       fk_dv fk_du fk_ne fk_ne' fk_sep].
  destruct (first_suffix t Ht) as (St & WSt & Hzo & _ & _).
  destruct (Walk_suffix M P v A dv t fk_A Ha) as (Aa & Ab & HeqA & Wa & Wb & _).
  assert (St = Ab ++ Cv).
  { apply (Walk_det M r r_free P t); auto. eapply Walk_app; eauto. }
  subst St. rewrite (Walk_odds_app M P t Ab dv Cv Wb) in Hzo.
  apply in_app_or in Hzo. destruct Hzo as [Hzo|Hzo].
  - apply (NoDup_evens_odds A (NoDup_app_remove_r _ _ fk_ndv) z Hz).
    rewrite HeqA. rewrite (Walk_odds_app M P v Aa t Ab Wa).
    apply in_or_app. auto.
  - apply (NoDup_app_disj _ _ z fk_ndv).
    + apply evens_In. exact Hz.
    + apply in_or_app. left. apply odds_In. exact Hzo.
Qed.

Lemma first_disj_A t : In t L1 -> In t A -> False.
Proof.
  intros Ht Ha. pose proof HF as [fk_v fk_u fk_E fk_A fk_Cv fk_ndv fk_A' fk_Cu fk_ndu
                       fk_dv fk_du fk_ne fk_ne' fk_sep].
  destruct (Walk_In_cases M P x L1 (M z) W1 t Ht) as [He|Ho];
    destruct (Walk_In_cases M P v A dv fk_A t Ha) as [Hea|Hoa].
  - exact (first_evens_A t He Hea).
  - destruct (Walk_evens_mate M P x L1 (M z) t W1 He) as [Hm1 _].
    destruct (Walk_odds_mate M M_ok P v A dv t fk_A Hoa) as [Hm2 _].
    destruct (Hmin _ Hm1) as [H _]. exact (H Hm2).
  - destruct (Hmin _ Ho) as [H _]. exact (H Hea).
  - destruct (Walk_odds_mate M M_ok P x L1 (M z) t W1 Ho) as [Hm1 _].
    destruct (Walk_odds_mate M M_ok P v A dv t fk_A Hoa) as [Hm2 _].
    exact (first_evens_A _ Hm1 Hm2).
Qed.

Lemma first_evens_other t :
  In t (evens L1) -> In t (A' ++ Cu ++ [r]) -> False.
Proof.
  intros Ht Hin. pose proof HF as [fk_v fk_u fk_E fk_A fk_Cv fk_ndv fk_A' fk_Cu fk_ndu
                       fk_dv fk_du fk_ne fk_ne' fk_sep].
  destruct (first_suffix t Ht) as (St & WSt & _ & Hmz_in & Hut).
  assert (Htr : t <> r).
  { destruct (Walk_evens_mate M P x L1 (M z) t W1 Ht) as [_ H]. congruence. }
  assert (WAu : Walk M P u (A' ++ Cu) r) by (eapply Walk_app; eauto).
  assert (Hin' : In t (A' ++ Cu)).
  { rewrite app_assoc in Hin. apply in_app_or in Hin.
    destruct Hin as [Hin|[Hin|[]]]; auto. congruence. }
  assert (Hpath : forall y, In y (A' ++ Cu) -> In y (A' ++ Cu ++ [r])).
  { intros y Hy. rewrite app_assoc. apply in_or_app. auto. }
  destruct (Walk_In_cases M P u _ r WAu t Hin') as [He|Ho].
  - destruct (Walk_suffix M P u _ r t WAu He) as (Ua & Ub & HeqU & Wa & Wb & _).
    assert (St = Ub) by (apply (Walk_det M r r_free P t); auto). subst St.
    apply (fork_disj_path v u A Cv A' Cu dv du HF (M z) first_mz_A).
    apply Hpath. rewrite HeqU. apply in_or_app. auto.
  - destruct (Walk_odds_mate M M_ok P u _ r t WAu Ho) as [Hme Hmt].
    destruct (inv_walk_used n E M r P B U HI u _ r fk_u WAu) as [_ Hall].
    pose proof (Hall _ Hme) as Humt.
    assert (Hbt : B t = B (M t)).
    { pose proof (inv_mates_base n E M r P B U HI (M t) Humt) as Hb.
      rewrite Hmt in Hb. apply Hb. exact Hut. }
    destruct (inv_interval n E M r r_free P B U HI u _ (M t) WAu fk_u Hme)
      as (S1 & S2 & S3 & HeqS & Ws1 & Ws2 & Ws3 & _).
    destruct (inv_used _ _ _ _ _ _ _ HI t Hut) as (T1 & T2 & Wt1 & Wt2 & _ & Hbt1).
    rewrite Hbt in Wt1, Wt2, Hbt1.
    assert (T2 = S3) by (apply (Walk_det M r r_free P (B (M t))); auto).
    subst T2.
    assert (St = T1 ++ S3).
    { apply (Walk_det M r r_free P t); auto. eapply Walk_app; eauto. }
    subst St.
    assert (HS3 : forall y, In y (S3 ++ [r]) -> In y (A' ++ Cu ++ [r])).
    { intros y Hy. rewrite app_assoc, HeqS, <- !app_assoc.
      apply in_or_app. right. apply in_or_app. right. exact Hy. }
    apply in_app_or in Hmz_in. destruct Hmz_in as [Hmz_in|Hmz_in].
    + apply Hbt1 in Hmz_in.
      pose proof (fork_base_in v u A Cv A' Cu dv du HF (M z) first_mz_A) as Hba.
      rewrite Hmz_in in Hba.
      apply (fork_disj_path v u A Cv A' Cu dv du HF _ Hba).
      apply HS3. apply (Walk_head M P _ _ _ Ws3).
    + apply (fork_disj_path v u A Cv A' Cu dv du HF (M z) first_mz_A).
      apply HS3. apply in_or_app. auto.
Qed.

Lemma first_disj_other t : In t L1 -> In t (A' ++ Cu ++ [r]) -> False.
Proof.
  intros Ht Hin. pose proof HF as [fk_v fk_u fk_E fk_A fk_Cv fk_ndv fk_A' fk_Cu fk_ndu
                       fk_dv fk_du fk_ne fk_ne' fk_sep].
  destruct (Walk_In_cases M P x L1 (M z) W1 t Ht) as [He|Ho].
  - exact (first_evens_other t He Hin).
  - destruct (Walk_split_odds M M_ok P x L1 (M z) W1 t Ho)
      as (_ & _ & _ & _ & Hmt & _).
    destruct (Walk_odds_mate M M_ok P x L1 (M z) t W1 Ho) as [Hme _].
    assert (Htr : t <> r) by congruence.
    assert (WAu : Walk M P u (A' ++ Cu) r) by (eapply Walk_app; eauto).
    assert (Hin' : In t (A' ++ Cu)).
    { rewrite app_assoc in Hin. apply in_app_or in Hin.
      destruct Hin as [Hin|[Hin|[]]]; auto. congruence. }
    destruct (Walk_In_mate M M_ok P u _ r t WAu Hin') as [Hm _].
    apply (first_evens_other (M t) Hme).
    rewrite app_assoc. apply in_or_app. auto.
Qed.

Lemma new_path_first :
  exists N1 N2,
    Walk M P' x N1 (B' x) /\ Walk M P' (B' x) N2 r /\
    NoDup (N1 ++ N2 ++ [r]) /\
    (forall t, In t N1 -> B' t = B' x).
Proof.
  pose proof HF as [fk_v fk_u fk_E fk_A fk_Cv fk_ndv fk_A' fk_Cu fk_ndu
                       fk_dv fk_du fk_ne fk_ne' fk_sep].
  destruct (new_path_odd z Hz) as (Y1 & Y2 & Wy1 & Wy2 & NDy & Hby & Hsub).
  destruct (inv_used _ _ _ _ _ _ _ HI x Hx) as (X1 & X2 & Wx1 & Wx2 & NDx & Hbx).
  assert (W1' : Walk M P' x L1 (M z)) by (apply new_agree; auto).
  assert (NDL1 : NoDup L1).
  { apply (NoDup_app_remove_r _ (M z :: z :: L2 ++ [r])).
    rewrite <- app_assoc in ND. exact ND. }
  assert (NDall : NoDup (L1 ++ Y1 ++ Y2 ++ [r])).
  { apply NoDup_app; auto. intros t Ht Hin. apply Hsub in Hin.
    destruct Hin as [Hin|Hin].
    - exact (first_disj_A t Ht Hin).
    - exact (first_disj_other t Ht Hin). }
  assert (HmzB : In (B (M z)) (map B A)) by (apply in_map; exact first_mz_A).
  destruct (Walk_cmp M P x X1 (B x) Wx1 L1 (M z) W1)
    as [(K & HeqK & WK)|(K & HeqK & WK)].
  - (* the old base of [x] comes first *)
    destruct (in_dec Z.eq_dec (B x) (map B A ++ map B A')) as [Hmk|Hmk].
    + assert (Hbc : B' x = c).
      { apply (ct_Bc _ _ _ _ _ _ _ _ _ _ _ HC). apply in_app_or. exact Hmk. }
      assert (HK : K = []).
      { destruct K as [|k0 K']; auto. exfalso.
        assert (HinL : In (B x) L1).
        { rewrite HeqK. apply in_or_app. right.
          inversion WK; subst; simpl; auto. }
        apply in_app_or in Hmk. destruct Hmk as [Hmk|Hmk];
          apply in_map_iff in Hmk; destruct Hmk as (y & Hy & Hin).
        - apply (first_disj_A (B x) HinL). rewrite <- Hy.
          apply (fork_base_in v u A Cv A' Cu dv du HF y Hin).
        - apply (first_disj_other (B x) HinL). apply in_or_app. left.
          rewrite <- Hy.
          apply (fork_base_in u v A' Cu A Cv du dv HFs y Hin). }
      rewrite HK, app_nil_r in HeqK.
      exists (L1 ++ Y1), Y2. rewrite Hbc. repeat split; auto.
      * eapply Walk_app; eauto.
      * rewrite <- app_assoc. exact NDall.
      * intros t Ht. apply in_app_or in Ht. destruct Ht as [Ht|Ht]; auto.
        rewrite HeqK in Ht.
        apply (ct_Bc _ _ _ _ _ _ _ _ _ _ _ HC). rewrite (Hbx t Ht).
        apply in_app_or. exact Hmk.
    + assert (Hbn : B' x = B x).
      { apply (ct_Bn _ _ _ _ _ _ _ _ _ _ _ HC); intros Hin; apply Hmk;
          apply in_or_app; auto. }
      assert (Hodd : forall t, In t (odds X1) \/ In t (odds K) ->
                     ~ In t (evens A) /\ ~ In t (evens A')).
      { intros t Ht. apply Hmin. rewrite HeqK.
        rewrite (Walk_odds_app M P x X1 (B x) K Wx1). apply in_or_app. auto. }
      exists X1, (K ++ Y1 ++ Y2). rewrite Hbn. repeat split.
      * apply new_agree; auto.
      * eapply Walk_app; [|eapply Walk_app; eauto].
        apply new_agree; auto.
      * rewrite HeqK, <- !app_assoc in NDall. rewrite <- !app_assoc.
        exact NDall.
      * intros t Ht. rewrite <- (Hbx t Ht).
        apply (ct_Bn _ _ _ _ _ _ _ _ _ _ _ HC); rewrite (Hbx t Ht);
          intros Hin; apply Hmk; apply in_or_app; auto.
  - (* the walk to [M z] stays in the old blossom of [x] *)
    assert (Hbmz : B (M z) = B x).
    { pose proof (Walk_head M P _ _ _ WK) as Hh.
      apply in_app_or in Hh. destruct Hh as [Hh|[Hh|[]]].
      - apply Hbx. rewrite HeqK. apply in_or_app. auto.
      - rewrite <- Hh. apply (inv_base_idem n E M r P B U HI). }
    assert (Hbc : B' x = c).
    { apply (ct_Bc _ _ _ _ _ _ _ _ _ _ _ HC). left. rewrite <- Hbmz. exact HmzB. }
    exists (L1 ++ Y1), Y2. rewrite Hbc. repeat split; auto.
    + eapply Walk_app; eauto.
    + rewrite <- app_assoc. exact NDall.
    + intros t Ht. apply in_app_or in Ht. destruct Ht as [Ht|Ht]; auto.
      apply (ct_Bc _ _ _ _ _ _ _ _ _ _ _ HC). left.
      rewrite (Hbx t), <- Hbmz; auto. rewrite HeqK. apply in_or_app. auto.
Qed.

End FirstOdd.

(** An outer vertex whose old path uses no rewritten parent, and whose
    old base lies on [A]. *)
Lemma new_path_none x X1 X2 :
  U x = true ->
  Walk M P x X1 (B x) -> Walk M P (B x) X2 r ->
  NoDup (X1 ++ X2 ++ [r]) -> (forall t, In t X1 -> B t = B x) ->
  (forall t, In t (odds (X1 ++ X2)) ->
     ~ In t (evens A) /\ ~ In t (evens A')) ->
  In (B x) A ->
  exists N1 N2,
    Walk M P' x N1 c /\ Walk M P' c N2 r /\
    NoDup (N1 ++ N2 ++ [r]) /\
    (forall t, In t N1 -> B' t = c).
Proof.
  intros Hx Wx1 Wx2 NDx Hbx Hnone HbA.
  pose proof HF as [fk_v fk_u fk_E fk_A fk_Cv fk_ndv fk_A' fk_Cu fk_ndu
                       fk_dv fk_du fk_ne fk_ne' fk_sep].
  assert (Hub : U (B x) = true) by (apply (inv_used_base n E M r P B U HI); auto).
  assert (Hbb : B (B x) = B x) by (apply (inv_base_idem n E M r P B U HI)).
  assert (Hbe : In (B x) (evens A)).
  { destruct (Walk_In_cases M P v A dv fk_A _ HbA) as [He|Ho]; auto.
    exfalso.
    exact (inv_base_not_odd n E M r M_ok P B U HI v A dv (B x) fk_v fk_A Hub Hbb Ho). }
  destruct (Walk_suffix M P v A dv _ fk_A Hbe) as (Aa & Ab & HeqA & Wa & Wb & _).
  destruct (fork_tail v u A Cv A' Cu dv du HF)
    as (D1v & D1u & D2 & Hcv & Hcu & Wdv & Wdu & Wc & Hbv & Hbu).
  assert (HX2 : X2 = Ab ++ D1v ++ D2).
  { apply (Walk_det M r r_free P (B x)); auto.
    eapply Walk_app; [exact Wb|]. eapply Walk_app; eauto. }
  assert (WN1 : Walk M P x (X1 ++ Ab ++ D1v) c).
  { eapply Walk_app; [exact Wx1|]. eapply Walk_app; eauto. }
  assert (HeqL : X1 ++ X2 = (X1 ++ Ab ++ D1v) ++ D2).
  { rewrite HX2, <- !app_assoc. reflexivity. }
  exists (X1 ++ Ab ++ D1v), D2. repeat split.
  - apply new_agree; auto. intros t Ht. apply Hnone. rewrite HeqL.
    rewrite (Walk_odds_app M P x _ c D2 WN1). apply in_or_app. auto.
  - apply new_agree; auto. intros t Ht. apply Hnone. rewrite HeqL.
    rewrite (Walk_odds_app M P x _ c D2 WN1). apply in_or_app. auto.
  - rewrite <- !app_assoc. rewrite HX2, <- !app_assoc in NDx. exact NDx.
  - intros t Ht. apply in_app_or in Ht. destruct Ht as [Ht|Ht].
    + apply (ct_Bc _ _ _ _ _ _ _ _ _ _ _ HC). left. rewrite (Hbx t Ht).
      rewrite <- Hbb. apply in_map. exact HbA.
    + apply in_app_or in Ht. destruct Ht as [Ht|Ht].
      * apply new_B_A. rewrite HeqA. apply in_or_app. auto.
      * apply new_B_c. auto.
Qed.

Lemma mark_in_A b : In b (map B A) -> In b A.
Proof.
  intros Hb. apply in_map_iff in Hb. destruct Hb as (t & <- & Ht).
  exact (fork_base_in v u A Cv A' Cu dv du HF t Ht).
Qed.

Lemma new_used_A t : In t A -> U' t = true.
Proof.
  intros Ht. apply (ct_U _ _ _ _ _ _ _ _ _ _ _ HC). right. left.
  apply in_map. exact Ht.
Qed.

Lemma fork_A_mate t : In t A -> In (M t) A /\ M (M t) = t.
Proof.
  intros Ht. pose proof HF as [fk_v fk_u fk_E fk_A fk_Cv fk_ndv fk_A' fk_Cu fk_ndu
                       fk_dv fk_du fk_ne fk_ne' fk_sep].
  destruct (Walk_In_mate M M_ok P v A dv t fk_A Ht) as [H1 H2].
  split; auto. apply (M_ok t H2).
Qed.

(** A vertex that becomes outer by the contraction. *)
Lemma new_path_unused x :
  U x = false -> In (B x) (map B A) ->
  exists N1 N2,
    Walk M P' x N1 (B' x) /\ Walk M P' (B' x) N2 r /\
    NoDup (N1 ++ N2 ++ [r]) /\
    (forall t, In t N1 -> B' t = B' x).
Proof.
  intros Hx Hb. pose proof HF as [fk_v fk_u fk_E fk_A fk_Cv fk_ndv fk_A' fk_Cu fk_ndu
                       fk_dv fk_du fk_ne fk_ne' fk_sep].
  assert (Hbc : B' x = c).
  { apply (ct_Bc _ _ _ _ _ _ _ _ _ _ _ HC). auto. }
  apply mark_in_A in Hb.
  rewrite (inv_unused_base n E M r P B U HI x Hx) in Hb.
  destruct (inv_walk_In n E M r M_ok P B U HI v A dv x fk_v fk_A Hb)
    as [Hu|(_ & Ho & He)]; [congruence|].
  destruct (Walk_odds_mate M M_ok P v A dv x fk_A Ho) as [_ Hmm].
  destruct (new_path_odd (M x) He) as (N1 & N2 & W1 & W2 & ND & Hbn & _).
  rewrite Hmm in W1. rewrite Hbc. exists N1, N2. auto.
Qed.

Lemma new_p_side x :
  In x (evens A) ->
  U' (P' x) = true /\ E (P' x) x /\ M x <> -1 /\ U' (M x) = true.
Proof.
  intros Hx. pose proof HF as [fk_v fk_u fk_E fk_A fk_Cv fk_ndv fk_A' fk_Cu fk_ndu
                       fk_dv fk_du fk_ne fk_ne' fk_sep].
  destruct (Walk_evens_mate M P v A dv x fk_A Hx) as [Hmo Hmx].
  assert (Hum : U' (M x) = true) by (apply new_used_A, odds_In; auto).
  destruct (Linked_spec M P P' v A dv fk_A u (ct_L _ _ _ _ _ _ _ _ _ _ _ HC) x Hx)
    as [[H1 H2]|(m & H1 & H2 & H3)].
  - rewrite H1. split; [|split; [|split]]; auto.
    + apply (ct_U _ _ _ _ _ _ _ _ _ _ _ HC). auto.
    + rewrite H2. apply E_sym. exact fk_E.
  - rewrite H2. split; [|split; [|split]]; auto.
    + apply new_used_A, odds_In; auto.
    + apply E_sym. rewrite <- H3.
      destruct (Walk_split_odds M M_ok P v A dv fk_A m H1)
        as (_ & _ & _ & _ & _ & _ & Hpm & _).
      apply (inv_p _ _ _ _ _ _ _ HI m Hpm).
Qed.

End SideNew.

Section Final.

Variables v u : Z.
Variables A Cv A' Cu : list Z.
Variables dv du : Z.
Hypothesis HF : Fork E M r P B U c v u A Cv A' Cu dv du.

Variables P' B' : Z -> Z.
Variable U' : Z -> bool.
Hypothesis HC : Contracted P B U c P' B' U' v u A A'.

Let HFs := Fork_swap v u A Cv A' Cu dv du HF.
Let HCs := Contracted_swap P' B' U' v u A A' HC.

Lemma final_marked_in b :
  In b (map B A) \/ In b (map B A') -> In b A \/ In b A'.
Proof.
  intros [H|H]; [left|right].
  - exact (mark_in_A v u A Cv A' Cu dv du HF b H).
  - exact (mark_in_A u v A' Cu A Cv du dv HFs b H).
Qed.

Lemma final_in_marked t :
  In t A \/ In t A' -> In (B t) (map B A) \/ In (B t) (map B A').
Proof.
  intros [H|H]; [left|right]; apply in_map; exact H.
Qed.

Lemma final_mate_in t : In t A \/ In t A' -> In (M t) A \/ In (M t) A'.
Proof.
  intros [H|H]; [left|right].
  - apply (fork_A_mate v u A Cv A' Cu dv du HF t H).
  - apply (fork_A_mate u v A' Cu A Cv du dv HFs t H).
Qed.

Lemma final_c_unmarked : ~ (In c (map B A) \/ In c (map B A')).
Proof.
  intros [H|H]; apply in_map_iff in H; destruct H as (t & Ht & Hin).
  - exact (fork_ne v u A Cv A' Cu dv du HF t Hin Ht).
  - exact (fork_ne u v A' Cu A Cv du dv HFs t Hin Ht).
Qed.

Lemma final_mk_dec b :
  {In b (map B A) \/ In b (map B A')} +
  {~ In b (map B A) /\ ~ In b (map B A')}.
Proof.
  destruct (in_dec Z.eq_dec b (map B A)); auto.
  destruct (in_dec Z.eq_dec b (map B A')); auto.
Qed.

Theorem Inv_contract : Inv n E M r P' B' U'.
Proof.
  pose proof HF as [fk_v fk_u fk_E fk_A fk_Cv fk_ndv fk_A' fk_Cu fk_ndu
                       fk_dv fk_du fk_ne fk_ne' fk_sep].
  pose proof HC as [ct_P ct_L ct_L' ct_Bc ct_Bn ct_U].
  destruct (inv_root _ _ _ _ _ _ _ HI) as (Hr1 & Hr2 & Hr3).
  pose proof (fork_c_used v u A Cv A' Cu dv du HF) as Hcu.
  pose proof (fork_c_base v u A Cv A' Cu dv du HF) as Hcb.
  assert (HrA : ~ In r A) by exact (fork_r_notin v u A Cv A' Cu dv du HF).
  assert (HrA' : ~ In r A') by exact (fork_r_notin u v A' Cu A Cv du dv HFs).
  constructor.
  - (* root *)
    repeat split.
    + apply ct_U. auto.
    + transitivity (B r); [|exact Hr2]. apply ct_Bn; rewrite Hr2; intros H.
      * apply HrA. exact (mark_in_A v u A Cv A' Cu dv du HF _ H).
      * apply HrA'. exact (mark_in_A u v A' Cu A Cv du dv HFs _ H).
    + rewrite ct_P; auto; intros H; apply evens_In in H; auto.
  - (* range *)
    intros x Hx. apply ct_U in Hx.
    destruct (U x) eqn:Hux.
    + apply (inv_V _ _ _ _ _ _ _ HI x Hux).
    + destruct Hx as [Hx|Hx]; [discriminate|].
      rewrite (inv_unused_base n E M r P B U HI x Hux) in Hx.
      apply final_marked_in in Hx. apply M_V.
      destruct Hx as [Hx|Hx].
      * apply (Walk_In_mate M M_ok P v A dv x fk_A Hx).
      * apply (Walk_In_mate M M_ok P u A' du x fk_A' Hx).
  - (* paths *)
    intros x Hx. apply ct_U in Hx.
    destruct (U x) eqn:Hux.
    + destruct (inv_used _ _ _ _ _ _ _ HI x Hux) as (X1 & X2 & Wx1 & Wx2 & NDx & Hbx).
      assert (WL : Walk M P x (X1 ++ X2) r) by (eapply Walk_app; eauto).
      destruct (Walk_first_odd M M_ok P
                  (fun z => In z (evens A) \/ In z (evens A'))
                  (fun z => match in_dec Z.eq_dec z (evens A) with
                            | left H => left (or_introl H)
                            | right H1 =>
                                match in_dec Z.eq_dec z (evens A') with
                                | left H => left (or_intror H)
                                | right H2 =>
                                    right (fun H => match H with
                                                    | or_introl H => H1 H
                                                    | or_intror H => H2 H
                                                    end)
                                end
                            end)
                  x (X1 ++ X2) r WL)
        as [Hnone|(L1 & L2 & z & HeqL & W1 & Hq & Hmin & Hmz & Hmm & Hpz & W2)].
      * (* no parent of the old path was rewritten *)
        assert (Hnone' : forall t, In t (odds (X1 ++ X2)) ->
                           ~ In t (evens A) /\ ~ In t (evens A')).
        { intros t Ht. pose proof (Hnone t Ht). tauto. }
        destruct (final_mk_dec (B x)) as [[Hmk|Hmk]|[Hm1 Hm2]].
        -- rewrite (ct_Bc x (or_introl Hmk)).
           apply (new_path_none v u A Cv A' Cu dv du HF P' B' U' HC x X1 X2); auto.
           exact (mark_in_A v u A Cv A' Cu dv du HF _ Hmk).
        -- rewrite (ct_Bc x (or_intror Hmk)).
           apply (new_path_none u v A' Cu A Cv du dv HFs P' B' U' HCs x X1 X2); auto.
           ++ intros t Ht. pose proof (Hnone t Ht). tauto.
           ++ exact (mark_in_A u v A' Cu A Cv du dv HFs _ Hmk).
        -- rewrite (ct_Bn x Hm1 Hm2). exists X1, X2.
           assert (Hsplit : odds (X1 ++ X2) = odds X1 ++ odds X2)
             by exact (Walk_odds_app M P x X1 (B x) X2 Wx1).
           repeat split; auto.
           ++ apply (new_agree v u A A' P' B' U' HC); auto.
              intros t Ht. apply Hnone'. rewrite Hsplit. apply in_or_app. auto.
           ++ apply (new_agree v u A A' P' B' U' HC); auto.
              intros t Ht. apply Hnone'. rewrite Hsplit. apply in_or_app. auto.
           ++ intros t Ht. rewrite <- (Hbx t Ht).
              apply ct_Bn; rewrite (Hbx t Ht); auto.
      * (* the first rewritten parent *)
        assert (ND : NoDup ((L1 ++ M z :: z :: L2) ++ [r])).
        { rewrite <- HeqL, <- app_assoc. exact NDx. }
        destruct Hq as [Hq|Hq].
        -- apply (new_path_first v u A Cv A' Cu dv du HF P' B' U' HC
                    x z L1 L2); auto.
           intros t Ht. pose proof (Hmin t Ht). tauto.
        -- apply (new_path_first u v A' Cu A Cv du dv HFs P' B' U' HCs
                    x z L1 L2); auto.
           intros t Ht. pose proof (Hmin t Ht). tauto.
    + destruct Hx as [Hx|[Hx|Hx]]; [discriminate| |].
      * apply (new_path_unused v u A Cv A' Cu dv du HF P' B' U' HC x); auto.
      * apply (new_path_unused u v A' Cu A Cv du dv HFs P' B' U' HCs x); auto.
  - (* parents *)
    intros x Hx.
    destruct (in_dec Z.eq_dec x (evens A)) as [Ha|Ha].
    { exact (new_p_side v u A Cv A' Cu dv du HF P' B' U' HC x Ha). }
    destruct (in_dec Z.eq_dec x (evens A')) as [Ha'|Ha'].
    { exact (new_p_side u v A' Cu A Cv du dv HFs P' B' U' HCs x Ha'). }
    rewrite (ct_P x Ha Ha') in Hx |- *.
    destruct (inv_p _ _ _ _ _ _ _ HI x Hx) as (H1 & H2 & H3 & H4).
    repeat split; auto; apply ct_U; auto.
  - (* bases *)
    intros x. destruct (inv_base _ _ _ _ _ _ _ HI x) as (Hb1 & Hb2 & Hb3).
    destruct (final_mk_dec (B x)) as [Hmk|[Hm1 Hm2]].
    + rewrite (ct_Bc x Hmk). repeat split.
      * transitivity (B c); [|exact Hcb].
        apply ct_Bn; rewrite Hcb; intros H; apply final_c_unmarked; auto.
      * intros _. apply ct_U. tauto.
      * intros _. apply ct_U. auto.
    + rewrite (ct_Bn x Hm1 Hm2). repeat split.
      * transitivity (B (B x)); [|exact Hb1].
        apply ct_Bn; rewrite Hb1; auto.
      * intros H. apply ct_U. auto.
      * intros H. apply ct_U in H. apply ct_U. left. apply Hb3. tauto.
  - (* mates *)
    intros x Hx Hm. apply ct_U in Hx. apply ct_U in Hm.
    assert (Hkey : forall y, U y = false ->
              In (B y) (map B A) \/ In (B y) (map B A') ->
              In (B (M y)) (map B A) \/ In (B (M y)) (map B A')).
    { intros y Hy Hmk.
      rewrite (inv_unused_base n E M r P B U HI y Hy) in Hmk.
      apply final_in_marked, final_mate_in, final_marked_in. exact Hmk. }
    assert (Hmx : M x <> -1).
    { intros Heq. rewrite Heq in Hm.
      rewrite (inv_neg n E M r P B U HI) in Hm.
      destruct Hm as [Hm|Hm]; [discriminate|].
      rewrite (inv_unused_base n E M r P B U HI (-1)) in Hm
        by (apply (inv_neg n E M r P B U HI)).
      apply final_marked_in in Hm. destruct Hm as [Hm|Hm].
      - destruct (Walk_In_mate M M_ok P v A dv _ fk_A Hm) as [_ H].
        destruct (M_ok _ H) as (_ & _ & H'). congruence.
      - destruct (Walk_In_mate M M_ok P u A' du _ fk_A' Hm) as [_ H].
        destruct (M_ok _ H) as (_ & _ & H'). congruence. }
    destruct (M_ok x Hmx) as (Hmmx & _ & _).
    destruct (final_mk_dec (B x)) as [Hmk|[Hm1 Hm2]];
      destruct (final_mk_dec (B (M x))) as [Hmk'|[Hm1' Hm2']].
    + rewrite (ct_Bc x Hmk), (ct_Bc (M x) Hmk'). split; auto.
      intros Heq. apply final_c_unmarked. rewrite <- Hcb, Heq. exact Hmk.
    + exfalso. destruct (U x) eqn:Hux.
      * assert (Hum : U (M x) = true) by tauto.
        destruct (inv_mate _ _ _ _ _ _ _ HI x Hux Hum) as [Hb _].
        rewrite Hb in *. tauto.
      * pose proof (Hkey x Hux Hmk). tauto.
    + exfalso. destruct (U (M x)) eqn:Hum.
      * assert (Hux : U x = true) by tauto.
        destruct (inv_mate _ _ _ _ _ _ _ HI x Hux Hum) as [Hb _].
        rewrite Hb in *. tauto.
      * pose proof (Hkey (M x) Hum Hmk') as H. rewrite Hmmx in H. tauto.
    + rewrite (ct_Bn x Hm1 Hm2), (ct_Bn (M x) Hm1' Hm2').
      apply (inv_mate _ _ _ _ _ _ _ HI x); tauto.
  - (* blossoms *)
    intros x Hx. apply ct_U.
    destruct (final_mk_dec (B x)) as [Hmk|[Hm1 Hm2]].
    + destruct (Z.eq_dec (B x) x) as [Hbx|Hbx].
      * right. rewrite Hbx in Hmk.
        apply final_in_marked, final_mate_in, final_marked_in. exact Hmk.
      * left. apply (inv_blos _ _ _ _ _ _ _ HI x Hbx).
    + left. apply (inv_blos _ _ _ _ _ _ _ HI x).
      rewrite <- (ct_Bn x Hm1 Hm2). exact Hx.
Qed.

End Final.

End ContractFacts.

(** ** What the two loops of [lca] establish *)

Section ForkIntro.

Variable n : Z.
Variable E : Z -> Z -> Prop.
Variable M : Z -> Z.
Variable r : Z.
Hypothesis M_ok : forall x, M x <> -1 -> M (M x) = x /\ M x <> x /\ x <> -1.
Hypothesis r_free : M r = -1.

Variables P B : Z -> Z.
Variable U : Z -> bool.
Hypothesis HI : Inv n E M r P B U.

(** One round of the loops of [lca]: from [x] to its base, and from the
    base to the parent of its mate. *)
Lemma inv_segment x L :
  U x = true -> Walk M P x L r ->
  exists X1,
    Walk M P x X1 (B x) /\ (forall z, In z X1 -> B z = B x) /\
    ((B x = r /\ L = X1) \/
     (exists L3,
         L = X1 ++ B x :: M (B x) :: L3 /\
         M (B x) <> -1 /\ P (M (B x)) <> -1 /\
         U (P (M (B x))) = true /\ Walk M P (P (M (B x))) L3 r)).
Proof.
  intros Hx HL.
  destruct (inv_used _ _ _ _ _ _ _ HI x Hx) as (X1 & X2 & W1 & W2 & _ & Hb).
  assert (HeqL : L = X1 ++ X2).
  { apply (Walk_det M r r_free P x); auto. eapply Walk_app; eauto. }
  exists X1. repeat split; auto.
  inversion W2 as [|? X3 ? Hm Hp W3]; subst.
  - left. rewrite app_nil_r. auto.
  - right. exists X3. repeat split; auto.
    apply (inv_p _ _ _ _ _ _ _ HI _ Hp).
Qed.

Lemma Walk_split_first c x L d :
  Walk M P x L d ->
  (exists y, In y (evens L ++ [d]) /\ B y = c) ->
  exists A C dv,
    L = A ++ C /\ Walk M P x A dv /\ Walk M P dv C d /\ B dv = c /\
    forall y, In y (evens A) -> B y <> c.
Proof.
  induction 1 as [x|x L d Hm Hp Hw IH]; intros (y & Hy & Hyc).
  - simpl in Hy. destruct Hy as [<-|[]].
    exists [], [], x. repeat split; auto; try apply Walk_nil; intros z [].
  - destruct (Z.eq_dec (B x) c) as [Hxc|Hxc].
    + exists [], (x :: M x :: L), x.
      repeat split; auto; try apply Walk_nil; try (apply Walk_cons; auto);
        intros z [].
    + simpl in Hy. destruct Hy as [<-|Hy]; [congruence|].
      destruct IH as (A & C & dv & -> & H1 & H2 & H3 & H4); [eauto|].
      exists (x :: M x :: A), C, dv. repeat split; auto.
      * apply Walk_cons; auto.
      * simpl. intros z [<-|Hz]; auto.
Qed.

Lemma Fork_intro (mk : Z -> bool) c v u Lv A' Cu du :
  U v = true -> U u = true -> E v u ->
  Walk M P v Lv r -> NoDup (Lv ++ [r]) ->
  Walk M P u A' du -> Walk M P du Cu r -> NoDup (A' ++ Cu ++ [r]) ->
  B du = c ->
  (forall b, mk b = true <-> exists y, In y (evens Lv ++ [r]) /\ B y = b) ->
  mk c = true ->
  (forall z, In z (evens A') -> mk (B z) = false) ->
  exists A Cv dv,
    Lv = A ++ Cv /\ Fork E M r P B U c v u A Cv A' Cu dv du.
Proof.
  intros Hv Hu Hvu WLv NDv WA' WCu NDu Hdu Hmk Hc Hun.
  destruct (Walk_split_first c v Lv r WLv) as (A & Cv & dv & HeqL & WA & WCv & Hdv & Hne).
  { apply Hmk. exact Hc. }
  exists A, Cv, dv. split; auto. subst Lv. constructor; auto.
  - rewrite <- app_assoc in NDv. exact NDv.
  - intros z Hz Heq. pose proof (Hun z Hz) as H. rewrite Heq in H. congruence.
  - intros y z Hy Hz Heq. pose proof (Hun z Hz) as H.
    rewrite <- Heq in H.
    assert (H' : mk (B y) = true).
    { apply Hmk. exists y. split; auto.
      rewrite (Walk_evens_app M P v A dv Cv WA).
      apply in_or_app. left. apply in_or_app. auto. }
    congruence.
Qed.

(** The neighbour that closes an odd cycle is an outer vertex. *)
Lemma inv_cycle_used u :
  u = r \/ (M u <> -1 /\ P (M u) <> -1) -> U u = true.
Proof.
  intros [->|[Hm Hp]].
  - apply (inv_root _ _ _ _ _ _ _ HI).
  - destruct (inv_p _ _ _ _ _ _ _ HI _ Hp) as (_ & _ & _ & H).
    destruct (M_ok u Hm) as (Hmm & _). rewrite Hmm in H. exact H.
Qed.

End ForkIntro.

(** ** The search examines every edge of an outer vertex *)

Section CompSteps.

Variable E : Z -> Z -> Prop.
Hypothesis E_sym : forall u v, E u v -> E v u.

(** The edge from [cur] to [u] has been dealt with. *)
Lemma Comp_next P B U Q cur u rest :
  Comp E P B U Q cur (u :: rest) ->
  (U cur = true ->
   (U u = true /\ B cur = B u) \/ (U u = false /\ P u <> -1)) ->
  Comp E P B U Q cur rest.
Proof.
  intros HC Hdone a b Hab Ha.
  destruct (HC a b Hab Ha) as [[Hq|[-> [<-|Hin]]]|[[Hb [Hs|Ht]]|Hi]].
  - left. left. exact Hq.
  - destruct (Hdone Ha) as [[H1 H2]|H]; auto.
  - left. right. auto.
  - right. left. auto.
  - destruct Ht as [Hq|[-> [<-|Hin]]].
    + right. left. split; [exact Hb|]. right. left. exact Hq.
    + destruct (Hdone Hb) as [[H1 H2]|[H1 H2]]; [|congruence].
      right. left. auto.
    + right. left. split; [exact Hb|]. right. right. auto.
  - right. right. exact Hi.
Qed.

(** A vertex leaves the queue and its neighbours are to be scanned. *)
Lemma Comp_dequeue P B U v Q cur us :
  Comp E P B U (v :: Q) cur [] ->
  (forall b, E v b -> In b us) ->
  Comp E P B U Q v us.
Proof.
  intros HC Hus a b Hab Ha.
  assert (Ht : forall x y, E x y -> pending (v :: Q) cur [] x y ->
                           pending Q v us x y).
  { intros x y Hxy [[<-|Hq]|[_ []]].
    - right. auto.
    - left. exact Hq. }
  destruct (HC a b Hab Ha) as [H|[[Hb [Hs|H]]|Hi]].
  - left. apply Ht; auto.
  - right. left. auto.
  - right. left. split; [exact Hb|]. right. apply Ht; auto.
  - right. right. exact Hi.
Qed.

(** The tree grows: vertices become outer and are enqueued, blossoms
    merge, parents are assigned. *)
Lemma Comp_mono P B U Q P' B' U' Q' cur rest :
  Comp E P B U Q cur rest ->
  (forall z, U z = true -> U' z = true) ->
  (forall z, U' z = true -> U z = true \/ In z Q') ->
  (forall z, In z Q -> In z Q') ->
  (forall a b, B a = B b -> B' a = B' b) ->
  (forall z, U' z = false -> P z <> -1 -> P' z <> -1) ->
  Comp E P' B' U' Q' cur rest.
Proof.
  intros HC HU Hnew HQ HB HP a b Hab Ha'.
  assert (Ht : forall x y, pending Q cur rest x y -> pending Q' cur rest x y).
  { intros x y [H|H]; [left; auto|right; exact H]. }
  destruct (Hnew a Ha') as [Ha|Hq]; [|left; left; exact Hq].
  destruct (HC a b Hab Ha) as [H|[[Hb [Hs|H]]|[Hb Hp]]].
  - left. auto.
  - right. left. auto.
  - right. left. auto.
  - destruct (U' b) eqn:Hb'.
    + destruct (Hnew b Hb') as [H|H]; [congruence|].
      right. left. split; [reflexivity|]. right. left. exact H.
    + right. right. auto.
Qed.

(** At the start only the root is outer and it waits in the queue. *)
Lemma Comp_init P B U r cur :
  (forall z, U z = true -> z = r) -> Comp E P B U [r] cur [].
Proof.
  intros HU a b _ Ha. left. left. left. symmetry. apply HU. exact Ha.
Qed.

End CompSteps.

(** ** The two ends of a contracted edge share their blossom *)

Section ContractedEnds.

Variable E : Z -> Z -> Prop.
Variable M : Z -> Z.
Variable r : Z.
Variables P B : Z -> Z.
Variable U : Z -> bool.
Variable c : Z.
Variables P' B' : Z -> Z.
Variable U' : Z -> bool.
Variables v u : Z.
Variables A Cv A' Cu : list Z.
Variables dv du : Z.
Hypothesis HF : Fork E M r P B U c v u A Cv A' Cu dv du.
Hypothesis HC : Contracted P B U c P' B' U' v u A A'.

Lemma contracted_base z : B z = c -> B' z = c.
Proof.
  intros Hz.
  pose proof HC as [ct_P ct_L ct_L' ct_Bc ct_Bn ct_U].
  destruct (in_dec Z.eq_dec (B z) (map B A)) as [H1|H1];
    [apply ct_Bc; auto|].
  destruct (in_dec Z.eq_dec (B z) (map B A')) as [H2|H2];
    [apply ct_Bc; auto|].
  rewrite ct_Bn; auto.
Qed.

Lemma contracted_ends : B' v = c /\ B' u = c.
Proof.
  pose proof HF as [fk_v fk_u fk_E fk_A fk_Cv fk_ndv fk_A' fk_Cu fk_ndu
                       fk_dv fk_du fk_ne fk_ne' fk_sep].
  pose proof HC as [ct_P ct_L ct_L' ct_Bc ct_Bn ct_U].
  split.
  - pose proof (Walk_head M P v A dv fk_A) as Hin.
    apply in_app_or in Hin. destruct Hin as [Hin|[Heq|[]]].
    + apply ct_Bc. left. apply in_map. exact Hin.
    + apply contracted_base. rewrite <- Heq. exact fk_dv.
  - pose proof (Walk_head M P u A' du fk_A') as Hin.
    apply in_app_or in Hin. destruct Hin as [Hin|[Heq|[]]].
    + apply ct_Bc. right. apply in_map. exact Hin.
    + apply contracted_base. rewrite <- Heq. exact fk_du.
Qed.

Lemma contracted_merge a b : B a = B b -> B' a = B' b.
Proof.
  intros Hab.
  pose proof HC as [ct_P ct_L ct_L' ct_Bc ct_Bn ct_U].
  destruct (in_dec Z.eq_dec (B a) (map B A)) as [H1|H1].
  { rewrite (ct_Bc a), (ct_Bc b); auto. rewrite <- Hab. auto. }
  destruct (in_dec Z.eq_dec (B a) (map B A')) as [H2|H2].
  { rewrite (ct_Bc a), (ct_Bc b); auto. rewrite <- Hab. auto. }
  rewrite (ct_Bn a), (ct_Bn b); auto; rewrite <- Hab; auto.
Qed.

End ContractedEnds.

(** ** Reading and writing the arrays inside their bounds *)

Lemma in_range_spec {A : Type} (l : list A) (i : Z) :
  in_range l i = true <-> 0 <= i < Z.of_nat (length l).
Proof.
  unfold in_range. rewrite andb_true_iff, Z.leb_le, Z.ltb_lt. tauto.
Qed.

Lemma py_index_ok {A : Type} (l : list A) (i : Z) :
  in_range l i = true -> py_index l i = Some (Z.to_nat i).
Proof.
  unfold in_range, py_index. intros H. simpl. rewrite H. reflexivity.
Qed.

Lemma py_get_nth {A : Type} (l : list A) (i : Z) (d : A) :
  in_range l i = true -> py_get l i = Ok (nth (Z.to_nat i) l d).
Proof.
  intros H. unfold py_get. rewrite (py_index_ok l i H).
  apply in_range_spec in H.
  destruct (nth_error l (Z.to_nat i)) as [x|] eqn:Hn.
  - rewrite (nth_error_nth _ _ d Hn). reflexivity.
  - apply nth_error_None in Hn. lia.
Qed.

Lemma py_get_z (l : list Z) (d : Z) (i : Z) :
  in_range l i = true -> py_get l i = Ok (zview l d i).
Proof.
  intros H. unfold zview. rewrite H. apply py_get_nth. exact H.
Qed.

Lemma py_get_b (l : list bool) (i : Z) :
  in_range l i = true -> py_get l i = Ok (bview l i).
Proof.
  intros H. unfold bview. rewrite H. apply py_get_nth. exact H.
Qed.

Lemma py_set_ok {A : Type} (l : list A) (i : Z) (x : A) :
  in_range l i = true -> py_set l i x = Ok (list_set l (Z.to_nat i) x).
Proof.
  intros H. unfold py_set. rewrite (py_index_ok l i H). reflexivity.
Qed.

Lemma list_set_length {A : Type} (l : list A) : forall k x,
  length (list_set l k x) = length l.
Proof.
  induction l as [|h t IH]; intros [|k] x; simpl; auto.
Qed.

Lemma nth_list_set {A : Type} (l : list A) : forall k x j d,
  (k < length l)%nat ->
  nth j (list_set l k x) d = if Nat.eqb j k then x else nth j l d.
Proof.
  induction l as [|h t IH]; intros [|k] x [|j] d Hk; simpl in *; try lia; auto.
  apply IH. lia.
Qed.

Lemma in_range_set {A : Type} (l : list A) k x i :
  in_range (list_set l k x) i = in_range l i.
Proof.
  unfold in_range. rewrite list_set_length. reflexivity.
Qed.

Lemma zview_set (l : list Z) (k : Z) (x d i : Z) :
  in_range l k = true ->
  zview (list_set l (Z.to_nat k) x) d i = if i =? k then x else zview l d i.
Proof.
  intros Hk. unfold zview. rewrite in_range_set.
  apply in_range_spec in Hk.
  destruct (in_range l i) eqn:Hi.
  - apply in_range_spec in Hi. rewrite nth_list_set by lia.
    destruct (Z.eqb_spec i k) as [->|Hne].
    + rewrite Nat.eqb_refl. reflexivity.
    + destruct (Nat.eqb_spec (Z.to_nat i) (Z.to_nat k)); auto. lia.
  - destruct (Z.eqb_spec i k) as [->|Hne]; auto.
    apply in_range_spec in Hk. congruence.
Qed.

Lemma bview_set (l : list bool) (k : Z) (x : bool) (i : Z) :
  in_range l k = true ->
  bview (list_set l (Z.to_nat k) x) i = if i =? k then x else bview l i.
Proof.
  intros Hk. unfold bview. rewrite in_range_set.
  apply in_range_spec in Hk.
  destruct (in_range l i) eqn:Hi.
  - apply in_range_spec in Hi. rewrite nth_list_set by lia.
    destruct (Z.eqb_spec i k) as [->|Hne].
    + rewrite Nat.eqb_refl. reflexivity.
    + destruct (Nat.eqb_spec (Z.to_nat i) (Z.to_nat k)); auto. lia.
  - destruct (Z.eqb_spec i k) as [->|Hne]; auto.
    apply in_range_spec in Hk. congruence.
Qed.

(** The base array with [i] outside its bounds reads [i]. *)
Lemma zview_set_self (l : list Z) (k x i : Z) :
  in_range l k = true ->
  zview (list_set l (Z.to_nat k) x) i i = if i =? k then x else zview l i i.
Proof.
  apply zview_set.
Qed.

Lemma zview_repeat (x : Z) (k : nat) (i : Z) :
  zview (repeat x k) x i = x.
Proof.
  unfold zview. destruct (in_range (repeat x k) i); auto.
  destruct (nth_in_or_default (Z.to_nat i) (repeat x k) x) as [H|H]; auto.
  apply repeat_spec in H. exact H.
Qed.

Lemma bview_repeat (k : nat) (i : Z) : bview (repeat false k) i = false.
Proof.
  unfold bview. destruct (in_range (repeat false k) i); auto.
  destruct (nth_in_or_default (Z.to_nat i) (repeat false k) false) as [H|H]; auto.
  apply repeat_spec in H. exact H.
Qed.

Lemma range_length (k : nat) : length (range k) = k.
Proof.
  unfold range. rewrite length_map, length_seq. reflexivity.
Qed.

Lemma zview_range (k : nat) (i : Z) : zview (range k) i i = i.
Proof.
  unfold zview. destruct (in_range (range k) i) eqn:Hi; auto.
  apply in_range_spec in Hi. rewrite range_length in Hi.
  unfold range. rewrite nth_indep with (d' := Z.of_nat 0%nat)
    by (rewrite length_map, length_seq; lia).
  rewrite map_nth, seq_nth by lia. lia.
Qed.

Lemma In_range (k : nat) (i : Z) : In i (range k) <-> 0 <= i < Z.of_nat k.
Proof.
  unfold range. rewrite in_map_iff. split.
  - intros (j & <- & Hj). apply in_seq in Hj. lia.
  - intros Hi. exists (Z.to_nat i). split; [lia|]. apply in_seq. lia.
Qed.

Lemma range_NoDup (k : nat) : NoDup (range k).
Proof.
  unfold range. generalize (seq_NoDup k 0).
  induction 1 as [|x l Hx Hnd IH]; simpl; constructor; auto.
  rewrite in_map_iff. intros (y & Hy & Hin).
  apply Nat2Z.inj in Hy. subst y. exact (Hx Hin).
Qed.

(** [for i in range(n): base[i] = i] *)
Lemma reset_base_ok : forall (ixs b : list Z),
  (forall i, In i ixs -> 0 <= i < Z.of_nat (length b)) ->
  exists b',
    reset_base ixs b = Ok b' /\ length b' = length b /\
    forall z, (In z ixs -> zview b' z z = z) /\
              (~ In z ixs -> zview b' z z = zview b z z).
Proof.
  induction ixs as [|i ixs IH]; intros b Hix.
  - exists b. cbn. repeat split; auto. intros [].
  - assert (Hin : in_range b i = true).
    { apply in_range_spec. apply Hix. simpl. auto. }
    cbn [reset_base]. rewrite (py_set_ok b i i Hin). cbn [bind].
    destruct (IH (list_set b (Z.to_nat i) i)) as (b' & Hrun & Hlen & Hv).
    { intros j Hj. rewrite list_set_length. apply Hix. simpl. auto. }
    exists b'. split; [exact Hrun|].
    split; [rewrite Hlen; apply list_set_length|].
    intros z. split.
    + intros [<-|Hz].
      * destruct (in_dec Z.eq_dec i ixs) as [Hi|Hi].
        -- apply Hv. exact Hi.
        -- rewrite (proj2 (Hv i) Hi), (zview_set_self b i i i Hin).
           rewrite Z.eqb_refl. reflexivity.
      * apply Hv. exact Hz.
    + intros Hz. rewrite (proj2 (Hv z)) by (intros H; apply Hz; simpl; auto).
      rewrite (zview_set_self b i i z Hin).
      destruct (Z.eqb_spec z i) as [->|_]; auto.
      exfalso. apply Hz. simpl. auto.
Qed.

(** ** Counting matched and unused vertices *)

Lemma matched_set (m : list Z) : forall (k : nat) (x : Z),
  (k < length m)%nat ->
  matched (list_set m k x) =
  matched m - (if nth k m (-1) =? -1 then 0 else 1)
            + (if x =? -1 then 0 else 1).
Proof.
  unfold matched.
  induction m as [|h t IH]; intros [|k] x Hk; cbn [length] in Hk; try lia;
    cbn [list_set filter nth].
  - destruct (h =? -1), (x =? -1); cbn [negb length]; lia.
  - specialize (IH k x ltac:(lia)).
    destruct (h =? -1); cbn [negb length]; lia.
Qed.

Lemma unused_set (l : list bool) : forall (k : nat),
  (k < length l)%nat -> nth k l false = false ->
  (unused (list_set l k true) + 1 = unused l)%nat.
Proof.
  unfold unused.
  induction l as [|h t IH]; intros [|k] Hk Hn; cbn [length] in Hk; try lia;
    cbn [list_set filter nth] in *.
  - subst h. cbn [negb length]. lia.
  - specialize (IH k ltac:(lia) Hn). destruct h; cbn [negb length]; lia.
Qed.

Lemma unused_repeat (k : nat) : unused (repeat false k) = k.
Proof.
  unfold unused. induction k as [|k IH]; simpl; auto.
Qed.

Lemma matched_repeat (k : nat) : matched (repeat (-1) k) = 0.
Proof.
  unfold matched. induction k as [|k IH]; simpl; auto.
Qed.

(** ** Augmenting paths stay away from a tree that cannot grow *)

Section Avoid.

Variable E : Z -> Z -> Prop.
Variable M : Z -> Z.
Hypothesis E_sym : forall u v, E u v -> E v u.
Hypothesis M_ok :
  forall x, M x <> -1 -> M (M x) = x /\ M x <> x /\ x <> -1.
Variables O I : Z -> bool.
Variable B : Z -> Z.
Hypothesis HH : Hung E M O I B.

(** Once a path is at an outer vertex whose base lies behind it, it can
    only move inside the blossom or down the tree, and never reaches a
    free vertex. *)
Lemma hung_stuck a l :
  Alt E M a l -> NoDup (a :: l) -> O a = true -> ~ In (B a) l -> False.
Proof.
  induction 1 as [a b Hab Hb|a b l Hab Hb HA IH]; intros Hnd Ha Hbase.
  - destruct (hg_edge E M O I B HH a b Ha Hab) as [Hi|[Ho Hbb]].
    + destruct (hg_inner E M O I B HH b Hi) as [Hm _]. congruence.
    + apply Hbase. left. rewrite <- Hbb.
      symmetry. apply (hg_free E M O I B HH b Ho Hb).
  - apply NoDup_cons_iff in Hnd. destruct Hnd as [_ Hnd].
    apply NoDup_cons_iff in Hnd. destruct Hnd as [_ Hnd].
    pose proof Hnd as Hnd'.
    apply NoDup_cons_iff in Hnd'. destruct Hnd' as [Hml _].
    destruct (hg_edge E M O I B HH a b Ha Hab) as [Hi|[Ho Hbb]].
    + destruct (hg_inner E M O I B HH b Hi) as (_ & Ho & Hbm).
      apply IH; auto. rewrite Hbm. exact Hml.
    + assert (Hne : B b <> b).
      { intros Heq. apply Hbase. left. congruence. }
      destruct (hg_blossom E M O I B HH b Ho Hne) as (_ & Hom & Hbm).
      apply IH; auto. rewrite Hbm, Hbb.
      intros Hin. apply Hbase. right. right. exact Hin.
Qed.

Lemma hung_outside_step a b :
  E a b -> O a = false -> I a = false -> O b = false.
Proof.
  intros Hab Ha Hia. destruct (O b) eqn:Hb; auto.
  destruct (hg_edge E M O I B HH b a Hb (E_sym _ _ Hab)) as [Hi|[Ho _]];
    congruence.
Qed.

Lemma hung_avoid_rest a l :
  Alt E M a l -> NoDup (a :: l) -> O a = false -> I a = false ->
  forall z, In z l -> O z = false /\ I z = false.
Proof.
  induction 1 as [a b Hab Hb|a b l Hab Hb HA IH]; intros Hnd Ha Hia z Hz.
  - destruct Hz as [<-|[]]. split.
    + apply (hung_outside_step a b); auto.
    + destruct (I b) eqn:Hi; auto.
      destruct (hg_inner E M O I B HH b Hi) as [Hm _]. congruence.
  - apply NoDup_cons_iff in Hnd. destruct Hnd as [_ Hnd].
    apply NoDup_cons_iff in Hnd. destruct Hnd as [_ Hnd].
    pose proof Hnd as Hnd'.
    apply NoDup_cons_iff in Hnd'. destruct Hnd' as [Hml _].
    destruct (M_ok b Hb) as (Hmm & _ & Hb1).
    assert (Hob : O b = false) by (apply (hung_outside_step a b); auto).
    assert (Hib : I b = false).
    { destruct (I b) eqn:Hi; auto. exfalso.
      destruct (hg_inner E M O I B HH b Hi) as (_ & Ho & Hbm).
      apply (hung_stuck (M b) l); auto. rewrite Hbm. exact Hml. }
    assert (Hoc : O (M b) = false).
    { destruct (O (M b)) eqn:Ho; auto. exfalso.
      destruct (Z.eq_dec (B (M b)) (M b)) as [Heq|Hne].
      - assert (Hm2 : M (M b) <> -1) by (rewrite Hmm; exact Hb1).
        pose proof (hg_base E M O I B HH (M b) Ho Heq Hm2) as Hi.
        rewrite Hmm in Hi. congruence.
      - destruct (hg_blossom E M O I B HH (M b) Ho Hne) as (_ & Hom & _).
        rewrite Hmm in Hom. congruence. }
    assert (Hic : I (M b) = false).
    { destruct (I (M b)) eqn:Hi; auto. exfalso.
      destruct (hg_inner E M O I B HH (M b) Hi) as (_ & Ho & _).
      rewrite Hmm in Ho. congruence. }
    destruct Hz as [<-|[<-|Hz]]; auto.
Qed.

(** An augmenting path has no vertex in the tree. *)
Lemma hung_avoid a l :
  Aug E M a l -> forall z, In z (a :: l) -> O z = false /\ I z = false.
Proof.
  intros (Hfree & HA & Hnd).
  assert (Ha : O a = false).
  { destruct (O a) eqn:Ho; auto. exfalso.
    apply (hung_stuck a l); auto.
    rewrite (hg_free E M O I B HH a Ho Hfree).
    apply NoDup_cons_iff in Hnd. apply Hnd. }
  assert (Hia : I a = false).
  { destruct (I a) eqn:Hi; auto.
    destruct (hg_inner E M O I B HH a Hi) as [Hm _]. congruence. }
  intros z [<-|Hz]; auto.
  apply (hung_avoid_rest a l); auto.
Qed.

(** The tree only depends on the mates of its own vertices. *)
Lemma Hung_agree M' :
  (forall z, O z = true \/ I z = true -> M' z = M z) -> Hung E M' O I B.
Proof.
  intros Hag. constructor.
  - apply (hg_edge E M O I B HH).
  - intros x Hx. rewrite (Hag x (or_intror Hx)).
    apply (hg_inner E M O I B HH x Hx).
  - intros a Ha Hne. rewrite (Hag a (or_introl Ha)).
    apply (hg_blossom E M O I B HH a Ha Hne).
  - intros a Ha Hf. rewrite (Hag a (or_introl Ha)) in Hf.
    apply (hg_free E M O I B HH a Ha Hf).
  - intros a Ha Hb. rewrite (Hag a (or_introl Ha)).
    apply (hg_base E M O I B HH a Ha Hb).
Qed.

End Avoid.

(** ** Counting through a relation that is one to one *)

Lemma inj_count (R : Z -> Z -> Prop) :
  (forall x x' y, R x y -> R x' y -> x = x') ->
  forall l l', NoDup l ->
    (forall x, In x l -> exists y, In y l' /\ R x y) ->
    (length l <= length l')%nat.
Proof.
  intros Hinj. induction l as [|x l IH]; intros l' Hnd Hex; [simpl; lia|].
  apply NoDup_cons_iff in Hnd. destruct Hnd as [Hx Hnd].
  destruct (Hex x (or_introl eq_refl)) as (y & Hy & Hxy).
  destruct (in_split y l' Hy) as (l1 & l2 & ->).
  assert (H : (length l <= length (l1 ++ l2))%nat).
  { apply IH; auto. intros x' Hx'.
    destruct (Hex x' (or_intror Hx')) as (y' & Hy' & Hxy').
    exists y'. split; [|exact Hxy'].
    apply in_app_or in Hy'. apply in_or_app.
    destruct Hy' as [H|[H|H]]; auto.
    exfalso. subst y'. apply Hx.
    rewrite (Hinj x x' y Hxy Hxy'). exact Hx'. }
  rewrite length_app in *. simpl. lia.
Qed.

Lemma NoDup_bounded (k : nat) (l : list Z) :
  NoDup l -> (forall x, In x l -> 0 <= x < Z.of_nat k) ->
  (length l <= k)%nat.
Proof.
  intros Hnd Hin. rewrite <- (range_length k).
  apply NoDup_incl_length; auto.
  intros x Hx. apply In_range. auto.
Qed.

(** ** Two matchings of one graph *)

Section Compare.

Variable k : nat.
Variable E : Z -> Z -> Prop.
Variables M M2 : Z -> Z.
Hypothesis E_sym : forall u v, E u v -> E v u.
Hypothesis M_ok :
  forall x, M x <> -1 -> M (M x) = x /\ M x <> x /\ x <> -1.
Hypothesis M2_ok :
  forall x, M2 x <> -1 -> M2 (M2 x) = x /\ M2 x <> x /\ x <> -1.
Hypothesis M_V : forall x, M x <> -1 -> 0 <= x < Z.of_nat k.
Hypothesis M2_V : forall x, M2 x <> -1 -> 0 <= x < Z.of_nat k.
Hypothesis M2_E : forall x, M2 x <> -1 -> E x (M2 x).
Hypothesis Hcert : certified E M (Z.of_nat k).

Let side (t : nat) : Z -> Z := if Nat.even t then M2 else M.

Let z (r : Z) (t : nat) : Z := alt_seq M M2 r t.

Lemma alt_seq_S r t : z r (S t) = side t (z r t).
Proof.
  unfold z, side. cbn [alt_seq]. destruct (Nat.even t); reflexivity.
Qed.

Lemma side_ok t x : side t x <> -1 -> side t (side t x) = x /\ side t x <> x /\ x <> -1.
Proof.
  unfold side. destruct (Nat.even t); auto.
Qed.

Lemma side_V t x : side t x <> -1 -> 0 <= x < Z.of_nat k.
Proof.
  unfold side. destruct (Nat.even t); auto.
Qed.

Lemma side_inj t x y : side t x = side t y -> side t x <> -1 -> x = y.
Proof.
  intros Heq Hx.
  destruct (side_ok t x Hx) as [H1 _].
  rewrite Heq in Hx. destruct (side_ok t y Hx) as [H2 _].
  rewrite <- H1, <- H2, Heq. reflexivity.
Qed.

Lemma side_shift t e : side (t + 2 * e) = side t.
Proof.
  unfold side. rewrite Nat.even_add_mul_2. reflexivity.
Qed.

Lemma alt_seq_pred r t : z r (S t) <> -1 -> z r t <> -1.
Proof.
  rewrite alt_seq_S. intros H. apply (side_ok t _ H).
Qed.

Lemma alt_seq_prefix r s d : z r (s + d) <> -1 -> z r s <> -1.
Proof.
  induction d as [|d IH]; intros H.
  - rewrite Nat.add_0_r in H. exact H.
  - rewrite Nat.add_succ_r in H. apply IH. apply alt_seq_pred. exact H.
Qed.

Lemma alt_seq_range r t :
  0 <= r < Z.of_nat k -> z r t <> -1 -> 0 <= z r t < Z.of_nat k.
Proof.
  intros Hr. destruct t as [|t]; [intros _; exact Hr|].
  rewrite alt_seq_S. intros H.
  destruct (side_ok t _ H) as (H1 & _ & H2).
  apply (side_V t). rewrite H1. exact H2.
Qed.

(** After an even, positive number of steps the vertex has a mate
    in [M]. *)
Lemma alt_seq_even_matched r e :
  z r (2 * S e) <> -1 -> M (z r (2 * S e)) <> -1.
Proof.
  replace (2 * S e)%nat with (S (S (2 * e))) by lia.
  rewrite alt_seq_S.
  assert (Hf : side (S (2 * e)) = M).
  { unfold side. rewrite Nat.even_succ.
    replace (Nat.odd (2 * e)) with false; [reflexivity|].
    symmetry. rewrite <- Nat.negb_even.
    replace (2 * e)%nat with (0 + 2 * e)%nat by lia.
    rewrite Nat.even_add_mul_2. reflexivity. }
  rewrite Hf. intros H. destruct (M_ok _ H) as (H1 & _ & H2).
  rewrite H1. exact H2.
Qed.

Lemma alt_seq_same_parity r e :
  M r = -1 ->
  forall s, z r (s + 2 * S e) <> -1 -> z r (s + 2 * S e) <> z r s.
Proof.
  intros Hfree. induction s as [|s IH]; intros Hn Heq.
  - cbn [Nat.add] in Hn, Heq.
    apply (alt_seq_even_matched r e Hn). rewrite Heq. exact Hfree.
  - cbn [Nat.add] in Hn, Heq. rewrite !alt_seq_S, side_shift in Heq.
    rewrite alt_seq_S, side_shift in Hn.
    apply IH.
    + apply (side_ok s _ Hn).
    + apply (side_inj s); auto.
Qed.

Lemma alt_seq_diff_parity r :
  forall e s, z r (s + S (2 * e)) <> -1 -> z r (s + S (2 * e)) <> z r s.
Proof.
  induction e as [|e IH]; intros s Hn Heq.
  - replace (s + S (2 * 0))%nat with (S s) in * by lia.
    rewrite alt_seq_S in Hn, Heq.
    destruct (side_ok s _ Hn) as (_ & H & _). congruence.
  - replace (s + S (2 * S e))%nat with (S (S s + S (2 * e))) in * by lia.
    rewrite alt_seq_S in Hn, Heq.
    replace (S s + S (2 * e))%nat with (s + 2 * (S e))%nat in Hn, Heq by lia.
    rewrite side_shift in Hn, Heq.
    destruct (side_ok s _ Hn) as (H1 & _ & H2).
    assert (Hidx : (S s + S (2 * e) = s + 2 * S e)%nat) by lia.
    apply (IH (S s)); rewrite Hidx; [exact H2|].
    rewrite (alt_seq_S r s), <- Heq. symmetry. exact H1.
Qed.

Lemma alt_seq_inj r s t :
  M r = -1 -> (s < t)%nat -> z r t <> -1 -> z r s <> z r t.
Proof.
  intros Hfree Hlt Hn Heq.
  destruct (Nat.Even_or_Odd (t - s)) as [[e He]|[e He]].
  - destruct e as [|e]; [lia|].
    replace t with (s + 2 * S e)%nat in * by lia.
    apply (alt_seq_same_parity r e Hfree s); auto.
  - replace t with (s + S (2 * e))%nat in * by lia.
    apply (alt_seq_diff_parity r e s); auto.
Qed.

Lemma alt_seq_NoDup r L :
  M r = -1 -> z r L <> -1 -> NoDup (map (z r) (seq 0 (S L))).
Proof.
  intros Hfree Hn.
  assert (H : forall j, (j <= S L)%nat -> NoDup (map (z r) (seq 0 j))).
  { induction j as [|j IH]; intros Hj; [constructor|].
    rewrite seq_S, map_app. cbn [map Nat.add].
    apply NoDup_app.
    - apply IH. lia.
    - constructor; [intros []|constructor].
    - intros x Hx [Hy|[]]. subst x.
      apply in_map_iff in Hx. destruct Hx as (s & Hs & Hin).
      apply in_seq in Hin.
      apply (alt_seq_inj r s j Hfree); [lia| |exact Hs].
      apply (alt_seq_prefix r j (L - j)).
      replace (j + (L - j))%nat with L by lia. exact Hn. }
  apply H. lia.
Qed.

(** The sequence leaves the graph within [k] steps. *)
Lemma alt_seq_stops r :
  0 <= r < Z.of_nat k -> M r = -1 -> z r k = -1.
Proof.
  intros Hr Hfree. destruct (Z.eq_dec (z r k) (-1)) as [|Hn]; auto.
  exfalso.
  pose proof (alt_seq_NoDup r k Hfree Hn) as Hnd.
  apply (NoDup_bounded k) in Hnd.
  - rewrite length_map, length_seq in Hnd. lia.
  - intros x Hx. apply in_map_iff in Hx. destruct Hx as (s & <- & Hin).
    apply in_seq in Hin. apply alt_seq_range; auto.
    apply (alt_seq_prefix r s (k - s)).
    replace (s + (k - s))%nat with k by lia. exact Hn.
Qed.

Lemma alt_seq_last r :
  z r 0 <> -1 ->
  forall j, z r j = -1 ->
    exists L, (L < j)%nat /\ z r L <> -1 /\ z r (S L) = -1.
Proof.
  intros H0. induction j as [|j IH]; intros Hj; [congruence|].
  destruct (Z.eq_dec (z r j) (-1)) as [Heq|Hn].
  - destruct (IH Heq) as (L & HL & H1 & H2). exists L. repeat split; auto.
  - exists j. repeat split; auto.
Qed.

Lemma side_even t : Nat.even t = true -> side t = M2 /\ side (S t) = M.
Proof.
  intros Ht. unfold side. rewrite Nat.even_succ, <- Nat.negb_even, Ht.
  auto.
Qed.

(** A sequence that stops at a vertex free in [M] is an augmenting
    path. *)
Lemma alt_seq_alt r :
  forall e t, Nat.even t = true ->
    z r (t + S (2 * e)) <> -1 -> M (z r (t + S (2 * e))) = -1 ->
    Alt E M (z r t) (map (z r) (seq (S t) (S (2 * e)))).
Proof.
  induction e as [|e IH]; intros t Ht Hn Hend.
  - replace (t + S (2 * 0))%nat with (S t) in * by lia.
    cbn [seq map Nat.mul].
    apply Alt_end; [|exact Hend].
    rewrite alt_seq_S in Hn |- *.
    rewrite (proj1 (side_even t Ht)) in Hn |- *. apply M2_E. exact Hn.
  - replace (S (2 * S e)) with (S (S (S (2 * e)))) by lia.
    cbn [seq map].
    replace (t + S (2 * S e))%nat with (S (S t) + S (2 * e))%nat in * by lia.
    assert (Hn2 : z r (S (S t)) <> -1)
      by (apply (alt_seq_prefix r _ _ Hn)).
    assert (Hn1 : z r (S t) <> -1) by (apply alt_seq_pred; exact Hn2).
    assert (H2 : z r (S (S t)) = M (z r (S t))).
    { rewrite (alt_seq_S r (S t)), (proj2 (side_even t Ht)). reflexivity. }
    rewrite H2. apply Alt_step.
    + rewrite alt_seq_S in Hn1 |- *.
      rewrite (proj1 (side_even t Ht)) in Hn1 |- *. apply M2_E. exact Hn1.
    + rewrite <- H2. exact Hn2.
    + rewrite <- H2. apply IH; auto.
Qed.

(** From a vertex free in [M], the sequence ends at a vertex free in
    [M2]. *)
Lemma alt_seq_end r :
  0 <= r < Z.of_nat k -> M r = -1 ->
  exists L,
    Nat.even L = true /\ z r L <> -1 /\ M2 (z r L) = -1.
Proof.
  intros Hr Hfree.
  assert (H0 : z r 0 <> -1) by (cbn; lia).
  destruct (alt_seq_last r H0 k (alt_seq_stops r Hr Hfree))
    as (L & HL & Hn & Hend).
  exists L. destruct (Nat.even L) eqn:Hev.
  - split; [reflexivity|]. split; [exact Hn|].
    rewrite alt_seq_S, (proj1 (side_even L Hev)) in Hend. exact Hend.
  - exfalso.
    destruct (Nat.Even_or_Odd L) as [[e He]|[e He]].
    { rewrite He in Hev. replace (2 * e)%nat with (0 + 2 * e)%nat in Hev by lia.
      rewrite Nat.even_add_mul_2 in Hev. discriminate. }
    assert (HLe : L = (0 + S (2 * e))%nat) by lia.
    assert (Hm : M (z r L) = -1).
    { rewrite alt_seq_S in Hend. unfold side in Hend. rewrite Hev in Hend.
      exact Hend. }
    assert (HA : Aug E M r (map (z r) (seq 1 L))).
    { split; [exact Hfree|]. split.
      - rewrite HLe in Hn, Hm. rewrite HLe.
        apply (alt_seq_alt r e 0%nat eq_refl Hn Hm).
      - apply (alt_seq_NoDup r L Hfree Hn). }
    destruct (Hcert r Hr Hfree) as (O & I & B & HH & Hor).
    destruct (hung_avoid E M E_sym M_ok O I B HH r _ HA r (or_introl eq_refl))
      as [Ho _].
    congruence.
Qed.

(** Two sequences that meet started at the same vertex. *)
Lemma alt_seq_back r r' e :
  forall L, z r L = z r' (L + 2 * e) -> z r L <> -1 -> r = z r' (2 * e).
Proof.
  induction L as [|L IH]; intros Heq Hn.
  - exact Heq.
  - cbn [Nat.add] in Heq. rewrite !alt_seq_S, side_shift in Heq.
    rewrite alt_seq_S in Hn.
    apply IH.
    + apply (side_inj L); auto.
    + apply (side_ok L _ Hn).
Qed.

Lemma alt_seq_end_inj r r' L L' :
  M r = -1 -> M r' = -1 ->
  Nat.even L = true -> Nat.even L' = true ->
  z r L = z r' L' -> z r L <> -1 -> (L <= L')%nat -> r = r'.
Proof.
  intros Hf Hf' Hev Hev' Heq Hn Hle.
  assert (Hd : exists e, L' = (L + 2 * e)%nat).
  { destruct (Nat.Even_or_Odd (L' - L)) as [[e He]|[e He]].
    - exists e. lia.
    - exfalso. replace L' with (S (L + 2 * e)) in Hev' by lia.
      rewrite Nat.even_succ, <- Nat.negb_even, Nat.even_add_mul_2, Hev in Hev'.
      discriminate. }
  destruct Hd as (e & ->).
  pose proof (alt_seq_back r r' e L Heq Hn) as Hr.
  destruct e as [|e]; [exact Hr|].
  exfalso. apply (alt_seq_even_matched r' e).
  - rewrite <- Hr. change (z r 0 <> -1).
    apply (alt_seq_prefix r 0 L). exact Hn.
  - rewrite <- Hr. exact Hf.
Qed.

(** A matching whose free vertices are all certified leaves no more
    vertices free than any other matching. *)
Theorem certified_free_le :
  (length (filter (fun v => (M v =? -1)%Z) (range k)) <=
   length (filter (fun v => (M2 v =? -1)%Z) (range k)))%nat.
Proof.
  apply (inj_count
           (fun r y => M r = -1 /\ exists L,
                Nat.even L = true /\ z r L = y /\ y <> -1)).
  - intros x x' y (Hf & L & Hev & Heq & Hn) (Hf' & L' & Hev' & Heq' & _).
    destruct (Nat.le_ge_cases L L') as [Hle|Hle].
    + apply (alt_seq_end_inj x x' L L'); auto; congruence.
    + symmetry. apply (alt_seq_end_inj x' x L' L); auto; congruence.
  - apply NoDup_filter. apply range_NoDup.
  - intros r Hr. apply filter_In in Hr. destruct Hr as [Hr Hf].
    apply In_range in Hr. apply Z.eqb_eq in Hf.
    destruct (alt_seq_end r Hr Hf) as (L & Hev & Hn & Hend).
    exists (z r L). split.
    + apply filter_In. split.
      * apply In_range. apply alt_seq_range; auto.
      * apply Z.eqb_eq. exact Hend.
    + split; [exact Hf|]. exists L. auto.
Qed.

End Compare.

(** ** Matchings as functions *)

Lemma mate_range (m : list Z) (x : Z) :
  mate m x <> -1 -> 0 <= x < Z.of_nat (length m).
Proof.
  unfold mate, zview. destruct (in_range m x) eqn:H; [|congruence].
  intros _. apply in_range_spec. exact H.
Qed.

Lemma wf_matching_ok (adj : list (list Z)) (m : list Z) :
  wf_graph adj -> wf_matching adj m ->
  forall x, mate m x <> -1 ->
    mate m (mate m x) = x /\ mate m x <> x /\ x <> -1.
Proof.
  intros Hg [Hlen Hm] x Hx. destruct (Hm x Hx) as [He Hmm].
  repeat split; auto.
  - destruct (Hg _ _ He) as (_ & Hne & _). exact Hne.
  - apply mate_range in Hx. lia.
Qed.

Lemma wf_matching_V (adj : list (list Z)) (m : list Z) :
  wf_matching adj m ->
  forall x, mate m x <> -1 -> 0 <= x < Z.of_nat (length adj).
Proof.
  intros [Hlen Hm] x Hx. apply mate_range in Hx. rewrite <- Hlen. exact Hx.
Qed.

Lemma wf_graph_sym (adj : list (list Z)) :
  wf_graph adj -> forall u v, edge adj u v -> edge adj v u.
Proof.
  intros Hg u v He. apply (Hg u v He).
Qed.

(** ** The search, step by step *)

Section Search.

Variable strict : site -> bool.
Variable adj : list (list Z).
Hypothesis Hwf : wf_graph adj.
Variable m : list Z.
Hypothesis Hm : wf_matching adj m.
Variable root : Z.
Hypothesis Hroot : 0 <= root < Z.of_nat (length adj).
Hypothesis Hfree : mate m root = -1.

Let N : Z := Z.of_nat (length adj).
Let M : Z -> Z := mate m.
Let E : Z -> Z -> Prop := edge adj.

Let M_ok : forall x, M x <> -1 -> M (M x) = x /\ M x <> x /\ x <> -1 :=
  wf_matching_ok adj m Hwf Hm.
Let M_V : forall x, M x <> -1 -> 0 <= x < N := wf_matching_V adj m Hm.
Let E_sym : forall u v, E u v -> E v u := wf_graph_sym adj Hwf.

Lemma M_range x : M x <> -1 -> 0 <= M x < N.
Proof.
  intros Hx. apply M_V. destruct (M_ok x Hx) as (Hmm & _ & Hx1).
  rewrite Hmm. exact Hx1.
Qed.

Lemma walk_range P x L d :
  Walk M P x L d -> forall z, In z L -> 0 <= z < N.
Proof.
  intros H z Hz. apply M_V.
  apply (Walk_In_mate M M_ok P x L d z H Hz).
Qed.

(** A path of the tree, read from a neighbour of its first vertex. *)
Lemma Walk_Alt P x L :
  Walk M P x L root ->
  (forall y, P y <> -1 -> E (P y) y) ->
  forall a, E a x -> Alt E M a (L ++ [root]).
Proof.
  intros HW HP. induction HW as [x|x A d Hmx Hpx HW IH]; intros a Hax.
  - apply Alt_end; auto.
  - cbn [app]. apply Alt_step; auto.
Qed.

Lemma get_match_m st x :
  match_ st = m -> 0 <= x < N -> py_get (match_ st) x = Ok (M x).
Proof.
  intros Hst Hx. rewrite Hst. apply py_get_z. apply in_range_spec.
  rewrite (proj1 Hm). exact Hx.
Qed.

(** *** mark_path *)

Lemma mark_path_ok c P0 A v dv :
  Walk M P0 v A dv ->
  forall x st fuel,
    (forall z, In z (odds A) -> Pf st z = P0 z) ->
    NoDup A ->
    match_ st = m -> sized (length adj) st ->
    (forall z, 0 <= z < N -> 0 <= Bf st z < N) ->
    0 <= dv < N ->
    (forall y, In y (evens A) -> Bf st y <> c) -> Bf st dv = c ->
    (length A < 2 * fuel)%nat ->
    exists st',
      mark_path fuel st v c x = Ok st' /\
      match_ st' = m /\ base st' = base st /\ used st' = used st /\
      q st' = q st /\ sized (length adj) st' /\
      Linked (Pf st') x A /\
      (forall z, ~ In z (evens A) -> Pf st' z = Pf st z) /\
      (forall z, Lf st' z = true <-> Lf st z = true \/ In z (map (Bf st) A)).
Proof.
  induction 1 as [v|v A d Hmv Hpv HW IH];
    intros x st fuel Hag Hnd Hmt Hsz HB Hdv Hne Hc Hfuel.
  - destruct fuel as [|fuel]; [simpl in Hfuel; lia|].
    destruct Hsz as (Hs1 & Hs2 & Hs3 & Hs4 & Hs5).
    cbn [mark_path].
    rewrite (py_get_z (base st) v v)
      by (apply in_range_spec; rewrite Hs3; exact Hdv).
    cbn [bind]. fold (Bf st v). rewrite Hc, Z.eqb_refl.
    exists st. repeat split; auto.
    + apply Linked_nil.
    + intros [H|[]]; exact H.
  - destruct fuel as [|fuel]; [simpl in Hfuel; lia|].
    pose proof Hsz as (Hs1 & Hs2 & Hs3 & Hs4 & Hs5).
    destruct (M_ok v Hmv) as (Hmm & Hmne & Hv1).
    assert (Hvr : 0 <= v < N) by (apply M_V; exact Hmv).
    assert (Hmr : 0 <= M v < N) by (apply M_range; exact Hmv).
    pose proof (HB v Hvr) as Hbv. pose proof (HB (M v) Hmr) as Hbm.
    apply NoDup_cons_iff in Hnd. destruct Hnd as [Hv_notin Hnd1].
    apply NoDup_cons_iff in Hnd1. destruct Hnd1 as [Hm_notin Hnd2].
    cbn [mark_path].
    rewrite (py_get_z (base st) v v)
      by (apply in_range_spec; rewrite Hs3; exact Hvr).
    cbn [bind]. fold (Bf st v).
    destruct (Z.eqb_spec (Bf st v) c) as [Heq|_].
    { exfalso. apply (Hne v); simpl; auto. }
    assert (Hin1 : in_range (blossom st) (Bf st v) = true)
      by (apply in_range_spec; rewrite Hs5; exact Hbv).
    rewrite (py_set_ok _ _ true Hin1). cbn [bind].
    rewrite (get_match_m st v Hmt Hvr). cbn [bind].
    rewrite (py_get_z (base st) (M v) (M v))
      by (apply in_range_spec; rewrite Hs3; exact Hmr).
    cbn [bind]. fold (Bf st (M v)).
    assert (Hin2 : in_range (list_set (blossom st) (Z.to_nat (Bf st v)) true)
                            (Bf st (M v)) = true).
    { rewrite in_range_set. apply in_range_spec. rewrite Hs5. exact Hbm. }
    rewrite (py_set_ok _ _ true Hin2). cbn [bind].
    assert (Hin3 : in_range (p st) v = true)
      by (apply in_range_spec; rewrite Hs2; exact Hvr).
    rewrite (py_set_ok _ _ x Hin3). cbn [bind].
    assert (Hin4 : in_range (list_set (p st) (Z.to_nat v) x) (M v) = true).
    { rewrite in_range_set. apply in_range_spec. rewrite Hs2. exact Hmr. }
    rewrite (py_get_z _ (-1) _ Hin4). cbn [bind].
    rewrite (zview_set (p st) v x (-1) (M v) Hin3).
    destruct (Z.eqb_spec (M v) v) as [Heq|_]; [congruence|].
    fold (Pf st (M v)).
    assert (Hpm : Pf st (M v) = P0 (M v)) by (apply Hag; simpl; auto).
    rewrite Hpm.
    set (st1 := set_p (set_blossom st _) _).
    assert (HP1 : forall z, Pf st1 z = if z =? v then x else Pf st z).
    { intros z. unfold st1, Pf. cbn [p set_p].
      apply (zview_set (p st) v x (-1) z Hin3). }
    assert (HL1 : forall z, Lf st1 z = true <->
                    Lf st z = true \/ z = Bf st v \/ z = Bf st (M v)).
    { intros z. unfold st1, Lf. cbn [blossom set_p set_blossom].
      rewrite (bview_set _ _ true z Hin2).
      destruct (Z.eqb_spec z (Bf st (M v))) as [->|Hz1]; [tauto|].
      rewrite (bview_set _ _ true z Hin1).
      destruct (Z.eqb_spec z (Bf st v)) as [->|Hz2]; [tauto|].
      intuition congruence. }
    destruct (IH (M v) st1 fuel) as (st' & Hrun & H1 & H2 & H3 & H4 & H5 & H6 & H7 & H8).
    + intros z Hz. rewrite HP1.
      destruct (Z.eqb_spec z v) as [->|_].
      * exfalso. apply Hv_notin. right. apply odds_In. exact Hz.
      * apply Hag. simpl. auto.
    + exact Hnd2.
    + exact Hmt.
    + unfold st1, sized. cbn. rewrite !list_set_length. repeat split; auto.
    + exact HB.
    + exact Hdv.
    + intros y Hy. apply Hne. simpl. auto.
    + exact Hc.
    + simpl in Hfuel. lia.
    + exists st'.
      refine (conj Hrun (conj H1 (conj H2 (conj H3 (conj H4 (conj H5
                (conj _ (conj _ (fun z => conj _ _))))))))).
      * apply Linked_cons; auto. rewrite H7.
        -- rewrite HP1, Z.eqb_refl. reflexivity.
        -- intros Hin. apply Hv_notin. right. apply evens_In. exact Hin.
      * intros z Hz. rewrite H7.
        -- rewrite HP1. destruct (Z.eqb_spec z v) as [->|_]; auto.
           exfalso. apply Hz. simpl. auto.
        -- intros Hin. apply Hz. simpl. auto.
      * intros Hz. apply H8 in Hz. rewrite HL1 in Hz. simpl.
        assert (HB1 : map (Bf st1) A = map (Bf st) A) by reflexivity.
        rewrite HB1 in Hz. intuition auto.
      * intros Hz. apply H8. rewrite HL1. simpl in Hz.
        assert (HB1 : map (Bf st1) A = map (Bf st) A) by reflexivity.
        rewrite HB1. intuition auto.
Qed.

(** *** The contraction loop *)

Lemma contract_step c i ixs st :
  0 <= i < N -> 0 <= c < N ->
  sized (length adj) st ->
  (forall z, 0 <= z < N -> 0 <= Bf st z < N) ->
  exists st1,
    contract (i :: ixs) c st = contract ixs c st1 /\
    match_ st1 = match_ st /\ p st1 = p st /\ blossom st1 = blossom st /\
    sized (length adj) st1 /\
    (forall z, Bf st1 z =
               if (z =? i) && Lf st (Bf st i) then c else Bf st z) /\
    (forall z, Uf st1 z = Uf st z || ((z =? i) && Lf st (Bf st i))) /\
    (forall z, In z (q st1) ->
               In z (q st) \/ (z = i /\ Lf st (Bf st i) = true)) /\
    (forall z, In z (q st) \/ (Uf st z = false /\ Uf st1 z = true) ->
               In z (q st1)) /\
    measure st1 = measure st.
Proof.
  intros Hi Hcr Hsz HB.
  pose proof Hsz as (Hs1 & Hs2 & Hs3 & Hs4 & Hs5).
  pose proof (HB i Hi) as Hbi.
  assert (Hin1 : in_range (base st) i = true)
    by (apply in_range_spec; rewrite Hs3; exact Hi).
  assert (Hin2 : in_range (blossom st) (Bf st i) = true)
    by (apply in_range_spec; rewrite Hs5; exact Hbi).
  assert (Hin3 : in_range (used st) i = true)
    by (apply in_range_spec; rewrite Hs4; exact Hi).
  cbn [contract].
  rewrite (py_get_z (base st) i i Hin1). cbn [bind]. fold (Bf st i).
  rewrite (py_get_b (blossom st) _ Hin2). cbn [bind]. fold (Lf st (Bf st i)).
  destruct (Lf st (Bf st i)) eqn:Hmark.
  - rewrite (py_set_ok (base st) i c Hin1). cbn [bind].
    rewrite (py_get_b (used st) i Hin3). cbn [bind]. fold (Uf st i).
    destruct (Uf st i) eqn:Hui; cbn [negb].
    + eexists. split; [reflexivity|]. cbn.
      refine (conj eq_refl (conj eq_refl (conj eq_refl (conj _
               (conj _ (conj _ (conj _ (conj _ _)))))))).
      * unfold sized. cbn. rewrite list_set_length. repeat split; auto.
      * intros z. unfold Bf. cbn. rewrite (zview_set_self _ _ c z Hin1).
        rewrite andb_true_r. reflexivity.
      * intros z. unfold Uf. cbn. rewrite andb_true_r.
        destruct (Z.eqb_spec z i) as [->|_].
        -- fold (Uf st i). rewrite Hui. reflexivity.
        -- rewrite orb_false_r. reflexivity.
      * auto.
      * intros z [Hz|[Hz1 Hz2]]; [exact Hz|].
        unfold Uf in Hz1, Hz2. cbn in Hz2. congruence.
      * reflexivity.
    + rewrite (py_set_ok (used st) i true Hin3). cbn [bind].
      eexists. split; [reflexivity|]. cbn.
      refine (conj eq_refl (conj eq_refl (conj eq_refl (conj _
               (conj _ (conj _ (conj _ (conj _ _)))))))).
      * unfold sized. cbn. rewrite !list_set_length. repeat split; auto.
      * intros z. unfold Bf. cbn. rewrite (zview_set_self _ _ c z Hin1).
        rewrite andb_true_r. reflexivity.
      * intros z. unfold Uf. cbn. rewrite andb_true_r.
        rewrite (bview_set _ _ true z Hin3).
        destruct (Z.eqb_spec z i) as [->|_].
        -- rewrite orb_true_r. reflexivity.
        -- rewrite orb_false_r. reflexivity.
      * intros z Hz. apply in_app_or in Hz. destruct Hz as [Hz|[<-|[]]]; auto.
      * intros z [Hz|[Hz1 Hz2]]; apply in_or_app; [left; exact Hz|].
        right. left. unfold Uf in Hz1, Hz2. cbn in Hz2.
        rewrite (bview_set _ _ true z Hin3) in Hz2.
        destruct (Z.eqb_spec z i) as [->|_]; [reflexivity|congruence].
      * unfold measure. cbn. rewrite length_app. cbn.
        assert (Hn : nth (Z.to_nat i) (used st) false = false).
        { unfold Uf, bview in Hui. rewrite Hin3 in Hui. exact Hui. }
        apply in_range_spec in Hin3.
        pose proof (unused_set (used st) (Z.to_nat i) ltac:(lia) Hn) as Hun.
        unfold unused in *. lia.
  - exists st. split; [reflexivity|].
    refine (conj eq_refl (conj eq_refl (conj eq_refl (conj Hsz
             (conj _ (conj _ (conj _ (conj _ _)))))))).
    + intros z. rewrite andb_false_r. reflexivity.
    + intros z. rewrite andb_false_r, orb_false_r. reflexivity.
    + auto.
    + intros z [Hz|[Hz1 Hz2]]; [exact Hz|congruence].
    + reflexivity.
Qed.

Lemma contract_ok c : forall ixs st,
  NoDup ixs -> (forall i, In i ixs -> 0 <= i < N) -> 0 <= c < N ->
  sized (length adj) st ->
  (forall z, 0 <= z < N -> 0 <= Bf st z < N) ->
  exists st',
    contract ixs c st = Ok st' /\
    match_ st' = match_ st /\ p st' = p st /\ blossom st' = blossom st /\
    sized (length adj) st' /\
    (forall z, In z ixs -> Lf st (Bf st z) = true -> Bf st' z = c) /\
    (forall z, ~ (In z ixs /\ Lf st (Bf st z) = true) ->
               Bf st' z = Bf st z) /\
    (forall z, Uf st' z = true <->
               Uf st z = true \/ (In z ixs /\ Lf st (Bf st z) = true)) /\
    (forall z, In z (q st') ->
               In z (q st) \/ (In z ixs /\ Lf st (Bf st z) = true)) /\
    (forall z, In z (q st) \/ (Uf st z = false /\ Uf st' z = true) ->
               In z (q st')) /\
    measure st' = measure st.
Proof.
  induction ixs as [|i ixs IH]; intros st Hnd Hix Hcr Hsz HB.
  - exists st. cbn [contract].
    refine (conj eq_refl (conj eq_refl (conj eq_refl (conj eq_refl
             (conj Hsz (conj _ (conj _ (conj _ (conj _ (conj _ eq_refl)))))))))).
    + intros z [].
    + auto.
    + intros z. simpl. tauto.
    + auto.
    + intros z [Hz|[Hz1 Hz2]]; [exact Hz|congruence].
  - apply NoDup_cons_iff in Hnd. destruct Hnd as [Hi_notin Hnd].
    assert (Hi : 0 <= i < N) by (apply Hix; simpl; auto).
    destruct (contract_step c i ixs st Hi Hcr Hsz HB)
      as (st1 & Hrun1 & Hm1 & Hp1 & Hb1 & Hsz1 & HB1 & HU1 & HQ1 & HQ1' &
          Hms1).
    assert (HL1 : forall z, Lf st1 z = Lf st z).
    { intros z. unfold Lf. rewrite Hb1. reflexivity. }
    assert (HBne : forall z, z <> i -> Bf st1 z = Bf st z).
    { intros z Hz. rewrite HB1.
      destruct (Z.eqb_spec z i); [congruence|]. reflexivity. }
    destruct (IH st1 Hnd)
      as (st' & Hrun & Hm' & Hp' & Hb' & Hsz' & Ha & Hb & Hc & Hd & Hd' & He).
    { intros z Hz. apply Hix. simpl. auto. }
    { exact Hcr. }
    { exact Hsz1. }
    { intros z Hz. rewrite HB1.
      destruct ((z =? i) && Lf st (Bf st i)); auto. }
    assert (Hi_case : ~ (In i ixs /\ Lf st1 (Bf st1 i) = true)) by tauto.
    assert (Hin_ne : forall z, In z ixs -> z <> i) by (intros z Hz ->; auto).
    exists st'. rewrite Hrun1.
    refine (conj Hrun (conj _ (conj _ (conj _ (conj Hsz'
             (conj _ (conj _ (conj _ (conj _ (conj _ _)))))))))); try congruence.
    + intros z [<-|Hz] Hmk.
      * rewrite (Hb i Hi_case), HB1, Z.eqb_refl, Hmk. reflexivity.
      * apply Ha; auto. rewrite HL1, (HBne z (Hin_ne z Hz)). exact Hmk.
    + intros z Hz. destruct (Z.eq_dec z i) as [->|Hne].
      * rewrite (Hb i Hi_case), HB1, Z.eqb_refl.
        destruct (Lf st (Bf st i)) eqn:Hmk; auto.
        exfalso. apply Hz. simpl. auto.
      * rewrite Hb, (HBne z Hne); auto.
        rewrite HL1, (HBne z Hne). simpl in Hz. tauto.
    + intros z. rewrite Hc, HU1, orb_true_iff, andb_true_iff, Z.eqb_eq.
      rewrite HL1. simpl. split.
      * intros [[H|[-> H]]|[H1 H2]]; auto.
        right. split; auto. rewrite <- (HBne z (Hin_ne z H1)). exact H2.
      * intros [H|[[<-|H1] H2]]; auto.
        right. split; auto. rewrite (HBne z (Hin_ne z H1)). exact H2.
    + intros z Hz. apply Hd in Hz. simpl.
      destruct Hz as [Hz|[H1 H2]].
      * apply HQ1 in Hz. destruct Hz as [Hz|[-> Hz]]; auto.
      * right. split; auto.
        rewrite HL1, (HBne z (Hin_ne z H1)) in H2. exact H2.
    + intros z Hz. apply Hd'. destruct Hz as [Hz|[Hz1 Hz2]].
      * left. apply HQ1'. left. exact Hz.
      * destruct (Uf st1 z) eqn:Hz3.
        -- left. apply HQ1'. right. auto.
        -- right. auto.
Qed.

(** *** The augmentation flip *)

Lemma flip_done fuel st : flip strict fuel st (-1) = Ok st.
Proof.
  destruct fuel; reflexivity.
Qed.

Lemma flip_ok P0 L v :
  Walk M P0 v L root ->
  forall st curr fuel,
    sized (length adj) st ->
    Pf st curr = v -> (forall z, In z (odds L) -> Pf st z = P0 z) ->
    NoDup (curr :: L ++ [root]) ->
    0 <= curr < N ->
    (forall z, In z (L ++ [root]) -> Mf st z = M z) ->
    (length L < 2 * fuel)%nat ->
    exists m',
      flip strict fuel st curr = Ok (set_match st m') /\
      length m' = length adj /\
      (forall z, ~ In z (curr :: L ++ [root]) -> mate m' z = Mf st z) /\
      mate m' curr = v /\ mate m' v = curr /\
      (forall y, In y (odds L) -> mate m' y = P0 y /\ mate m' (P0 y) = y) /\
      matched m' =
      matched (match_ st) + (if Mf st curr =? -1 then 1 else 0) + 1.
Proof.
  induction 1 as [v|v L d Hmv Hpv HW IH];
    intros st curr fuel Hsz Hpc Hag Hnd Hcr HM Hfuel.
  - (* the parent of [curr] is the root *)
    destruct fuel as [|fuel]; [simpl in Hfuel; lia|].
    pose proof Hsz as (Hs1 & Hs2 & Hs3 & Hs4 & Hs5).
    apply NoDup_cons_iff in Hnd. destruct Hnd as [Hc_notin _].
    assert (Hcv : curr <> v) by (intros ->; apply Hc_notin; simpl; auto).
    assert (Hin1 : in_range (p st) curr = true)
      by (apply in_range_spec; rewrite Hs2; exact Hcr).
    assert (Hin2 : in_range (match_ st) v = true)
      by (apply in_range_spec; rewrite Hs1; exact Hroot).
    assert (Hin3 : in_range (match_ st) curr = true)
      by (apply in_range_spec; rewrite Hs1; exact Hcr).
    assert (Hin4 : in_range (list_set (match_ st) (Z.to_nat curr) v) v = true)
      by (rewrite in_range_set; exact Hin2).
    assert (Hmv : Mf st v = -1).
    { rewrite HM; [exact Hfree|]. simpl. auto. }
    cbn [flip].
    destruct (Z.eqb_spec curr (-1)) as [Heq|_]; [lia|].
    rewrite (py_get_z (p st) (-1) curr Hin1). cbn [bind]. fold (Pf st curr).
    rewrite Hpc.
    destruct (Z.eqb_spec v (-1)) as [Heq|_]; [lia|]. cbn [negb].
    rewrite (py_get_z (match_ st) (-1) v Hin2). cbn [bind]. fold (Mf st v).
    rewrite (py_set_ok _ _ v Hin3). cbn [bind].
    rewrite (py_set_ok _ _ curr Hin4). cbn [bind].
    rewrite Hmv, flip_done.
    eexists. split; [reflexivity|].
    assert (Hmate : forall z,
              mate (list_set (list_set (match_ st) (Z.to_nat curr) v)
                             (Z.to_nat v) curr) z =
              if z =? v then curr else if z =? curr then v else Mf st z).
    { intros z. unfold mate. rewrite (zview_set _ v curr (-1) z Hin4).
      rewrite (zview_set _ curr v (-1) z Hin3). reflexivity. }
    split; [rewrite !list_set_length; exact Hs1|].
    split; [|split; [|split; [|split]]].
    + intros z Hz. rewrite Hmate.
      destruct (Z.eqb_spec z v) as [->|_]; [exfalso; apply Hz; simpl; auto|].
      destruct (Z.eqb_spec z curr) as [->|_]; [exfalso; apply Hz; simpl; auto|].
      reflexivity.
    + rewrite Hmate. destruct (Z.eqb_spec curr v); [congruence|].
      rewrite Z.eqb_refl. reflexivity.
    + rewrite Hmate, Z.eqb_refl. reflexivity.
    + intros y [].
    + apply in_range_spec in Hin3. apply in_range_spec in Hin2.
      rewrite matched_set by (rewrite list_set_length; lia).
      rewrite nth_list_set by lia.
      destruct (Nat.eqb_spec (Z.to_nat v) (Z.to_nat curr)) as [Heq|_]; [lia|].
      rewrite matched_set by lia.
      assert (H1 : nth (Z.to_nat v) (match_ st) (-1) = -1).
      { unfold Mf, zview in Hmv.
        rewrite (proj2 (in_range_spec _ _) Hin2) in Hmv. exact Hmv. }
      assert (H2 : nth (Z.to_nat curr) (match_ st) (-1) = Mf st curr).
      { unfold Mf, zview.
        rewrite (proj2 (in_range_spec _ _) Hin3). reflexivity. }
      rewrite H1, H2.
      destruct (Z.eqb_spec v (-1)); [lia|].
      destruct (Z.eqb_spec curr (-1)); [lia|].
      destruct (Mf st curr =? -1); simpl; lia.
  - (* one step of the walk *)
    destruct fuel as [|fuel]; [simpl in Hfuel; lia|].
    pose proof Hsz as (Hs1 & Hs2 & Hs3 & Hs4 & Hs5).
    destruct (M_ok v Hmv) as (Hmm & Hmne & Hv1).
    assert (Hvr : 0 <= v < N) by (apply M_V; exact Hmv).
    assert (Hmr : 0 <= M v < N) by (apply M_range; exact Hmv).
    pose proof Hnd as Hnd0.
    apply NoDup_cons_iff in Hnd. destruct Hnd as [Hc_notin Hnd1].
    cbn [app] in Hnd1, Hc_notin.
    pose proof Hnd1 as Hnd1'.
    apply NoDup_cons_iff in Hnd1. destruct Hnd1 as [Hv_notin Hnd2].
    assert (Hcv : curr <> v) by (intros ->; apply Hc_notin; simpl; auto).
    assert (Hcm : curr <> M v) by (intros ->; apply Hc_notin; simpl; auto).
    assert (Hin1 : in_range (p st) curr = true)
      by (apply in_range_spec; rewrite Hs2; exact Hcr).
    assert (Hin2 : in_range (match_ st) v = true)
      by (apply in_range_spec; rewrite Hs1; exact Hvr).
    assert (Hin3 : in_range (match_ st) curr = true)
      by (apply in_range_spec; rewrite Hs1; exact Hcr).
    assert (Hin4 : in_range (list_set (match_ st) (Z.to_nat curr) v) v = true)
      by (rewrite in_range_set; exact Hin2).
    assert (Hmv' : Mf st v = M v).
    { apply HM. simpl. auto. }
    cbn [flip].
    destruct (Z.eqb_spec curr (-1)) as [Heq|_]; [lia|].
    rewrite (py_get_z (p st) (-1) curr Hin1). cbn [bind]. fold (Pf st curr).
    rewrite Hpc.
    destruct (Z.eqb_spec v (-1)) as [Heq|_]; [lia|]. cbn [negb].
    rewrite (py_get_z (match_ st) (-1) v Hin2). cbn [bind]. fold (Mf st v).
    rewrite (py_set_ok _ _ v Hin3). cbn [bind].
    rewrite (py_set_ok _ _ curr Hin4). cbn [bind].
    rewrite Hmv'.
    set (m2 := list_set (list_set (match_ st) (Z.to_nat curr) v)
                        (Z.to_nat v) curr).
    assert (Hmate : forall z,
              mate m2 z =
              if z =? v then curr else if z =? curr then v else Mf st z).
    { intros z. unfold mate, m2. rewrite (zview_set _ v curr (-1) z Hin4).
      rewrite (zview_set _ curr v (-1) z Hin3). reflexivity. }
    assert (Hlen2 : length m2 = length adj).
    { unfold m2. rewrite !list_set_length. exact Hs1. }
    assert (Hcnt2 : matched m2 =
                    matched (match_ st) + (if Mf st curr =? -1 then 1 else 0)).
    { unfold m2.
      apply in_range_spec in Hin3. apply in_range_spec in Hin2.
      rewrite matched_set by (rewrite list_set_length; lia).
      rewrite nth_list_set by lia.
      destruct (Nat.eqb_spec (Z.to_nat v) (Z.to_nat curr)) as [Heq|_]; [lia|].
      rewrite matched_set by lia.
      assert (H1 : nth (Z.to_nat v) (match_ st) (-1) = M v).
      { unfold Mf, zview in Hmv'.
        rewrite (proj2 (in_range_spec _ _) Hin2) in Hmv'. exact Hmv'. }
      assert (H2 : nth (Z.to_nat curr) (match_ st) (-1) = Mf st curr).
      { unfold Mf, zview.
        rewrite (proj2 (in_range_spec _ _) Hin3). reflexivity. }
      rewrite H1, H2.
      destruct (Z.eqb_spec (M v) (-1)); [congruence|].
      destruct (Z.eqb_spec v (-1)); [lia|].
      destruct (Z.eqb_spec curr (-1)); [lia|].
      destruct (Mf st curr =? -1); simpl; lia. }
    destruct (IH Hroot Hfree (set_match st m2) (M v) fuel)
      as (m' & Hrun & Hlen' & Hout & Hc1 & Hc2 & Hodd & Hcnt).
    + unfold sized. cbn. repeat split; auto.
    + change (Pf (set_match st m2)) with (Pf st). apply Hag. simpl. auto.
    + intros z Hz. change (Pf (set_match st m2)) with (Pf st).
      apply Hag. simpl. auto.
    + exact Hnd2.
    + exact Hmr.
    + intros z Hz. change (Mf (set_match st m2) z) with (mate m2 z).
      rewrite Hmate.
      destruct (Z.eqb_spec z v) as [->|_].
      { exfalso. apply Hv_notin. right. exact Hz. }
      destruct (Z.eqb_spec z curr) as [->|_].
      { exfalso. apply Hc_notin. right. right. exact Hz. }
      apply HM. simpl. auto.
    + simpl in Hfuel. lia.
    + exists m'. split; [exact Hrun|]. split; [exact Hlen'|].
      assert (Hkeep : forall z, ~ In z (M v :: L ++ [d]) -> mate m' z = mate m2 z).
      { intros z Hz. apply Hout. exact Hz. }
      split; [|split; [|split; [|split]]].
      * intros z Hz. rewrite Hkeep by (intros H; apply Hz; simpl; auto).
        rewrite Hmate.
        destruct (Z.eqb_spec z v) as [->|_]; [exfalso; apply Hz; simpl; auto|].
        destruct (Z.eqb_spec z curr) as [->|_]; [exfalso; apply Hz; simpl; auto|].
        reflexivity.
      * rewrite Hkeep by (intros H; apply Hc_notin; simpl; auto).
        rewrite Hmate. destruct (Z.eqb_spec curr v); [congruence|].
        rewrite Z.eqb_refl. reflexivity.
      * rewrite Hkeep by exact Hv_notin.
        rewrite Hmate, Z.eqb_refl. reflexivity.
      * intros y Hy. simpl in Hy. destruct Hy as [<-|Hy]; auto.
      * change (match_ (set_match st m2)) with m2 in Hcnt.
        rewrite Hcnt, Hcnt2.
        change (Mf (set_match st m2) (M v)) with (mate m2 (M v)).
        rewrite Hmate.
        destruct (Z.eqb_spec (M v) v); [congruence|].
        destruct (Z.eqb_spec (M v) curr); [congruence|].
        rewrite (HM (M v)) by (simpl; auto). rewrite Hmm.
        destruct (Z.eqb_spec v (-1)); [lia|]. cbn. lia.
Qed.

Section OneState.

Variable st : state.
Hypothesis Hst : searching adj m root st.

Let HI : Inv N E M root (Pf st) (Bf st) (Uf st) := proj2 (proj2 Hst).

Lemma st_match : match_ st = m.
Proof. apply Hst. Qed.

Lemma st_sized : sized (length adj) st.
Proof. apply Hst. Qed.

Lemma U_range x : Uf st x = true -> 0 <= x < N.
Proof. apply (inv_V _ _ _ _ _ _ _ HI). Qed.

Lemma B_range x : 0 <= x < N -> 0 <= Bf st x < N.
Proof.
  intros Hx. destruct (Z.eq_dec (Bf st x) x) as [Heq|Hne].
  { rewrite Heq. exact Hx. }
  apply U_range. apply (inv_used_base N E M root _ _ _ HI).
  apply (inv_base _ _ _ _ _ _ _ HI x). exact Hne.
Qed.

Lemma P_range x : Pf st x <> -1 -> 0 <= Pf st x < N.
Proof.
  intros Hx. apply U_range. apply (inv_p _ _ _ _ _ _ _ HI x Hx).
Qed.

Lemma get_base x : 0 <= x < N -> py_get (base st) x = Ok (Bf st x).
Proof.
  intros Hx. apply py_get_z. apply in_range_spec.
  destruct st_sized as (_ & _ & H & _). rewrite H. exact Hx.
Qed.

Lemma get_match x : 0 <= x < N -> py_get (match_ st) x = Ok (M x).
Proof.
  intros Hx. rewrite st_match. apply py_get_z. apply in_range_spec.
  rewrite (proj1 Hm). exact Hx.
Qed.

Lemma get_p x : 0 <= x < N -> py_get (p st) x = Ok (Pf st x).
Proof.
  intros Hx. apply py_get_z. apply in_range_spec.
  destruct st_sized as (_ & H & _). rewrite H. exact Hx.
Qed.

Lemma get_used x : 0 <= x < N -> py_get (used st) x = Ok (Uf st x).
Proof.
  intros Hx. apply py_get_b. apply in_range_spec.
  destruct st_sized as (_ & _ & _ & H & _). rewrite H. exact Hx.
Qed.

Lemma path_length x L :
  Uf st x = true -> Walk M (Pf st) x L root -> NoDup (L ++ [root]) ->
  (length L < length adj)%nat.
Proof.
  intros Hx H Hnd.
  assert (Hincl : incl (L ++ [root]) (range (length adj))).
  { intros z Hz. apply In_range. apply in_app_or in Hz.
    destruct Hz as [Hz|[<-|[]]]; auto. exact (walk_range (Pf st) x L root H z Hz). }
  pose proof (NoDup_incl_length Hnd Hincl) as Hlen.
  rewrite length_app, range_length in Hlen. simpl in Hlen. lia.
Qed.

(** *** lca *)

Lemma lca_mark_ok fuel : forall L a up,
  Uf st a = true -> Walk M (Pf st) a L root -> (length L < fuel)%nat ->
  length up = length adj ->
  exists up',
    lca_mark fuel st up a = Ok up' /\ length up' = length adj /\
    forall b, bview up' b = true <->
      bview up b = true \/
      exists y, In y (evens L ++ [root]) /\ Bf st y = b.
Proof.
  induction fuel as [|fuel IH]; intros L a up Ha HL Hlen Hup; [lia|].
  destruct (inv_segment N E M root Hfree _ _ _ HI a L Ha HL)
    as (X1 & W1 & Hb1 & Hcase).
  pose proof (U_range a Ha) as Har.
  pose proof (B_range a Har) as Hbr.
  assert (Hin : in_range up (Bf st a) = true).
  { apply in_range_spec. rewrite Hup. exact Hbr. }
  destruct (inv_root _ _ _ _ _ _ _ HI) as (Hr1 & Hr2 & Hr3).
  cbn [lca_mark]. rewrite (get_base a Har). cbn [bind].
  rewrite (py_set_ok up _ true Hin). cbn [bind].
  rewrite (get_match _ Hbr). cbn [bind].
  assert (Hset : forall b, bview (list_set up (Z.to_nat (Bf st a)) true) b = true
                           <-> bview up b = true \/ b = Bf st a).
  { intros b. rewrite (bview_set up _ true b Hin).
    destruct (Z.eqb_spec b (Bf st a)); intuition congruence. }
  destruct Hcase as [[Hbr' HeqL]|(L3 & HeqL & Hm1 & Hp1 & Hu1 & W3)].
  - assert (Hmr : M (Bf st a) = -1) by (rewrite Hbr'; exact Hfree).
    rewrite Hmr. cbn.
    eexists. split; [reflexivity|].
    split; [rewrite list_set_length; exact Hup|].
    intros b. rewrite Hset. split.
    + intros [H|H]; auto. right. exists root. split.
      * apply in_or_app. right. simpl. auto.
      * congruence.
    + intros [H|(y & Hy & Hyb)]; auto. right. subst b.
      apply in_app_or in Hy. destruct Hy as [Hy|[<-|[]]].
      * apply Hb1. subst L. apply evens_In. exact Hy.
      * congruence.
  - destruct (Z.eqb_spec (M (Bf st a)) (-1)) as [Heq|_]; [congruence|].
    rewrite (get_p _ (M_range _ Hm1)). cbn [bind].
    destruct (IH L3 (Pf st (M (Bf st a)))
                (list_set up (Z.to_nat (Bf st a)) true) Hu1 W3)
      as (up' & Hrun & Hlen' & Hmarks).
    { subst L. rewrite length_app in Hlen. simpl in Hlen. lia. }
    { rewrite list_set_length. exact Hup. }
    exists up'. split; [exact Hrun|]. split; [exact Hlen'|].
    assert (Hev : evens L = evens X1 ++ Bf st a :: evens L3).
    { subst L. rewrite (Walk_evens_app M (Pf st) a X1 _ _ W1). reflexivity. }
    intros b. rewrite Hmarks, Hset, Hev. split.
    + intros [[H|H]|(y & Hy & Hyb)]; auto.
      * right. exists (Bf st a). split.
        -- apply in_or_app. left. apply in_or_app. right. simpl. auto.
        -- subst b. apply (inv_base_idem N E M root _ _ _ HI).
      * right. exists y. split; auto.
        apply in_app_or in Hy. rewrite <- app_assoc. apply in_or_app. right.
        simpl. right. apply in_or_app. exact Hy.
    + intros [H|(y & Hy & Hyb)]; auto.
      rewrite <- app_assoc in Hy. apply in_app_or in Hy.
      destruct Hy as [Hy|Hy].
      * left. right. subst b. apply Hb1. apply evens_In. exact Hy.
      * simpl in Hy. destruct Hy as [<-|Hy].
        -- left. right. subst b. apply (inv_base_idem N E M root _ _ _ HI).
        -- right. exists y. auto.
Qed.

Lemma lca_find_ok fuel : forall L b up,
  Uf st b = true -> Walk M (Pf st) b L root -> (length L < fuel)%nat ->
  length up = length adj -> bview up root = true ->
  exists c A' Cu du,
    lca_find strict fuel st up b = Ok c /\
    L = A' ++ Cu /\ Walk M (Pf st) b A' du /\ Walk M (Pf st) du Cu root /\
    Bf st du = c /\ bview up c = true /\
    forall z, In z (evens A') -> bview up (Bf st z) = false.
Proof.
  induction fuel as [|fuel IH]; intros L b up Hb HL Hlen Hup Hroot_m; [lia|].
  destruct (inv_segment N E M root Hfree _ _ _ HI b L Hb HL)
    as (X1 & W1 & Hb1 & Hcase).
  pose proof (U_range b Hb) as Hbr0.
  pose proof (B_range b Hbr0) as Hbr.
  assert (Hin : in_range up (Bf st b) = true).
  { apply in_range_spec. rewrite Hup. exact Hbr. }
  cbn [lca_find]. rewrite (get_base b Hbr0). cbn [bind].
  rewrite (py_get_b up _ Hin). cbn [bind].
  destruct (bview up (Bf st b)) eqn:Hmark.
  - exists (Bf st b), [], L, b. repeat split; auto.
    + apply Walk_nil.
    + intros z [].
  - destruct Hcase as [[Hbr' HeqL]|(L3 & HeqL & Hm1 & Hp1 & Hu1 & W3)].
    { rewrite Hbr' in Hmark. congruence. }
    rewrite (get_match _ Hbr). cbn [bind].
    destruct (Z.eqb_spec (M (Bf st b)) (-1)) as [Heq|_]; [congruence|].
    rewrite andb_false_r.
    rewrite (get_p _ (M_range _ Hm1)). cbn [bind].
    destruct (IH L3 (Pf st (M (Bf st b))) up Hu1 W3)
      as (c & A'' & Cu & du & Hrun & HeqL3 & WA & WC & Hdu & Hc & Hun); auto.
    { subst L. rewrite length_app in Hlen. simpl in Hlen. lia. }
    exists c, (X1 ++ Bf st b :: M (Bf st b) :: A''), Cu, du.
    repeat split; auto.
    + subst L L3. rewrite <- app_assoc. reflexivity.
    + eapply Walk_app; [exact W1|]. apply Walk_cons; auto.
    + intros z Hz.
      rewrite (Walk_evens_app M (Pf st) b X1 _ _ W1) in Hz.
      apply in_app_or in Hz. simpl in Hz. destruct Hz as [Hz|[<-|Hz]]; auto.
      * rewrite (Hb1 z); auto. apply evens_In. exact Hz.
      * rewrite (inv_base_idem N E M root _ _ _ HI). exact Hmark.
Qed.

(** [lca] returns the base in which the paths of [v] and [u] meet, and
    never reads [p] at the sentinel. *)
Lemma lca_ok fuel v u :
  Uf st v = true -> Uf st u = true -> E v u ->
  (length adj <= fuel)%nat ->
  exists c A Cv A' Cu dv du,
    lca strict adj fuel st v u = Ok c /\
    Fork E M root (Pf st) (Bf st) (Uf st) c v u A Cv A' Cu dv du.
Proof.
  intros Hv Hu Hvu Hfuel.
  destruct (inv_path N E M root _ _ _ HI v Hv) as (Lv & WLv & NDv).
  destruct (inv_path N E M root _ _ _ HI u Hu) as (Lu & WLu & NDu).
  pose proof (path_length v Lv Hv WLv NDv) as Hlv.
  pose proof (path_length u Lu Hu WLu NDu) as Hlu.
  destruct (lca_mark_ok fuel Lv v (repeat false (length adj)) Hv WLv)
    as (up & Hrun1 & Hlen & Hmarks); [lia|apply repeat_length|].
  assert (Hmk : forall b, bview up b = true <->
                  exists y, In y (evens Lv ++ [root]) /\ Bf st y = b).
  { intros b. rewrite Hmarks, bview_repeat. intuition congruence. }
  destruct (inv_root _ _ _ _ _ _ _ HI) as (Hr1 & Hr2 & Hr3).
  destruct (lca_find_ok fuel Lu u up Hu WLu)
    as (c & A' & Cu & du & Hrun2 & HeqLu & WA' & WCu & Hdu & Hc & Hun);
    auto; [lia| |].
  { apply Hmk. exists root. split; auto. apply in_or_app. right. simpl. auto. }
  destruct (Fork_intro E M root (Pf st) (Bf st) (Uf st) (bview up)
              c v u Lv A' Cu du) as (A & Cv & dv & HeqLv & HF); auto.
  { subst Lu. rewrite <- app_assoc in NDu. exact NDu. }
  exists c, A, Cv, A', Cu, dv, du. split; auto.
  unfold lca. rewrite Hrun1. cbn [bind]. exact Hrun2.
Qed.

(** *** Augmentation *)

Lemma augment_ok fuel v u :
  Uf st v = true -> E v u -> u <> root -> M u = -1 ->
  (length adj <= fuel)%nat ->
  exists m',
    flip strict fuel (set_p st (list_set (p st) (Z.to_nat u) v)) u =
    Ok (set_match (set_p st (list_set (p st) (Z.to_nat u) v)) m') /\
    augmented adj m root m'.
Proof.
  intros Hv Hvu Hur Hmu Hfuel.
  assert (Hu : 0 <= u < N) by (apply (Hwf v u Hvu)).
  pose proof st_sized as (Hs1 & Hs2 & Hs3 & Hs4 & Hs5).
  destruct (inv_path N E M root _ _ _ HI v Hv) as (Lv & WLv & NDv).
  pose proof (path_length v Lv Hv WLv NDv) as Hlen.
  assert (Hu_notin : ~ In u (Lv ++ [root])).
  { intros Hin. apply in_app_or in Hin. destruct Hin as [Hin|[Heq|[]]].
    - destruct (Walk_In_mate M M_ok _ _ _ _ _ WLv Hin) as [_ H]. congruence.
    - congruence. }
  assert (Hin3 : in_range (p st) u = true)
    by (apply in_range_spec; rewrite Hs2; exact Hu).
  set (st1 := set_p st (list_set (p st) (Z.to_nat u) v)).
  assert (HP1 : forall z, Pf st1 z = if z =? u then v else Pf st z).
  { intros z. unfold st1, Pf. cbn [p set_p].
    apply (zview_set (p st) u v (-1) z Hin3). }
  assert (HM1 : forall z, Mf st1 z = M z).
  { intros z. unfold st1, Mf. cbn [match_ set_p]. rewrite st_match.
    reflexivity. }
  destruct (flip_ok (Pf st) Lv v WLv st1 u fuel)
    as (m' & Hrun & Hlen' & Hout & Hc1 & Hc2 & Hodd & Hcnt).
  { unfold st1, sized. cbn. rewrite list_set_length. repeat split; auto. }
  { rewrite HP1, Z.eqb_refl. reflexivity. }
  { intros z Hz. rewrite HP1. destruct (Z.eqb_spec z u) as [->|_]; auto.
    exfalso. apply Hu_notin. apply in_or_app. left. apply odds_In. exact Hz. }
  { apply NoDup_cons; auto. }
  { exact Hu. }
  { intros z _. apply HM1. }
  { lia. }
  assert (Hcase : forall x, In x (Lv ++ [root]) ->
            In x (evens Lv ++ [root]) \/ In x (odds Lv)).
  { intros x Hin. apply in_app_or in Hin. destruct Hin as [Hin|Hin].
    - destruct (Walk_In_cases M _ _ _ _ WLv x Hin); auto.
      left. apply in_or_app. auto.
    - left. apply in_or_app. auto. }
  assert (Hon : forall x, In x (u :: Lv ++ [root]) -> mate m' x <> -1).
  { intros x [<-|Hin].
    - rewrite Hc1. pose proof (U_range v Hv). lia.
    - destruct (Hcase x Hin) as [He|Ho].
      + destruct (Walk_evens_pred M _ _ _ _ WLv x He) as [->|(y & Hy & Hyp)].
        * rewrite Hc2. lia.
        * destruct (Hodd y Hy) as [_ Hy2]. rewrite Hyp in Hy2.
          rewrite Hy2.
          pose proof (walk_range _ _ _ _ WLv y (odds_In _ _ Hy)). lia.
      + destruct (Hodd x Ho) as [Hx1 _]. rewrite Hx1.
        destruct (Walk_split_odds M M_ok _ _ _ _ WLv x Ho)
          as (_ & _ & _ & _ & _ & _ & Hp & _).
        exact Hp. }
  exists m'. split; [exact Hrun|]. split; [|split].
  3: { exists u, (Lv ++ [root]). split; [|split; [|split]].
       2: { apply in_or_app. right. left. reflexivity. }
       - split; [exact Hmu|]. split; [|apply NoDup_cons; auto].
         apply (Walk_Alt (Pf st) v Lv WLv).
         + intros y Hy. apply (inv_p _ _ _ _ _ _ _ HI y Hy).
         + apply E_sym. exact Hvu.
       - intros z Hz. rewrite (Hout z Hz). apply HM1.
       - exact Hon. }
  - split; [exact Hlen'|]. intros x Hx.
    assert (Hpe : forall y, In y (odds Lv) -> E (Pf st y) y).
    { intros y Hy.
      destruct (Walk_split_odds M M_ok _ _ _ _ WLv y Hy)
        as (_ & _ & _ & _ & _ & _ & Hp & _).
      apply (inv_p _ _ _ _ _ _ _ HI y Hp). }
    destruct (in_dec Z.eq_dec x (u :: Lv ++ [root])) as [Hin|Hnot].
    + destruct Hin as [<-|Hin].
      * rewrite Hc1. split; [apply E_sym; exact Hvu|exact Hc2].
      * destruct (Hcase x Hin) as [He|Ho].
        -- destruct (Walk_evens_pred M _ _ _ _ WLv x He) as [->|(y & Hy & Hyp)].
           ++ rewrite Hc2. split; [exact Hvu|exact Hc1].
           ++ destruct (Hodd y Hy) as [Hy1 Hy2]. rewrite Hyp in Hy1, Hy2.
              rewrite Hy2. split; [|exact Hy1].
              rewrite <- Hyp. apply Hpe. exact Hy.
        -- destruct (Hodd x Ho) as [Hx1 Hx2]. rewrite Hx1.
           split; [|exact Hx2]. apply E_sym. apply Hpe. exact Ho.
    + rewrite (Hout x Hnot), HM1 in Hx |- *.
      destruct (M_ok x Hx) as (Hmm & Hne & Hx1).
      destruct (proj2 Hm x Hx) as [He _].
      split; [exact He|].
      rewrite Hout, HM1; [exact Hmm|].
      intros [Heq|Hin].
      * rewrite Heq, Hmm in Hmu. congruence.
      * apply in_app_or in Hin. destruct Hin as [Hin|[Heq|[]]].
        -- destruct (Walk_In_mate M M_ok _ _ _ _ _ WLv Hin) as [H _].
           rewrite Hmm in H. apply Hnot. right. apply in_or_app. auto.
        -- pose proof Hfree as Hf. fold M in Hf.
           rewrite Heq, Hmm in Hf. congruence.
  - rewrite Hcnt. change (match_ st1) with (match_ st). rewrite st_match.
    rewrite HM1, Hmu. cbn. lia.
Qed.

(** *** Tree extension *)

Lemma extend_ok v u :
  Uf st v = true -> E v u -> u <> root ->
  Pf st u = -1 -> M u <> -1 -> Pf st (M u) = -1 -> queued st ->
  let st' :=
    set_q (set_used (set_p st (list_set (p st) (Z.to_nat u) v))
                    (list_set (used st) (Z.to_nat (M u)) true))
          (q st ++ [M u]) in
  searching adj m root st' /\ queued st' /\ measure st' = measure st /\
  (forall z, Uf st z = true -> Uf st' z = true) /\
  (forall rest, complete adj st v (u :: rest) -> complete adj st' v rest) /\
  settled st' v u /\ (forall x, settled st v x -> settled st' v x).
Proof.
  intros Hv Hvu Hur Hpu Hmu Hpm Hq st'.
  assert (Hu : 0 <= u < N) by (apply (Hwf v u Hvu)).
  pose proof (M_range u Hmu) as Hmr.
  pose proof st_sized as (Hs1 & Hs2 & Hs3 & Hs4 & Hs5).
  assert (Hin3 : in_range (p st) u = true)
    by (apply in_range_spec; rewrite Hs2; exact Hu).
  assert (Hin4 : in_range (used st) (M u) = true)
    by (apply in_range_spec; rewrite Hs4; exact Hmr).
  assert (HP1 : forall z, Pf st' z = if z =? u then v else Pf st z).
  { intros z. unfold st', Pf. cbn [p set_p set_q set_used].
    apply (zview_set (p st) u v (-1) z Hin3). }
  assert (HU1 : forall z, Uf st' z = if z =? M u then true else Uf st z).
  { intros z. unfold st', Uf. cbn [used set_p set_q set_used].
    apply (bview_set (used st) (M u) true z Hin4). }
  assert (HIe : Inv N E M root (Pf st') (Bf st') (Uf st')).
  { change (Bf st') with (Bf st).
    apply (Inv_extend N E M root) with (P := Pf st) (U := Uf st)
                                       (v := v) (u := u); auto.
    - rewrite HP1, Z.eqb_refl. reflexivity.
    - intros z Hz. rewrite HP1. destruct (Z.eqb_spec z u); [congruence|auto].
    - intros z. rewrite HU1.
      destruct (Z.eqb_spec z (M u)); intuition (auto; discriminate). }
  assert (Hum : Uf st (M u) = false).
  { apply (extend_m_unused N E M root) with (P := Pf st) (B := Bf st); auto. }
  assert (Hset : settled st' v u).
  { right. split.
    - rewrite HU1. destruct (Z.eqb_spec u (M u)) as [Heq|_].
      + destruct (M_ok u Hmu) as (_ & Hne & _). congruence.
      + apply (extend_u_unused N E M root) with (P := Pf st)
          (B := Bf st); auto.
    - rewrite HP1, Z.eqb_refl. pose proof (U_range v Hv). lia. }
  split; [|split; [|split; [|split; [|split; [|split]]]]].
  4: { intros z Hz. rewrite HU1. destruct (z =? M u); auto. }
  5: exact Hset.
  5: { intros x [[Hx1 Hx2]|[Hx1 Hx2]].
       - left. split; [|exact Hx2]. rewrite HU1. destruct (x =? M u); auto.
       - right. split.
         + rewrite HU1. destruct (Z.eqb_spec x (M u)) as [Heq|_]; auto.
           congruence.
         + rewrite HP1. destruct (Z.eqb_spec x u) as [_|_]; auto.
           pose proof (U_range v Hv). lia. }
  4: { intros rest HCp. unfold complete.
       apply (Comp_next E _ _ _ _ v u rest).
       - apply (Comp_mono E (Pf st) (Bf st) (Uf st) (q st)).
         + exact HCp.
         + intros z Hz. rewrite HU1. destruct (z =? M u); auto.
         + intros z Hz. rewrite HU1 in Hz. unfold st'. cbn [q set_q].
           destruct (Z.eqb_spec z (M u)) as [Heq|_]; auto.
           right. apply in_or_app. right. left. symmetry. exact Heq.
         + intros z Hz. unfold st'. cbn [q set_q]. apply in_or_app. auto.
         + auto.
         + intros z _ Hz. rewrite HP1.
           destruct (Z.eqb_spec z u) as [_|_]; auto.
           pose proof (U_range v Hv). lia.
       - intros _. exact Hset. }
  - split; [exact st_match|]. split; [|exact HIe].
    unfold st', sized. cbn. rewrite !list_set_length. repeat split; auto.
  - intros z Hz. unfold st' in Hz. cbn [q set_q] in Hz.
    rewrite HU1. destruct (Z.eqb_spec z (M u)); auto.
    apply in_app_or in Hz. destruct Hz as [Hz|[Hz|[]]]; [auto|congruence].
  - unfold measure, st'. cbn [used q set_q set_used set_p].
    rewrite length_app. cbn [length].
    assert (Hn : nth (Z.to_nat (M u)) (used st) false = false).
    { unfold Uf, bview in Hum. rewrite Hin4 in Hum. exact Hum. }
    apply in_range_spec in Hin4.
    pose proof (unused_set (used st) (Z.to_nat (M u)) ltac:(lia) Hn) as Hun.
    unfold unused in *. lia.
Qed.

(** *** Blossom contraction *)

Lemma blossom_ok fuel c v u A Cv A' Cu dv du :
  Fork E M root (Pf st) (Bf st) (Uf st) c v u A Cv A' Cu dv du ->
  (length adj <= fuel)%nat -> queued st ->
  exists st1 st2 st3,
    mark_path fuel (set_blossom st (repeat false (length adj))) v c u = Ok st1 /\
    mark_path fuel st1 u c v = Ok st2 /\
    contract (range (length adj)) c st2 = Ok st3 /\
    searching adj m root st3 /\ queued st3 /\ measure st3 = measure st /\
    (forall z, Uf st z = true -> Uf st3 z = true) /\
    (forall rest, complete adj st v (u :: rest) -> complete adj st3 v rest) /\
    settled st3 v u /\ (forall x, settled st v x -> settled st3 v x).
Proof.
  intros HF Hfuel Hq.
  pose proof HF as [fk_v fk_u fk_E fk_A fk_Cv fk_ndv fk_A' fk_Cu fk_ndu
                       fk_dv fk_du fk_ne fk_ne' fk_sep].
  pose proof st_sized as (Hs1 & Hs2 & Hs3 & Hs4 & Hs5).
  assert (Hdisj : forall t, In t A -> In t A' -> False).
  { apply (fork_disj N E M root) with (P := Pf st) (B := Bf st) (U := Uf st)
      (c := c) (v := v) (u := u) (Cv := Cv) (Cu := Cu) (dv := dv) (du := du);
      auto. }
  assert (Hdvu : Uf st dv = true).
  { destruct (inv_walk_used N E M root _ _ _ HI v A dv fk_v fk_A); auto. }
  assert (Hduu : Uf st du = true).
  { destruct (inv_walk_used N E M root _ _ _ HI u A' du fk_u fk_A'); auto. }
  assert (Hcu : Uf st c = true).
  { rewrite <- fk_dv. apply (inv_used_base N E M root _ _ _ HI). exact Hdvu. }
  assert (HlenA : (length A < length adj)%nat).
  { assert (W : Walk M (Pf st) v (A ++ Cv) root) by (eapply Walk_app; eauto).
    rewrite app_assoc in fk_ndv.
    pose proof (path_length v _ fk_v W fk_ndv) as H.
    rewrite length_app in H. lia. }
  assert (HlenA' : (length A' < length adj)%nat).
  { assert (W : Walk M (Pf st) u (A' ++ Cu) root) by (eapply Walk_app; eauto).
    rewrite app_assoc in fk_ndu.
    pose proof (path_length u _ fk_u W fk_ndu) as H.
    rewrite length_app in H. lia. }
  set (st0 := set_blossom st (repeat false (length adj))).
  assert (Hsz0 : sized (length adj) st0).
  { unfold st0, sized. cbn. rewrite repeat_length. repeat split; auto. }
  assert (HL0 : forall z, Lf st0 z = false).
  { intros z. unfold st0, Lf. cbn. apply bview_repeat. }
  (* first call *)
  destruct (mark_path_ok c (Pf st) A v dv fk_A u st0 fuel)
    as (st1 & Hrun1 & Hm1 & Hb1 & Hu1 & Hq1 & Hsz1 & HLk1 & HP1 & HL1);
    auto.
  { apply (NoDup_app_remove_r _ _ fk_ndv). }
  { exact st_match. }
  { exact B_range. }
  { apply U_range. exact Hdvu. }
  { lia. }
  assert (HB1 : forall z, Bf st1 z = Bf st z).
  { intros z. unfold Bf. rewrite Hb1. reflexivity. }
  assert (HU1 : forall z, Uf st1 z = Uf st z).
  { intros z. unfold Uf. rewrite Hu1. reflexivity. }
  assert (HL1' : forall z, Lf st1 z = true <-> In z (map (Bf st) A)).
  { intros z. rewrite HL1, HL0. intuition congruence. }
  (* second call *)
  destruct (mark_path_ok c (Pf st) A' u du fk_A' v st1 fuel)
    as (st2 & Hrun2 & Hm2 & Hb2 & Hu2 & Hq2 & Hsz2 & HLk2 & HP2 & HL2);
    auto.
  { intros z Hz. rewrite HP1; [reflexivity|].
    intros Hin. apply (Hdisj z); [apply evens_In|apply odds_In]; auto. }
  { apply (NoDup_app_remove_r _ _ fk_ndu). }
  { intros z Hz. rewrite HB1. apply B_range. exact Hz. }
  { apply U_range. exact Hduu. }
  { intros y Hy. rewrite HB1. apply fk_ne'. exact Hy. }
  { rewrite HB1. exact fk_du. }
  { lia. }
  assert (HB2 : forall z, Bf st2 z = Bf st z).
  { intros z. unfold Bf. rewrite Hb2, Hb1. reflexivity. }
  assert (HU2 : forall z, Uf st2 z = Uf st z).
  { intros z. unfold Uf. rewrite Hu2, Hu1. reflexivity. }
  assert (HL2' : forall z, Lf st2 z = true <->
                   In z (map (Bf st) A) \/ In z (map (Bf st) A')).
  { intros z. rewrite HL2, HL1'.
    assert (Hmap : map (Bf st1) A' = map (Bf st) A').
    { apply map_ext. exact HB1. }
    rewrite Hmap. tauto. }
  (* the loop *)
  destruct (contract_ok c (range (length adj)) st2)
    as (st3 & Hrun3 & Hm3 & Hp3 & Hb3 & Hsz3 & Ha & Hb & Hc & Hd & Hd' & He);
    auto.
  { apply range_NoDup. }
  { intros i Hi. apply In_range. exact Hi. }
  { apply U_range. exact Hcu. }
  { intros z Hz. rewrite HB2. apply B_range. exact Hz. }
  assert (Hmark_range : forall z,
            In (Bf st z) (map (Bf st) A) \/ In (Bf st z) (map (Bf st) A') ->
            In z (range (length adj))).
  { intros z Hz. apply In_range.
    assert (Hbr : 0 <= Bf st z < N).
    { destruct Hz as [Hz|Hz]; apply in_map_iff in Hz;
        destruct Hz as (t & Ht & Hin); rewrite <- Ht; apply B_range.
      - exact (walk_range _ _ _ _ fk_A t Hin).
      - exact (walk_range _ _ _ _ fk_A' t Hin). }
    unfold Bf, zview in Hbr.
    destruct (in_range (base st) z) eqn:Hr; [|exact Hbr].
    apply in_range_spec in Hr. rewrite Hs3 in Hr. exact Hr. }
  assert (HC : Contracted (Pf st) (Bf st) (Uf st) c
                          (Pf st3) (Bf st3) (Uf st3) v u A A').
  { assert (HP3 : forall z, Pf st3 z = Pf st2 z).
    { intros z. unfold Pf. rewrite Hp3. reflexivity. }
    constructor.
    - intros z H1 H2. rewrite HP3, HP2, HP1; auto.
    - apply (Linked_agree (Pf st1)); auto.
      intros z Hz. rewrite HP3, HP2; auto.
      intros Hin. apply (Hdisj z); apply evens_In; auto.
    - apply (Linked_agree (Pf st2)); auto.
    - intros z Hz. apply Ha; [apply Hmark_range; exact Hz|].
      rewrite HB2. apply HL2'. exact Hz.
    - intros z H1 H2. rewrite Hb, HB2; auto.
      intros [_ H]. rewrite HB2 in H. apply HL2' in H. tauto.
    - intros z. rewrite Hc, HU2, HB2, HL2'. split.
      + intros [H|[_ H]]; tauto.
      + intros [H|H]; [left; exact H|].
        right. split; [apply Hmark_range; exact H|exact H]. }
  exists st1, st2, st3.
  split; [exact Hrun1|]. split; [exact Hrun2|]. split; [exact Hrun3|].
  assert (HI3 : Inv N E M root (Pf st3) (Bf st3) (Uf st3)).
  { apply (Inv_contract N E M root) with (P := Pf st) (B := Bf st) (U := Uf st)
      (c := c) (v := v) (u := u) (A := A) (Cv := Cv) (A' := A') (Cu := Cu)
      (dv := dv) (du := du); auto. }
  destruct (contracted_ends E M root _ _ _ c _ _ _ v u A Cv A' Cu dv du
              HF HC) as [Hbv Hbu].
  assert (Hkeep : forall z, Uf st3 z = false -> Pf st z <> -1 ->
                            Pf st3 z <> -1).
  { intros z Hz3 Hz.
    pose proof HC as [ct_P ct_L ct_L' ct_Bc ct_Bn ct_U].
    assert (Hzu : Uf st z = false).
    { destruct (Uf st z) eqn:Hz0; auto.
      rewrite <- Hz3. symmetry. apply Hc. left. rewrite HU2.
      exact Hz0. }
    rewrite ct_P; auto.
    - intros Hin.
      destruct (inv_walk_used N E M root _ _ _ HI v A dv fk_v fk_A)
        as [_ Hall].
      rewrite (Hall z Hin) in Hzu. discriminate.
    - intros Hin.
      destruct (inv_walk_used N E M root _ _ _ HI u A' du fk_u fk_A')
        as [_ Hall].
      rewrite (Hall z Hin) in Hzu. discriminate. }
  split; [|split; [|split; [|split; [|split; [|split]]]]].
  4: { intros z Hz. apply Hc. left. rewrite HU2. exact Hz. }
  5: { left. split; [|congruence]. apply Hc. left. rewrite HU2. exact fk_u. }
  5: { intros x [[Hx1 Hx2]|[Hx1 Hx2]].
       - left. split; [apply Hc; left; rewrite HU2; exact Hx1|].
         apply (contracted_merge _ _ _ _ _ _ _ _ _ _ _ HC). exact Hx2.
       - destruct (Uf st3 x) eqn:Hx3.
         + left. split; [exact Hx3|]. rewrite Hbv. symmetry.
           pose proof HC as [ct_P ct_L ct_L' ct_Bc ct_Bn ct_U].
           apply ct_Bc. apply ct_U in Hx3.
           destruct Hx3 as [Hx3|Hx3]; [congruence|exact Hx3].
         + right. split; [exact Hx3|]. apply Hkeep; auto. }
  4: { intros rest HCp. unfold complete.
       apply (Comp_next E _ _ _ _ v u rest).
       - apply (Comp_mono E (Pf st) (Bf st) (Uf st) (q st)).
         + exact HCp.
         + intros z Hz. apply Hc. left. rewrite HU2. exact Hz.
         + intros z Hz. destruct (Uf st z) eqn:Hz0; auto.
           right. apply Hd'. right. rewrite HU2. auto.
         + intros z Hz. apply Hd'. left. rewrite Hq2, Hq1. exact Hz.
         + apply (contracted_merge _ _ _ _ _ _ _ _ _ _ _ HC).
         + exact Hkeep.
       - intros _. left. split; [|congruence].
         apply Hc. left. rewrite HU2. exact fk_u. }
  - split; [congruence|]. split; [exact Hsz3|exact HI3].
  - intros z Hz. apply Hd in Hz. apply Hc. destruct Hz as [Hz|Hz]; auto.
    left. rewrite HU2. apply Hq. rewrite Hq2, Hq1 in Hz. exact Hz.
  - rewrite He. unfold measure. rewrite Hu2, Hu1, Hq2, Hq1. reflexivity.
Qed.

(** *** The end of a search without success *)

Lemma search_hung cur :
  q st = [] -> complete adj st cur [] ->
  Hung E M (Uf st) (If st) (Bf st) /\ Uf st root = true.
Proof.
  intros Hq HCp. split; [|apply (inv_root _ _ _ _ _ _ _ HI)].
  constructor.
  - intros a b Ha Hab.
    destruct (HCp a b Hab Ha) as [Ht|[[Hb [Hs|Ht]]|[Hb Hp]]].
    + rewrite Hq in Ht. destruct Ht as [[]|[_ []]].
    + right. auto.
    + rewrite Hq in Ht. destruct Ht as [[]|[_ []]].
    + left. unfold If. rewrite Hb. cbn [negb andb].
      apply negb_true_iff, Z.eqb_neq. exact Hp.
  - intros x Hx. unfold If in Hx. apply andb_true_iff in Hx.
    destruct Hx as [Hx1 Hx2].
    apply negb_true_iff in Hx1. apply negb_true_iff, Z.eqb_neq in Hx2.
    destruct (inv_p _ _ _ _ _ _ _ HI x Hx2) as (_ & _ & Hmx & Hum).
    split; [exact Hmx|]. split; [exact Hum|].
    destruct (Z.eq_dec (Bf st (M x)) (M x)) as [|Hne]; auto.
    pose proof (inv_blos _ _ _ _ _ _ _ HI (M x) Hne) as Hu.
    destruct (M_ok x Hmx) as (Hmm & _). rewrite Hmm in Hu. congruence.
  - intros a Ha Hne.
    pose proof (inv_blos _ _ _ _ _ _ _ HI a Hne) as Hum.
    split; [|split; [exact Hum|]].
    + intros Heq. rewrite Heq in Hum.
      rewrite (inv_neg N E M root _ _ _ HI) in Hum. discriminate.
    + apply (inv_mate _ _ _ _ _ _ _ HI a Ha Hum).
  - intros a Ha Hf.
    destruct (Z.eq_dec a root) as [->|Hne].
    + apply (inv_root _ _ _ _ _ _ _ HI).
    + destruct (inv_matched N E M root _ _ _ HI a Ha Hne) as [H _].
      congruence.
  - intros a Ha Hb Hma. unfold If.
    rewrite (inv_stem N E M root _ _ _ HI a Ha Hb). cbn [negb andb].
    apply negb_true_iff, Z.eqb_neq.
    assert (Hne : a <> root).
    { intros ->. apply Hma. exact Hfree. }
    apply (inv_matched N E M root _ _ _ HI a Ha Hne).
Qed.

(** *** One neighbour *)

Let cyc (u : Z) : bool :=
  (u =? root) || (negb (M u =? -1) && negb (Pf st (M u) =? -1)).

Lemma cycle_test u :
  0 <= u < N ->
  (if u =? root then Ok true
   else
     mu <- py_get (match_ st) u ;;
     if mu =? -1 then Ok false
     else pmu <- py_get (p st) mu ;; Ok (negb (pmu =? -1))) = Ok (cyc u).
Proof.
  intros Hu. unfold cyc. destruct (u =? root); [reflexivity|].
  rewrite (get_match u Hu). cbn [bind orb].
  destruct (Z.eqb_spec (M u) (-1)) as [Heq|Hne]; [reflexivity|].
  rewrite (get_p _ (M_range u Hne)). reflexivity.
Qed.

Lemma skip_test v u :
  0 <= v < N ->
  (if Bf st v =? Bf st u then Ok true
   else mv <- py_get (match_ st) v ;; Ok (mv =? u)) =
  Ok ((Bf st v =? Bf st u) || (M v =? u)).
Proof.
  intros Hv. destruct (Bf st v =? Bf st u); [reflexivity|].
  rewrite (get_match v Hv). reflexivity.
Qed.

Lemma visit_ok fuel v u :
  Uf st v = true -> E v u -> (length adj <= fuel)%nat -> queued st ->
  exists b st',
    visit strict adj fuel root v u st = Ok (b, st') /\
    sized (length adj) st' /\
    if b then augmented adj m root (match_ st')
    else
      searching adj m root st' /\ queued st' /\
      measure st' = measure st /\
      (forall z, Uf st z = true -> Uf st' z = true) /\
      (forall rest, complete adj st v (u :: rest) ->
                    complete adj st' v rest) /\
      settled st' v u /\ (forall x, settled st v x -> settled st' v x).
Proof.
  intros Hv Hvu Hfuel Hq.
  pose proof (U_range v Hv) as Hvr.
  assert (Hur : 0 <= u < N) by (apply (Hwf v u Hvu)).
  pose proof st_sized as Hsz.
  pose proof Hsz as (Hs1 & Hs2 & Hs3 & Hs4 & Hs5).
  assert (Hstay :
            ((Uf st u = true /\ Bf st v = Bf st u) \/
             (Uf st u = false /\ Pf st u <> -1)) ->
            exists b st',
             Ok (false, st) = Ok (b, st') /\ sized (length adj) st' /\
             if b then augmented adj m root (match_ st')
             else
               searching adj m root st' /\ queued st' /\
               measure st' = measure st /\
               (forall z, Uf st z = true -> Uf st' z = true) /\
               (forall rest, complete adj st v (u :: rest) ->
                             complete adj st' v rest) /\
               settled st' v u /\
               (forall x, settled st v x -> settled st' v x)).
  { intros Hdone. exists false, st. split; [reflexivity|].
    split; [exact Hsz|].
    split; [exact Hst|]. split; [exact Hq|]. split; [reflexivity|].
    split; [auto|]. split; [|split; [exact Hdone|auto]]. intros rest HCp.
    apply (Comp_next E _ _ _ _ v u rest HCp). intros _. exact Hdone. }
  unfold visit.
  rewrite (get_base v Hvr), (get_base u Hur). cbn [bind].
  rewrite (skip_test v u Hvr). cbn [bind].
  destruct ((Bf st v =? Bf st u) || (M v =? u)) eqn:Hskip.
  { apply Hstay. apply orb_true_iff in Hskip.
    destruct (Uf st u) eqn:Huu.
    - left. split; [reflexivity|].
      destruct Hskip as [Hs|Hs]; apply Z.eqb_eq in Hs; [exact Hs|].
      rewrite <- Hs in Huu |- *. symmetry.
      apply (proj1 (inv_mate _ _ _ _ _ _ _ HI v Hv Huu)).
    - right. split; [reflexivity|].
      destruct Hskip as [Hs|Hs]; apply Z.eqb_eq in Hs.
      + destruct (inv_base _ _ _ _ _ _ _ HI u) as (_ & Hbu & _).
        destruct (inv_base _ _ _ _ _ _ _ HI v) as (_ & _ & Hbv).
        exfalso. destruct (Z.eq_dec (Bf st u) u) as [Heq|Hne].
        * rewrite Heq in Hs. rewrite Hs in Hbv.
          rewrite (Hbv Hv) in Huu. discriminate.
        * rewrite (Hbu Hne) in Huu. discriminate.
      + assert (Hne : v <> root).
        { intros ->. pose proof Hfree as Hf. fold M in Hf.
          rewrite Hs in Hf. lia. }
        destruct (inv_matched N E M root _ _ _ HI v Hv Hne) as [_ Hp].
        rewrite Hs in Hp. exact Hp. }
  rewrite (cycle_test u Hur). cbn [bind].
  destruct (cyc u) eqn:Hcyc.
  - (* an odd cycle *)
    assert (Huu : Uf st u = true).
    { apply (inv_cycle_used N E M root M_ok _ _ _ HI).
      unfold cyc in Hcyc. apply orb_true_iff in Hcyc.
      destruct Hcyc as [Hc|Hc].
      - left. apply Z.eqb_eq. exact Hc.
      - right. apply andb_true_iff in Hc. destruct Hc as [H1 H2].
        apply negb_true_iff in H1, H2. apply Z.eqb_neq in H1, H2. auto. }
    destruct (lca_ok fuel v u Hv Huu Hvu Hfuel)
      as (c & A & Cv & A' & Cu & dv & du & Hlca & HF).
    destruct (blossom_ok fuel c v u A Cv A' Cu dv du HF Hfuel Hq)
      as (st1 & st2 & st3 & Hrun1 & Hrun2 & Hrun3 & H1 & H2 & H3 & H4 & H5).
    rewrite Hlca. cbn [bind]. rewrite Hrun1. cbn [bind].
    rewrite Hrun2. cbn [bind]. rewrite Hrun3. cbn [bind].
    exists false, st3. split; [reflexivity|]. split; [apply H1|].
    split; [exact H1|]. split; [exact H2|]. split; [exact H3|].
    split; [exact H4|exact H5].
  - (* no cycle: extend the tree *)
    assert (Hn : u <> root /\ (M u = -1 \/ Pf st (M u) = -1)).
    { unfold cyc in Hcyc. apply orb_false_iff in Hcyc.
      destruct Hcyc as [H1 H2]. apply Z.eqb_neq in H1. split; auto.
      apply andb_false_iff in H2.
      destruct H2 as [H2|H2]; apply negb_false_iff, Z.eqb_eq in H2; auto. }
    destruct Hn as [Hne Hn].
    rewrite (get_p u Hur). cbn [bind].
    destruct (Z.eqb_spec (Pf st u) (-1)) as [Hpu|Hpu].
    2: { apply Hstay. right. split; [|exact Hpu].
         destruct (Uf st u) eqn:Huu; auto. exfalso.
         destruct (inv_matched N E M root _ _ _ HI u Huu Hne) as [Hm1 Hm2].
         destruct Hn; congruence. }
    assert (Hin3 : in_range (p st) u = true)
      by (apply in_range_spec; rewrite Hs2; exact Hur).
    rewrite (py_set_ok _ _ v Hin3). cbn [bind].
    cbn [match_ set_p]. rewrite (get_match u Hur). cbn [bind].
    destruct (Z.eqb_spec (M u) (-1)) as [Hmu|Hmu].
    + destruct (augment_ok fuel v u Hv Hvu Hne Hmu Hfuel)
        as (m' & Hrun & Haug).
      rewrite Hrun. cbn [bind].
      eexists true, _. split; [reflexivity|]. cbn [match_ set_match].
      split; [|exact Haug].
      unfold sized. cbn. rewrite list_set_length.
      destruct Haug as [[Hlen _] _]. repeat split; auto.
    + destruct Hn as [Hn|Hn]; [congruence|].
      cbn [used set_p].
      assert (Hin4 : in_range (used st) (M u) = true).
      { apply in_range_spec. rewrite Hs4. apply M_range. exact Hmu. }
      rewrite (py_set_ok _ _ true Hin4). cbn [bind].
      destruct (extend_ok v u Hv Hvu Hne Hpu Hmu Hn Hq)
        as (H1 & H2 & H3 & H4 & H5).
      eexists false, _. split; [reflexivity|]. split; [apply H1|].
      split; [exact H1|]. split; [exact H2|]. split; [exact H3|].
      split; [exact H4|exact H5].
Qed.

(** A settled neighbour is passed over. *)
Lemma visit_settled fuel v u :
  Uf st v = true -> E v u -> settled st v u ->
  visit strict adj fuel root v u st = Ok (false, st).
Proof.
  intros Hv Hvu Hset.
  pose proof (U_range v Hv) as Hvr.
  assert (Hur : 0 <= u < N) by (apply (Hwf v u Hvu)).
  unfold visit.
  rewrite (get_base v Hvr), (get_base u Hur). cbn [bind].
  rewrite (skip_test v u Hvr). cbn [bind].
  destruct ((Bf st v =? Bf st u) || (M v =? u)) eqn:Hskip; [reflexivity|].
  apply orb_false_iff in Hskip. destruct Hskip as [Hs _].
  apply Z.eqb_neq in Hs.
  destruct Hset as [[_ Hb]|[Hu Hp]]; [congruence|].
  rewrite (cycle_test u Hur). cbn [bind].
  destruct (cyc u) eqn:Hcyc.
  - exfalso.
    assert (Huu : Uf st u = true).
    { apply (inv_cycle_used N E M root M_ok _ _ _ HI).
      unfold cyc in Hcyc. apply orb_true_iff in Hcyc.
      destruct Hcyc as [Hc|Hc].
      - left. apply Z.eqb_eq. exact Hc.
      - right. apply andb_true_iff in Hc. destruct Hc as [H1 H2].
        apply negb_true_iff in H1, H2. apply Z.eqb_neq in H1, H2. auto. }
    congruence.
  - rewrite (get_p u Hur). cbn [bind].
    destruct (Z.eqb_spec (Pf st u) (-1)) as [Hpu|_]; [congruence|reflexivity].
Qed.

End OneState.

(** *** The neighbours of a vertex, and the queue *)

Lemma scan_ok fuel v : forall us st,
  searching adj m root st -> queued st -> Uf st v = true ->
  (forall u, In u us -> E v u) -> (length adj <= fuel)%nat ->
  exists b st',
    scan strict adj fuel root v us st = Ok (b, st') /\
    sized (length adj) st' /\
    if b then augmented adj m root (match_ st')
    else
      searching adj m root st' /\ queued st' /\ measure st' = measure st /\
      (complete adj st v us -> complete adj st' v []).
Proof.
  induction us as [|u us IH]; intros st Hst Hq Hv Hus Hfuel.
  - exists false, st. cbn [scan]. split; [reflexivity|].
    split; [apply Hst|]. split; [exact Hst|]. split; [exact Hq|].
    split; [reflexivity|auto].
  - destruct (visit_ok st Hst fuel v u Hv) as (b & st1 & Hrun & Hsz & Hres);
      auto.
    { apply Hus. simpl. auto. }
    cbn [scan]. rewrite Hrun. cbn [bind fst snd].
    destruct b.
    + exists true, st1. auto.
    + destruct Hres as (H1 & H2 & H3 & H4 & H5 & _).
      destruct (IH st1 H1 H2) as (b & st' & Hrun' & Hsz' & Hres'); auto.
      { intros x Hx. apply Hus. simpl. auto. }
      exists b, st'. split; [exact Hrun'|]. split; [exact Hsz'|].
      destruct b; auto. destruct Hres' as (R1 & R2 & R3 & R4).
      split; [exact R1|]. split; [exact R2|]. split; [congruence|auto].
Qed.

Lemma bfs_ok k : forall fuel st cur,
  searching adj m root st -> queued st -> complete adj st cur [] ->
  (measure st < fuel)%nat -> (length adj <= k)%nat ->
  exists b st',
    bfs strict adj fuel k root st = Ok (b, st') /\
    sized (length adj) st' /\
    if b then augmented adj m root (match_ st')
    else
      match_ st' = m /\
      exists O I B, Hung E M O I B /\ O root = true.
Proof.
  induction fuel as [|fuel IH]; intros st cur Hst Hq HCp Hms Hk; [lia|].
  cbn [bfs]. destruct (q st) as [|v q'] eqn:Hqe.
  - exists false, st. split; [reflexivity|]. split; [apply Hst|].
    split; [apply Hst|].
    exists (Uf st), (If st), (Bf st).
    apply (search_hung st Hst cur Hqe HCp).
  - assert (Hv : Uf st v = true) by (apply Hq; rewrite Hqe; simpl; auto).
    assert (Hvr : 0 <= v < N) by (apply (U_range st Hst v Hv)).
    rewrite (py_get_nth adj v [])
      by (apply in_range_spec; exact Hvr).
    cbn [bind].
    assert (Hst1 : searching adj m root (set_q st q')).
    { destruct Hst as (H1 & H2 & H3). split; [exact H1|]. split; [|exact H3].
      exact H2. }
    assert (Hq1 : queued (set_q st q')).
    { intros x Hx. apply Hq. rewrite Hqe. simpl. auto. }
    assert (Hms1 : (measure (set_q st q') + 1 = measure st)%nat).
    { unfold measure. cbn [used q set_q]. rewrite Hqe. cbn [length]. lia. }
    destruct (scan_ok k v (nth (Z.to_nat v) adj []) (set_q st q') Hst1 Hq1)
      as (b & st1 & Hrun & Hsz & Hres); auto.
    { intros u Hu. split; auto. }
    rewrite Hrun. cbn [bind fst snd].
    destruct b.
    + exists true, st1. auto.
    + destruct Hres as (R1 & R2 & R3 & R4).
      apply (IH st1 v); auto; [|lia].
      apply R4. unfold complete. cbn [q set_q].
      apply (Comp_dequeue E E_sym _ _ _ v q' cur).
      * unfold complete in HCp. rewrite Hqe in HCp. exact HCp.
      * intros b Hb. apply Hb.
Qed.

(** *** A whole search *)

Lemma find_path_ok fuel st0 :
  sized (length adj) st0 -> match_ st0 = m -> (length adj < fuel)%nat ->
  exists b st',
    find_path strict adj fuel root st0 = Ok (b, st') /\
    sized (length adj) st' /\
    if b then augmented adj m root (match_ st')
    else
      match_ st' = m /\
      exists O I B, Hung E M O I B /\ O root = true.
Proof.
  intros (Hs1 & Hs2 & Hs3 & Hs4 & Hs5) Hm0 Hfuel.
  unfold find_path.
  destruct (reset_base_ok (range (length adj)) (base st0))
    as (b' & Hrun & Hlen & Hv).
  { intros i Hi. apply In_range in Hi. rewrite Hs3. exact Hi. }
  rewrite Hrun. cbn [bind used].
  assert (Hin : in_range (repeat false (length adj)) root = true).
  { apply in_range_spec. rewrite repeat_length. exact Hroot. }
  rewrite (py_set_ok _ _ true Hin). cbn [bind].
  set (st2 := set_q _ _).
  assert (HP : forall z, Pf st2 z = -1).
  { intros z. unfold st2, Pf. cbn. apply zview_repeat. }
  assert (HB : forall z, Bf st2 z = z).
  { intros z. unfold st2, Bf. cbn.
    destruct (in_dec Z.eq_dec z (range (length adj))) as [Hz|Hz].
    - apply Hv. exact Hz.
    - rewrite (proj2 (Hv z) Hz). unfold zview.
      destruct (in_range (base st0) z) eqn:Hr; auto.
      exfalso. apply Hz. apply In_range. apply in_range_spec in Hr.
      rewrite Hs3 in Hr. exact Hr. }
  assert (HU : forall z, Uf st2 z = true <-> z = root).
  { intros z. unfold st2, Uf. cbn. rewrite (bview_set _ _ true z Hin).
    rewrite bview_repeat. destruct (Z.eqb_spec z root); intuition congruence. }
  assert (Hst2 : searching adj m root st2).
  { split; [exact Hm0|]. split.
    - unfold st2, sized. cbn.
      rewrite list_set_length, !repeat_length, Hlen. repeat split; auto.
    - apply (Inv_init N E M root); auto. }
  assert (Hq2 : queued st2).
  { intros x Hx. unfold st2 in Hx. cbn in Hx. destruct Hx as [<-|[]].
    apply HU. reflexivity. }
  assert (Hms : measure st2 = length adj).
  { unfold measure, st2. cbn [used q set_q set_used length].
    assert (Hn : nth (Z.to_nat root) (repeat false (length adj)) false = false).
    { destruct (nth_in_or_default (Z.to_nat root)
                  (repeat false (length adj)) false) as [H|H]; auto.
      apply repeat_spec in H. exact H. }
    pose proof (unused_set (repeat false (length adj)) (Z.to_nat root)) as Hun.
    rewrite repeat_length in Hun. specialize (Hun ltac:(lia) Hn).
    rewrite unused_repeat in Hun. lia. }
  apply (bfs_ok fuel fuel st2 root); auto; try lia.
  unfold complete, st2. cbn [q set_q].
  apply Comp_init. intros z Hz. apply HU. exact Hz.
Qed.

End Search.

(** ** A run that passes a guard is a run of the code *)

Ltac sim_step H x Hx :=
  apply bind_Ok in H; destruct H as (x & Hx & H); rewrite Hx; cbn [bind].

Section Simulation.

Variable strict : site -> bool.
Variable adj : list (list Z).

Lemma lca_find_sim fuel : forall st up b c,
  lca_find strict fuel st up b = Ok c ->
  lca_find unguarded fuel st up b = Ok c.
Proof.
  induction fuel as [|fuel IH]; cbn [lca_find]; intros st up b c H;
    [discriminate|].
  sim_step H b1 Hb1. sim_step H mk Hmk. destruct mk; [exact H|].
  sim_step H mb Hmb. cbn [unguarded andb].
  destruct (strict SiteLca && (mb =? -1)); [discriminate|].
  sim_step H b2 Hb2. apply IH. exact H.
Qed.

Lemma lca_sim fuel st a b c :
  lca strict adj fuel st a b = Ok c -> lca unguarded adj fuel st a b = Ok c.
Proof.
  unfold lca. intros H. sim_step H up Hup. apply lca_find_sim. exact H.
Qed.

Lemma flip_sim fuel : forall st curr st',
  flip strict fuel st curr = Ok st' -> flip unguarded fuel st curr = Ok st'.
Proof.
  induction fuel as [|fuel IH]; cbn [flip]; intros st curr st' H.
  - exact H.
  - destruct (curr =? -1); [exact H|].
    sim_step H prev Hprev.
    destruct (negb (prev =? -1)).
    + sim_step H nxt Hnxt. sim_step H m1 Hm1. sim_step H m2 Hm2.
      apply IH. exact H.
    + cbn [unguarded]. destruct (strict SiteFlip); [discriminate|].
      cbn [bind] in H |- *.
      sim_step H m1 Hm1. sim_step H m2 Hm2. apply IH. exact H.
Qed.

Lemma visit_sim fuel root v u st r :
  visit strict adj fuel root v u st = Ok r ->
  visit unguarded adj fuel root v u st = Ok r.
Proof.
  unfold visit. intros H.
  sim_step H bv Hbv. sim_step H bu Hbu. sim_step H skip Hskip.
  destruct skip; [exact H|].
  sim_step H cy Hcy. destruct cy.
  - apply bind_Ok in H. destruct H as (c & Hc & H).
    rewrite (lca_sim _ _ _ _ _ Hc). cbn [bind].
    sim_step H s1 Hs1. sim_step H s2 Hs2. sim_step H s3 Hs3. exact H.
  - sim_step H pu Hpu. destruct (pu =? -1); [|exact H].
    sim_step H p' Hp'. sim_step H mu Hmu. destruct (mu =? -1).
    + apply bind_Ok in H. destruct H as (s1 & Hs1 & H).
      rewrite (flip_sim _ _ _ _ Hs1). cbn [bind]. exact H.
    + sim_step H u' Hu'. exact H.
Qed.

Lemma scan_sim fuel root v us : forall st r,
  scan strict adj fuel root v us st = Ok r ->
  scan unguarded adj fuel root v us st = Ok r.
Proof.
  induction us as [|u us IH]; cbn [scan]; intros st r H; [exact H|].
  apply bind_Ok in H. destruct H as (r1 & Hr1 & H).
  rewrite (visit_sim _ _ _ _ _ _ Hr1). cbn [bind].
  destruct (fst r1); [exact H|]. apply IH. exact H.
Qed.

Lemma bfs_sim k root fuel : forall st r,
  bfs strict adj fuel k root st = Ok r ->
  bfs unguarded adj fuel k root st = Ok r.
Proof.
  induction fuel as [|fuel IH]; cbn [bfs]; intros st r H; [discriminate|].
  destruct (q st) as [|v q']; [exact H|].
  sim_step H us Hus.
  apply bind_Ok in H. destruct H as (r1 & Hr1 & H).
  rewrite (scan_sim _ _ _ _ _ _ Hr1). cbn [bind].
  destruct (fst r1); [exact H|]. apply IH. exact H.
Qed.

Lemma find_path_sim fuel root st r :
  find_path strict adj fuel root st = Ok r ->
  find_path unguarded adj fuel root st = Ok r.
Proof.
  unfold find_path. intros H.
  sim_step H b Hb. sim_step H u' Hu'. apply bfs_sim. exact H.
Qed.

Lemma main_loop_sim fuel vs : forall st res r,
  main_loop strict adj fuel vs st res = Ok r ->
  main_loop unguarded adj fuel vs st res = Ok r.
Proof.
  induction vs as [|v vs IH]; cbn [main_loop]; intros st res r H; [exact H|].
  sim_step H mv Hmv. destruct (mv =? -1).
  - apply bind_Ok in H. destruct H as (r1 & Hr1 & H).
    rewrite (find_path_sim _ _ _ _ Hr1). cbn [bind]. apply IH. exact H.
  - apply IH. exact H.
Qed.

Lemma max_matching_sim fuel r :
  max_matching strict adj fuel = Ok r ->
  max_matching unguarded adj fuel = Ok r.
Proof.
  unfold max_matching. intros H.
  apply bind_Ok in H. destruct H as (r1 & Hr1 & H).
  rewrite (main_loop_sim _ _ _ _ _ Hr1). cbn [bind]. exact H.
Qed.

End Simulation.

(** ** Counting the free vertices *)

Lemma filter_map_length {A B : Type} (f : A -> B) (g : B -> bool) l :
  length (filter g (map f l)) = length (filter (fun x => g (f x)) l).
Proof.
  induction l as [|x l IH]; cbn [map filter]; [reflexivity|].
  destruct (g (f x)); cbn [length]; rewrite IH; reflexivity.
Qed.

Lemma filter_negb_length {A : Type} (g : A -> bool) l :
  (length (filter g l) + length (filter (fun x => negb (g x)) l) =
   length l)%nat.
Proof.
  induction l as [|x l IH]; cbn [filter]; [reflexivity|].
  destruct (g x); cbn [negb length]; lia.
Qed.

Lemma map_mate_range (m : list Z) : map (mate m) (range (length m)) = m.
Proof.
  apply (nth_ext _ _ (-1) (-1)).
  - rewrite length_map, range_length. reflexivity.
  - intros i Hi. rewrite length_map, range_length in Hi.
    unfold range. rewrite map_map.
    rewrite (nth_indep _ (-1) ((fun x => mate m (Z.of_nat x)) 0%nat))
      by (rewrite length_map, length_seq; exact Hi).
    rewrite (map_nth (fun x => mate m (Z.of_nat x))).
    rewrite seq_nth by exact Hi. cbn [Nat.add].
    unfold mate, zview.
    assert (Hr : in_range m (Z.of_nat i) = true)
      by (apply in_range_spec; lia).
    rewrite Hr, Nat2Z.id. reflexivity.
Qed.

Lemma matched_free (m : list Z) :
  matched m + Z.of_nat (length (free m)) = Z.of_nat (length m).
Proof.
  unfold matched, free.
  pose proof (filter_negb_length (fun v => v =? -1) m) as H1.
  pose proof (filter_map_length (mate m) (fun v => v =? -1)
                (range (length m))) as H2.
  rewrite map_mate_range in H2.
  cbn beta in H2. rewrite <- H2. lia.
Qed.

(** A matching whose free vertices are the roots of trees that cannot
    grow is a maximum matching. *)
Lemma certified_maximum (adj : list (list Z)) (m : list Z) :
  wf_graph adj -> wf_matching adj m ->
  certified (edge adj) (mate m) (Z.of_nat (length adj)) ->
  maximum adj m.
Proof.
  intros Hg Hm Hc. split; [exact Hm|]. intros m2 Hm2.
  pose proof (certified_free_le (length adj) (edge adj) (mate m) (mate m2)
                (wf_graph_sym adj Hg)
                (wf_matching_ok adj m Hg Hm)
                (wf_matching_ok adj m2 Hg Hm2)
                (wf_matching_V adj m Hm)
                (wf_matching_V adj m2 Hm2)
                (fun x Hx => proj1 (proj2 Hm2 x Hx))
                Hc) as Hle.
  pose proof (matched_free m) as F1.
  pose proof (matched_free m2) as F2.
  unfold free in F1, F2.
  rewrite (proj1 Hm) in F1. rewrite (proj1 Hm2) in F2. lia.
Qed.

(** Two maximum matchings have the same size. *)
Lemma maximum_unique (adj : list (list Z)) (m m2 : list Z) :
  maximum adj m -> maximum adj m2 -> matched m = matched m2.
Proof.
  intros [H1 H2] [H3 H4].
  pose proof (H2 m2 H3). pose proof (H4 m H1). lia.
Qed.

(** ** The driver *)

Section Driver.

Variable strict : site -> bool.
Variable adj : list (list Z).
Hypothesis Hwf : wf_graph adj.
Variable fuel : nat.
Hypothesis Hfuel : (length adj < fuel)%nat.

(** The free vertices of [D] are roots of trees that cannot grow. *)
Let cert (D : list Z) (m : list Z) : Prop :=
  forall r, In r D -> mate m r = -1 ->
    exists O I B, Hung (edge adj) (mate m) O I B /\ O r = true.

(** An augmentation leaves the trees of the earlier roots alone. *)
Lemma cert_augmented D m r m' :
  wf_matching adj m -> augmented adj m r m' -> cert D m -> cert (r :: D) m'.
Proof.
  intros Hm (Hm' & Hcnt & a & l & HA & Hr & Hout & Hon) HD x Hx Hfree.
  assert (Hnot : ~ In x (a :: l)).
  { intros Hin. apply (Hon x Hin). exact Hfree. }
  destruct Hx as [<-|Hx].
  { exfalso. apply Hnot. right. exact Hr. }
  assert (Hfree0 : mate m x = -1) by (rewrite <- (Hout x Hnot); exact Hfree).
  destruct (HD x Hx Hfree0) as (O & I & B & HH & Hox).
  exists O, I, B. split; [|exact Hox].
  apply (Hung_agree (edge adj) (mate m) O I B HH).
  intros z Hz. apply Hout. intros Hin.
  destruct (hung_avoid (edge adj) (mate m) (wf_graph_sym adj Hwf)
              (wf_matching_ok adj m Hwf Hm) O I B HH a l HA z Hin)
    as [H1 H2].
  destruct Hz; congruence.
Qed.

Lemma main_loop_ok : forall vs st res D,
  (forall v, In v vs -> 0 <= v < Z.of_nat (length adj)) ->
  sized (length adj) st -> wf_matching adj (match_ st) ->
  matched (match_ st) = 2 * res ->
  cert D (match_ st) ->
  exists st' res',
    main_loop strict adj fuel vs st res = Ok (st', res') /\
    wf_matching adj (match_ st') /\ matched (match_ st') = 2 * res' /\
    cert (vs ++ D) (match_ st').
Proof.
  induction vs as [|v vs IH]; intros st res D Hvs Hsz Hm Hcnt HD.
  - exists st, res. cbn [main_loop]. auto.
  - assert (Hv : 0 <= v < Z.of_nat (length adj)) by (apply Hvs; simpl; auto).
    assert (Hvs' : forall x, In x vs -> 0 <= x < Z.of_nat (length adj)).
    { intros x Hx. apply Hvs. simpl. auto. }
    assert (Hperm : forall m', cert (vs ++ v :: D) m' ->
                               cert ((v :: vs) ++ D) m').
    { intros m' HC x Hx. apply HC.
      cbn [app] in Hx. apply in_or_app.
      destruct Hx as [<-|Hx]; [right; left; reflexivity|].
      apply in_app_or in Hx. destruct Hx; [left|right; right]; auto. }
    cbn [main_loop].
    rewrite (py_get_z (match_ st) (-1) v)
      by (apply in_range_spec; rewrite (proj1 Hm); exact Hv).
    cbn [bind]. fold (mate (match_ st) v).
    destruct (Z.eqb_spec (mate (match_ st) v) (-1)) as [Hfree|Hnf].
    + destruct (find_path_ok strict adj Hwf (match_ st) Hm v Hv Hfree fuel st
                  Hsz eq_refl Hfuel) as (b & st1 & Hrun & Hsz1 & Hres).
      rewrite Hrun. cbn [bind fst snd].
      destruct b.
      * pose proof (cert_augmented D _ v _ Hm Hres HD) as HD1.
        destruct Hres as (Hm1 & Hcnt1 & _).
        destruct (IH st1 (res + 1) (v :: D) Hvs' Hsz1 Hm1 ltac:(lia) HD1)
          as (st' & res' & Hr & H1 & H2 & H3).
        exists st', res'. auto.
      * destruct Hres as (Heq & O & I & B & HH & Hov).
        assert (HD1 : cert (v :: D) (match_ st1)).
        { rewrite Heq. intros x [<-|Hx] Hf; [|auto].
          exists O, I, B. auto. }
        destruct (IH st1 res (v :: D) Hvs' Hsz1) as (st' & res' & Hr & H1 & H2 & H3);
          auto; try (rewrite Heq; auto).
        exists st', res'. auto.
    + assert (HD1 : cert (v :: D) (match_ st)).
      { intros x [<-|Hx] Hf; [congruence|auto]. }
      destruct (IH st res (v :: D) Hvs' Hsz Hm Hcnt HD1)
        as (st' & res' & Hr & H1 & H2 & H3).
      exists st', res'. auto.
Qed.

Lemma init_state_ok :
  sized (length adj) (init_state adj) /\
  wf_matching adj (match_ (init_state adj)) /\
  matched (match_ (init_state adj)) = 2 * 0.
Proof.
  split; [|split].
  - unfold init_state, sized. cbn.
    rewrite !repeat_length, range_length. repeat split; auto.
  - split.
    + cbn. apply repeat_length.
    + intros u Hu. exfalso. apply Hu. cbn. unfold mate. apply zview_repeat.
  - cbn. apply matched_repeat.
Qed.

(** The driver returns, and what it returns is a matching of the graph
    whose size is the running counter. *)
Theorem max_matching_ok :
  exists m res,
    max_matching strict adj fuel = Ok (m, res) /\
    wf_matching adj m /\ matched m = 2 * res.
Proof.
  unfold max_matching.
  destruct init_state_ok as (H1 & H2 & H3).
  destruct (main_loop_ok (range (length adj)) (init_state adj) 0 [])
    as (st' & res' & Hrun & Hm & Hcnt & _); auto.
  - intros v Hv. apply In_range. exact Hv.
  - intros r [].
  - exists (match_ st'), res'. rewrite Hrun. cbn. auto.
Qed.

(** Whatever the order in which the roots are tried, as long as every
    vertex is tried, the loop ends with a maximum matching. *)
Theorem main_loop_maximum (vs : list Z) :
  (forall v, In v vs <-> 0 <= v < Z.of_nat (length adj)) ->
  exists st' res,
    main_loop strict adj fuel vs (init_state adj) 0 = Ok (st', res) /\
    maximum adj (match_ st') /\ matched (match_ st') = 2 * res.
Proof.
  intros Hvs.
  destruct init_state_ok as (H1 & H2 & H3).
  destruct (main_loop_ok vs (init_state adj) 0 [])
    as (st' & res' & Hrun & Hm & Hcnt & HD); auto.
  - intros v Hv. apply Hvs. exact Hv.
  - intros r [].
  - exists st', res'. split; [exact Hrun|]. split; [|exact Hcnt].
    apply certified_maximum; auto.
    intros r Hr Hf. apply HD; auto.
    apply in_or_app. left. apply Hvs. exact Hr.
Qed.

End Driver.

(** ** Checking that a graph is well formed *)

Lemma wf_graphb_sound (adj : list (list Z)) :
  wf_graphb adj = true -> wf_graph adj.
Proof.
  unfold wf_graphb, wf_graph, edge. intros H u v [Hu Hin].
  rewrite forallb_forall in H.
  assert (Hur : In u (range (length adj))) by (apply In_range; exact Hu).
  specialize (H u Hur). rewrite forallb_forall in H. specialize (H v Hin).
  rewrite !andb_true_iff in H. destruct H as [[[H1 H2] H3] H4].
  apply Z.leb_le in H1. apply Z.ltb_lt in H2.
  apply negb_true_iff, Z.eqb_neq in H3.
  apply existsb_exists in H4. destruct H4 as (x & Hx & Hxe).
  apply Z.eqb_eq in Hxe. subst x. repeat split; auto.
Qed.

(** ** More on the searches of one run of the driver *)

Lemma augmented_keeps_matched adj m r m' :
  augmented adj m r m' ->
  forall z, mate m z <> -1 -> mate m' z <> -1.
Proof.
  intros (_ & _ & a & l & _ & _ & Hout & Hon) z Hz.
  destruct (in_dec Z.eq_dec z (a :: l)) as [Hin|Hnot].
  - apply Hon. exact Hin.
  - rewrite (Hout z Hnot). exact Hz.
Qed.

Lemma augmented_keeps_tree adj m r m' O I B x :
  wf_graph adj -> wf_matching adj m -> augmented adj m r m' ->
  Hung (edge adj) (mate m) O I B -> O x = true ->
  mate m' x = mate m x.
Proof.
  intros Hwf Hm (_ & _ & a & l & HA & _ & Hout & _) HH Hx.
  apply Hout. intros Hin.
  destruct (hung_avoid (edge adj) (mate m) (wf_graph_sym adj Hwf)
              (wf_matching_ok adj m Hwf Hm) O I B HH a l HA x Hin)
    as [H1 _].
  congruence.
Qed.

(** A tree that cannot grow has no edge from its root to a free vertex. *)
Lemma hung_root_edge adj m O I B r v :
  wf_graph adj -> Hung (edge adj) (mate m) O I B -> O r = true ->
  mate m r = -1 -> edge adj r v -> mate m v <> -1.
Proof.
  intros Hwf HH Hr Hfree Hrv Hv.
  destruct (hg_edge _ _ _ _ _ HH r v Hr Hrv) as [Hi|[Ho Hb]].
  - destruct (hg_inner _ _ _ _ _ HH v Hi) as [H _]. congruence.
  - rewrite (hg_free _ _ _ _ _ HH r Hr Hfree) in Hb.
    rewrite (hg_free _ _ _ _ _ HH v Ho Hv) in Hb.
    destruct (Hwf r v Hrv) as (_ & Hne & _). congruence.
Qed.

Section Run.

Variable strict : site -> bool.
Variable adj : list (list Z).
Hypothesis Hwf : wf_graph adj.
Variable fuel : nat.
Hypothesis Hfuel : (length adj < fuel)%nat.

(** The free vertices of [D] are roots of trees that cannot grow. *)
Let cert (D : list Z) (m : list Z) : Prop :=
  forall r, In r D -> mate m r = -1 ->
    exists O I B, Hung (edge adj) (mate m) O I B /\ O r = true.

(** The main loop from any matching of the graph. *)
Lemma main_loop_run : forall vs st res D,
  (forall v, In v vs -> 0 <= v < Z.of_nat (length adj)) ->
  sized (length adj) st -> wf_matching adj (match_ st) ->
  cert D (match_ st) ->
  exists st' res',
    main_loop strict adj fuel vs st res = Ok (st', res') /\
    sized (length adj) st' /\
    wf_matching adj (match_ st') /\
    matched (match_ st') = matched (match_ st) + 2 * (res' - res) /\
    cert (vs ++ D) (match_ st') /\
    res <= res' /\
    (res' = res -> match_ st' = match_ st) /\
    (forall z, mate (match_ st) z <> -1 -> mate (match_ st') z <> -1) /\
    (forall r, In r D -> mate (match_ st) r = -1 ->
               mate (match_ st') r = -1).
Proof.
  induction vs as [|v vs IH]; intros st res D Hvs Hsz Hm HD.
  - exists st, res. cbn [main_loop app].
    repeat (split; [first [reflexivity|assumption|lia]|]); auto.
  - assert (Hv : 0 <= v < Z.of_nat (length adj)) by (apply Hvs; simpl; auto).
    assert (Hvs' : forall x, In x vs -> 0 <= x < Z.of_nat (length adj)).
    { intros x Hx. apply Hvs. simpl. auto. }
    assert (Hperm : forall m', cert (vs ++ v :: D) m' ->
                               cert ((v :: vs) ++ D) m').
    { intros m' HC x Hx. apply HC.
      cbn [app] in Hx. apply in_or_app.
      destruct Hx as [<-|Hx]; [right; left; reflexivity|].
      apply in_app_or in Hx. destruct Hx; [left|right; right]; auto. }
    cbn [main_loop].
    rewrite (py_get_z (match_ st) (-1) v)
      by (apply in_range_spec; rewrite (proj1 Hm); exact Hv).
    cbn [bind]. fold (mate (match_ st) v).
    destruct (Z.eqb_spec (mate (match_ st) v) (-1)) as [Hfree|Hnf].
    + destruct (find_path_ok strict adj Hwf (match_ st) Hm v Hv Hfree fuel st
                  Hsz eq_refl Hfuel) as (b & st1 & Hrun & Hsz1 & Hres).
      rewrite Hrun. cbn [bind fst snd].
      destruct b.
      * pose proof (cert_augmented adj Hwf D _ v _ Hm Hres HD) as HD1.
        pose proof (augmented_keeps_matched _ _ _ _ Hres) as Hkeep.
        assert (Hkf : forall r, In r D -> mate (match_ st) r = -1 ->
                                mate (match_ st1) r = -1).
        { intros r Hr Hf. destruct (HD r Hr Hf) as (O & I & B & HH & Hor).
          rewrite (augmented_keeps_tree adj _ v _ O I B r Hwf Hm Hres HH Hor).
          exact Hf. }
        destruct Hres as (Hm1 & Hcnt1 & _).
        destruct (IH st1 (res + 1) (v :: D) Hvs' Hsz1 Hm1 HD1)
          as (st' & res' & Hr & H1 & H2 & H3 & H4 & H5 & H6 & H7 & H8).
        exists st', res'.
        split; [exact Hr|]. split; [exact H1|]. split; [exact H2|].
        split; [lia|]. split; [apply Hperm; exact H4|]. split; [lia|].
        split; [intros; lia|]. split.
        -- intros z Hz. apply H7. apply Hkeep. exact Hz.
        -- intros r Hr0 Hf. apply H8; [right; exact Hr0|]. apply Hkf; auto.
      * destruct Hres as (Heq & O & I & B & HH & Hov).
        assert (HD1 : cert (v :: D) (match_ st1)).
        { rewrite Heq. intros x [<-|Hx] Hf; [|auto].
          exists O, I, B. auto. }
        assert (Hm1 : wf_matching adj (match_ st1)) by (rewrite Heq; exact Hm).
        destruct (IH st1 res (v :: D) Hvs' Hsz1 Hm1 HD1)
          as (st' & res' & Hr & H1 & H2 & H3 & H4 & H5 & H6 & H7 & H8).
        rewrite Heq in H3, H6, H7, H8.
        exists st', res'.
        split; [exact Hr|]. split; [exact H1|]. split; [exact H2|].
        split; [exact H3|]. split; [apply Hperm; exact H4|].
        split; [exact H5|]. split; [exact H6|]. split; [exact H7|].
        intros r Hr0 Hf. apply H8; [right; exact Hr0|exact Hf].
    + assert (HD1 : cert (v :: D) (match_ st)).
      { intros x [<-|Hx] Hf; [congruence|auto]. }
      destruct (IH st res (v :: D) Hvs' Hsz Hm HD1)
        as (st' & res' & Hr & H1 & H2 & H3 & H4 & H5 & H6 & H7 & H8).
      exists st', res'.
      split; [exact Hr|]. split; [exact H1|]. split; [exact H2|].
      split; [exact H3|]. split; [apply Hperm; exact H4|].
      split; [exact H5|]. split; [exact H6|]. split; [exact H7|].
      intros r Hr0 Hf. apply H8; [right; exact Hr0|exact Hf].
Qed.

End Run.

(** ** Checking that an array is a matching of the graph *)

Lemma wf_matchingb_sound (adj : list (list Z)) (m : list Z) :
  wf_matchingb adj m = true -> wf_matching adj m.
Proof.
  unfold wf_matchingb. intros H. apply andb_true_iff in H.
  destruct H as [Hlen Hall]. apply Nat.eqb_eq in Hlen.
  split; [exact Hlen|]. intros u Hu.
  pose proof (mate_range m u Hu) as Hr.
  rewrite forallb_forall in Hall.
  assert (Hin : In u (range (length m))) by (apply In_range; exact Hr).
  specialize (Hall u Hin). apply orb_true_iff in Hall.
  destruct Hall as [H|H]; [apply Z.eqb_eq in H; congruence|].
  apply andb_true_iff in H. destruct H as [H1 H2].
  apply Z.eqb_eq in H2. split; [|exact H2].
  split; [rewrite <- Hlen; exact Hr|].
  apply existsb_exists in H1. destruct H1 as (x & Hx & Hxe).
  apply Z.eqb_eq in Hxe. subst x. exact Hx.
Qed.

(** ** A search does not read what the previous one left *)

Lemma orel_refl {A : Type} (R : A -> A -> Prop) (o : outcome A) :
  (forall a, R a a) -> orel R o o.
Proof.
  intros HR. destruct o; cbn; auto.
Qed.

Lemma orel_bind {A B : Type} (R : A -> A -> Prop) (S : B -> B -> Prop)
      (m m' : outcome A) (k k' : A -> outcome B) :
  orel R m m' -> (forall a a', R a a' -> orel S (k a) (k' a')) ->
  orel S (bind m k) (bind m' k').
Proof.
  destruct m, m'; cbn; intros H Hk; try contradiction; auto.
Qed.

Lemma same_but_blossom_refl st : same_but_blossom st st.
Proof.
  repeat split.
Qed.

Lemma same_set_blossom st st' bl :
  same_but_blossom st st' -> set_blossom st bl = set_blossom st' bl.
Proof.
  destruct st, st'. unfold same_but_blossom. cbn.
  intros (-> & -> & -> & -> & ->). reflexivity.
Qed.

Section Stale.

Variable strict : site -> bool.
Variable adj : list (list Z).

Let Rv (r r' : bool * state) : Prop :=
  fst r = fst r' /\ same_but_blossom (snd r) (snd r').

Lemma Rv_refl r : Rv r r.
Proof.
  split; [reflexivity|apply same_but_blossom_refl].
Qed.

Lemma lca_mark_same fuel : forall st st' up a,
  same_but_blossom st st' ->
  lca_mark fuel st up a = lca_mark fuel st' up a.
Proof.
  induction fuel as [|fuel IH]; intros st st' up a Hs; [reflexivity|].
  pose proof Hs as (Hm & Hp & Hb & _ & _).
  cbn [lca_mark]. rewrite <- Hm, <- Hp, <- Hb.
  destruct (py_get (base st) a) as [x| | |]; cbn [bind]; auto.
  destruct (py_set up x true) as [up'| | |]; cbn [bind]; auto.
  destruct (py_get (match_ st) x) as [y| | |]; cbn [bind]; auto.
  destruct (y =? -1); auto.
  destruct (py_get (p st) y) as [w| | |]; cbn [bind]; auto.
Qed.

Lemma lca_find_same fuel : forall st st' up b,
  same_but_blossom st st' ->
  lca_find strict fuel st up b = lca_find strict fuel st' up b.
Proof.
  induction fuel as [|fuel IH]; intros st st' up b Hs; [reflexivity|].
  pose proof Hs as (Hm & Hp & Hb & _ & _).
  cbn [lca_find]. rewrite <- Hm, <- Hp, <- Hb.
  destruct (py_get (base st) b) as [x| | |]; cbn [bind]; auto.
  destruct (py_get up x) as [mk| | |]; cbn [bind]; auto.
  destruct mk; auto.
  destruct (py_get (match_ st) x) as [y| | |]; cbn [bind]; auto.
  destruct (strict SiteLca && (y =? -1)); auto.
  destruct (py_get (p st) y) as [w| | |]; cbn [bind]; auto.
Qed.

Lemma lca_same fuel st st' a b :
  same_but_blossom st st' ->
  lca strict adj fuel st a b = lca strict adj fuel st' a b.
Proof.
  intros Hs. unfold lca. rewrite (lca_mark_same fuel st st' _ a Hs).
  destruct (lca_mark fuel st' (repeat false (length adj)) a); cbn [bind];
    auto.
  apply lca_find_same. exact Hs.
Qed.

Lemma flip_same fuel : forall st st' curr,
  same_but_blossom st st' ->
  orel same_but_blossom (flip strict fuel st curr)
       (flip strict fuel st' curr).
Proof.
  induction fuel as [|fuel IH]; intros st st' curr Hs;
    pose proof Hs as (Hm & Hp & Hb & Hq & Hu).
  - cbn [flip]. destruct (curr =? -1); cbn; auto.
  - cbn [flip]. destruct (curr =? -1); [exact Hs|].
    rewrite <- Hm, <- Hp.
    destruct (py_get (p st) curr) as [prev| | |]; cbn [bind orel]; auto.
    destruct (if negb (prev =? -1) then py_get (match_ st) prev
              else if strict SiteFlip then Trap SiteFlip else Ok (-1))
      as [nxt| | |]; cbn [bind orel]; auto.
    destruct (py_set (match_ st) curr prev) as [m1| | |];
      cbn [bind orel]; auto.
    destruct (py_set m1 prev curr) as [m2| | |]; cbn [bind orel]; auto.
    apply IH. destruct st, st'. unfold same_but_blossom in *. cbn in *.
    repeat split; tauto.
Qed.

Lemma visit_same fuel root v u st st' :
  same_but_blossom st st' ->
  orel Rv (visit strict adj fuel root v u st)
       (visit strict adj fuel root v u st').
Proof.
  intros Hs. pose proof Hs as (Hm & Hp & Hb & Hq & Hu).
  unfold visit.
  rewrite <- (lca_same fuel st st' v u Hs).
  rewrite <- (same_set_blossom st st' _ Hs).
  rewrite <- ?Hm, <- ?Hp, <- ?Hb, <- ?Hq, <- ?Hu.
  destruct (py_get (base st) v) as [bv| | |]; cbn [bind orel]; auto.
  destruct (py_get (base st) u) as [bu| | |]; cbn [bind orel]; auto.
  destruct (if bv =? bu then Ok true
            else mv <- py_get (match_ st) v ;; Ok (mv =? u))
    as [skip| | |]; cbn [bind orel]; auto.
  destruct skip; [split; [reflexivity|exact Hs]|].
  destruct (if u =? root then Ok true
            else
              mu <- py_get (match_ st) u ;;
              if mu =? -1 then Ok false
              else pmu <- py_get (p st) mu ;; Ok (negb (pmu =? -1)))
    as [cycle| | |]; cbn [bind orel]; auto.
  destruct cycle.
  - apply orel_refl. apply Rv_refl.
  - destruct (py_get (p st) u) as [pu| | |]; cbn [bind orel]; auto.
    destruct (pu =? -1); [|split; [reflexivity|exact Hs]].
    destruct (py_set (p st) u v) as [p'| | |]; cbn [bind orel]; auto.
    cbn [match_ set_p used q].
    rewrite <- ?Hm, <- ?Hu, <- ?Hq.
    destruct (py_get (match_ st) u) as [mu| | |]; cbn [bind orel]; auto.
    destruct (mu =? -1).
    + apply (orel_bind same_but_blossom Rv).
      * apply flip_same. destruct st, st'. unfold same_but_blossom in *.
        cbn in *. repeat split; tauto.
      * intros a a' Ha. split; [reflexivity|exact Ha].
    + destruct (py_set (used st) mu true) as [u'| | |]; cbn [bind orel];
        auto.
      split; [reflexivity|].
      destruct st, st'. unfold same_but_blossom in *. cbn in *.
      destruct Hs as (-> & -> & -> & -> & ->). repeat split.
Qed.

Lemma scan_same fuel root v : forall us st st',
  same_but_blossom st st' ->
  orel Rv (scan strict adj fuel root v us st)
       (scan strict adj fuel root v us st').
Proof.
  induction us as [|u us IH]; intros st st' Hs; cbn [scan].
  - split; [reflexivity|exact Hs].
  - apply (orel_bind Rv Rv).
    + apply visit_same. exact Hs.
    + intros [b s] [b' s'] [Hb Hs']. cbn [fst snd] in *. subst b'.
      destruct b; [split; [reflexivity|exact Hs']|].
      apply IH. exact Hs'.
Qed.

Lemma bfs_same k root : forall fuel st st',
  same_but_blossom st st' ->
  orel Rv (bfs strict adj fuel k root st) (bfs strict adj fuel k root st').
Proof.
  induction fuel as [|fuel IH]; intros st st' Hs; [exact I|].
  pose proof Hs as (Hm & Hp & Hb & Hq & Hu).
  cbn [bfs]. rewrite <- Hq.
  destruct (q st) as [|v q'] eqn:Hqe.
  - split; [reflexivity|exact Hs].
  - destruct (py_get adj v) as [us| | |]; cbn [bind orel]; auto.
    apply (orel_bind Rv Rv).
    + apply scan_same. destruct st, st'. unfold same_but_blossom in *.
      cbn in *. repeat split; tauto.
    + intros [b s] [b' s'] [Hb' Hs']. cbn [fst snd] in *. subst b'.
      destruct b; [split; [reflexivity|exact Hs']|].
      apply IH. exact Hs'.
Qed.

Lemma reset_base_range (k : nat) (b : list Z) :
  length b = k -> reset_base (range k) b = Ok (range k).
Proof.
  intros Hlen.
  destruct (reset_base_ok (range k) b) as (b' & Hrun & Hl & Hv).
  { intros i Hi. apply In_range in Hi. rewrite Hlen. exact Hi. }
  rewrite Hrun. f_equal.
  apply (nth_ext _ _ 0 0); [rewrite range_length; lia|].
  intros i Hi. rewrite Hl, Hlen in Hi.
  assert (Hin : In (Z.of_nat i) (range k)) by (apply In_range; lia).
  destruct (Hv (Z.of_nat i)) as [H1 _]. specialize (H1 Hin).
  unfold zview in H1.
  assert (Hr : in_range b' (Z.of_nat i) = true)
    by (apply in_range_spec; lia).
  rewrite Hr, Nat2Z.id in H1.
  rewrite (nth_indep b' 0 (Z.of_nat i)) by lia. rewrite H1.
  unfold range.
  rewrite (nth_indep _ 0 (Z.of_nat 0))
    by (rewrite length_map, length_seq; lia).
  rewrite map_nth, seq_nth by lia. reflexivity.
Qed.

Lemma find_path_same fuel root st st' :
  match_ st = match_ st' ->
  length (base st) = length adj -> length (base st') = length adj ->
  orel Rv (find_path strict adj fuel root st)
       (find_path strict adj fuel root st').
Proof.
  intros Hm Hb Hb'. unfold find_path.
  rewrite (reset_base_range _ _ Hb), (reset_base_range _ _ Hb').
  cbn [bind used]. rewrite <- Hm.
  destruct (py_set (repeat false (length adj)) root true) as [u'| | |];
    cbn [bind orel]; auto.
  apply bfs_same. repeat split.
Qed.

Lemma found_and_match_same (o o' : outcome (bool * state)) :
  orel Rv o o' -> found_and_match o = found_and_match o'.
Proof.
  destruct o as [[b s]| | |], o' as [[b' s']| | |]; cbn;
    try contradiction; auto.
  - intros [Hb (Hm & _)]. cbn in *. congruence.
  - intros ->. reflexivity.
Qed.

End Stale.

(** ** The demo: building the adjacency lists *)

Lemma add_edge_ok (adj : list (list Z)) (u v : Z) :
  0 <= u < Z.of_nat (length adj) -> 0 <= v < Z.of_nat (length adj) ->
  exists adj',
    add_edge adj (u, v) = Ok adj' /\ length adj' = length adj /\
    forall a : nat,
      nth a adj' [] =
      nth a adj [] ++
      (if (a =? Z.to_nat u)%nat then [v] else []) ++
      (if (a =? Z.to_nat v)%nat then [u] else []).
Proof.
  intros Hu Hv. unfold add_edge. cbn [fst snd].
  assert (Hin1 : in_range adj u = true) by (apply in_range_spec; exact Hu).
  rewrite (py_get_nth adj u [] Hin1). cbn [bind].
  rewrite (py_set_ok adj u _ Hin1). cbn [bind].
  set (adj1 := list_set adj (Z.to_nat u) (nth (Z.to_nat u) adj [] ++ [v])).
  assert (Hl1 : length adj1 = length adj) by apply list_set_length.
  assert (Hin2 : in_range adj1 v = true)
    by (apply in_range_spec; rewrite Hl1; exact Hv).
  rewrite (py_get_nth adj1 v [] Hin2). cbn [bind].
  rewrite (py_set_ok adj1 v _ Hin2).
  eexists. split; [reflexivity|]. split.
  - rewrite list_set_length. exact Hl1.
  - intros a.
    assert (H1 : forall j, nth j adj1 [] =
              if (j =? Z.to_nat u)%nat then nth (Z.to_nat u) adj [] ++ [v]
              else nth j adj []).
    { intros j. unfold adj1. apply nth_list_set. lia. }
    rewrite nth_list_set by lia. rewrite !H1.
    destruct (Nat.eqb_spec a (Z.to_nat v)) as [->|Hav].
    + destruct (Nat.eqb_spec (Z.to_nat v) (Z.to_nat u)) as [->|Hvu].
      * rewrite <- app_assoc. reflexivity.
      * cbn [app]. reflexivity.
    + destruct (Nat.eqb_spec a (Z.to_nat u)) as [->|Hau].
      * rewrite app_nil_r. reflexivity.
      * rewrite app_nil_r. reflexivity.
Qed.

Lemma add_edges_ok : forall (edges : list (Z * Z)) (adj : list (list Z)),
  (forall u v, In (u, v) edges ->
     0 <= u < Z.of_nat (length adj) /\ 0 <= v < Z.of_nat (length adj)) ->
  exists adj',
    add_edges adj edges = Ok adj' /\ length adj' = length adj /\
    forall a b, 0 <= a ->
      (In b (nth (Z.to_nat a) adj' []) <->
       In b (nth (Z.to_nat a) adj []) \/ In (a, b) edges \/ In (b, a) edges).
Proof.
  induction edges as [|[u v] es IH]; intros adj Hv.
  - exists adj. cbn [add_edges]. split; [reflexivity|].
    split; [reflexivity|]. intros a b _. cbn [In]. tauto.
  - destruct (Hv u v (or_introl eq_refl)) as [Hu Hv0].
    destruct (add_edge_ok adj u v Hu Hv0) as (adj1 & Hrun1 & Hl1 & Hn1).
    destruct (IH adj1) as (adj' & Hrun & Hl & Hn).
    { intros x y Hxy. rewrite Hl1. apply Hv. right. exact Hxy. }
    exists adj'. cbn [add_edges]. rewrite Hrun1. cbn [bind].
    split; [exact Hrun|]. split; [congruence|].
    intros a b Ha. rewrite (Hn a b Ha), Hn1, !in_app_iff. cbn [In].
    assert (E1 : (Z.to_nat a = Z.to_nat u)%nat <-> a = u) by lia.
    assert (E2 : (Z.to_nat a = Z.to_nat v)%nat <-> a = v) by lia.
    destruct (Nat.eqb_spec (Z.to_nat a) (Z.to_nat u)) as [H1|H1];
      destruct (Nat.eqb_spec (Z.to_nat a) (Z.to_nat v)) as [H2|H2];
      cbn [In]; split; intros H;
      repeat match goal with
             | H : _ \/ _ |- _ => destruct H
             | H : False |- _ => destruct H
             | H : (_, _) = (_, _) |- _ => injection H as -> ->
             end; subst; try tauto;
      try (left; right; left; left; reflexivity);
      try (left; right; right; left; reflexivity);
      try (right; left; left; f_equal; tauto);
      try (right; right; left; f_equal; tauto).
    all: try (apply E1 in H1; subst; tauto).
    all: try (apply E2 in H2; subst; tauto).
    all: try (exfalso; apply H1; apply E1; reflexivity).
    all: try (exfalso; apply H2; apply E2; reflexivity).
Qed.

Lemma build_adj_ok (n : nat) (edges : list (Z * Z)) :
  (forall u v, In (u, v) edges ->
     0 <= u < Z.of_nat n /\ 0 <= v < Z.of_nat n /\ u <> v) ->
  exists adj,
    build_adj n edges = Ok adj /\ length adj = n /\ wf_graph adj /\
    forall a b, edge adj a b <-> In (a, b) edges \/ In (b, a) edges.
Proof.
  intros Hv. unfold build_adj.
  assert (Hlen : length (repeat (@nil Z) n) = n) by apply repeat_length.
  destruct (add_edges_ok edges (repeat [] n)) as (adj & Hrun & Hl & Hn).
  { intros u v Huv. rewrite Hlen. destruct (Hv u v Huv) as (H1 & H2 & _).
    auto. }
  rewrite Hlen in Hl.
  assert (Hnil : forall a, nth a (repeat (@nil Z) n) [] = []).
  { intros a. destruct (nth_in_or_default a (repeat (@nil Z) n) []) as [H|H];
      [apply repeat_spec in H|]; exact H. }
  assert (Hedge : forall a b,
            edge adj a b <-> In (a, b) edges \/ In (b, a) edges).
  { intros a b. unfold edge. rewrite Hl. split.
    - intros [Ha Hin]. apply Hn in Hin; [|lia]. rewrite Hnil in Hin.
      destruct Hin as [[]|Hin]. exact Hin.
    - intros Hin. assert (Ha : 0 <= a < Z.of_nat n).
      { destruct Hin as [H|H]; apply Hv in H; tauto. }
      split; [exact Ha|]. apply Hn; [lia|]. right. exact Hin. }
  exists adj. split; [exact Hrun|]. split; [exact Hl|]. split; [|exact Hedge].
  intros u v Huv. pose proof Huv as Huv'. apply Hedge in Huv'.
  rewrite Hl. split; [|split].
  - destruct Huv' as [H|H]; apply Hv in H; tauto.
  - destruct Huv' as [H|H]; apply Hv in H; destruct H as (_ & _ & H);
      congruence.
  - apply Hedge. tauto.
Qed.

(** ** The demo: listing the pairs *)

Lemma pair_eqb_spec (a b : Z * Z) : pair_eqb a b = true <-> a = b.
Proof.
  destruct a as [a1 a2], b as [b1 b2]. unfold pair_eqb. cbn [fst snd].
  rewrite andb_true_iff, !Z.eqb_eq. split.
  - intros [-> ->]. reflexivity.
  - intros H. injection H as -> ->. auto.
Qed.

Lemma filter_split_length {A : Type} (r p1 p2 : A -> bool) (l : list A) :
  (forall x, In x l -> r x = xorb (p1 x) (p2 x) /\ p1 x && p2 x = false) ->
  (length (filter r l) = length (filter p1 l) + length (filter p2 l))%nat.
Proof.
  induction l as [|x l IH]; intros H; [reflexivity|].
  cbn [filter]. destruct (H x (or_introl eq_refl)) as [H1 H2].
  assert (IH' := IH (fun y Hy => H y (or_intror Hy))).
  rewrite H1. destruct (p1 x), (p2 x); cbn in *; try discriminate; lia.
Qed.

Section Pairs.

Variable m : list Z.
Hypothesis Hsym :
  forall u, mate m u <> -1 -> mate m (mate m u) = u /\ mate m u <> u.

Let low (u : Z) : bool := u <? mate m u.

Lemma mate_nonneg u : mate m u <> -1 -> 0 <= mate m u.
Proof.
  intros Hu. destruct (Hsym u Hu) as [Hmm _].
  assert (Hu0 : u <> -1) by (apply mate_range in Hu; lia).
  assert (H : mate m (mate m u) <> -1) by congruence.
  apply mate_range in H. lia.
Qed.

Lemma mate_app (pre : list Z) (v : Z) (t : list Z) :
  m = pre ++ v :: t -> mate m (Z.of_nat (length pre)) = v.
Proof.
  intros ->. unfold mate, zview.
  assert (Hr : in_range (pre ++ v :: t) (Z.of_nat (length pre)) = true).
  { apply in_range_spec. rewrite length_app. cbn [length]. lia. }
  rewrite Hr, Nat2Z.id, app_nth2 by lia.
  rewrite Nat.sub_diag. reflexivity.
Qed.

Lemma print_pairs_spec : forall (m' pre : list Z) (seen : list (Z * Z)),
  m = pre ++ m' ->
  (forall a b, In (a, b) seen <->
     0 <= a < Z.of_nat (length pre) /\ mate m a = b /\ a < b) ->
  print_pairs (Z.of_nat (length pre)) m' seen =
  map (fun u => (u, mate m u))
      (filter low (map Z.of_nat (seq (length pre) (length m')))).
Proof.
  induction m' as [|v t IH]; intros pre seen Hm Hseen; [reflexivity|].
  pose proof (mate_app pre v t Hm) as Hv.
  set (u0 := Z.of_nat (length pre)) in *.
  assert (Hcond : negb (v =? -1) && negb (existsb (pair_eqb (v, u0)) seen) =
                  low u0).
  { unfold low. rewrite Hv.
    destruct (Z.eqb_spec v (-1)) as [->|Hne]; cbn [negb andb].
    - symmetry. apply Z.ltb_ge. unfold u0. lia.
    - assert (Hv' : mate m u0 <> -1) by congruence.
      destruct (Hsym u0 Hv') as [Hmm Hneq]. rewrite Hv in Hmm, Hneq.
      pose proof (mate_nonneg u0 Hv') as Hpos. rewrite Hv in Hpos.
      destruct (existsb (pair_eqb (v, u0)) seen) eqn:Hex; cbn [negb].
      + apply existsb_exists in Hex. destruct Hex as (x & Hx & Hxe).
        apply pair_eqb_spec in Hxe. subst x. apply Hseen in Hx.
        symmetry. apply Z.ltb_ge. lia.
      + symmetry. apply Z.ltb_lt.
        destruct (Z.lt_ge_cases u0 v) as [|Hge]; auto. exfalso.
        assert (Hin : In (v, u0) seen).
        { apply Hseen. repeat split; auto; lia. }
        assert (Hex' : existsb (pair_eqb (v, u0)) seen = true).
        { apply existsb_exists. exists (v, u0). split; auto.
          apply pair_eqb_spec. reflexivity. }
        congruence. }
  cbn [print_pairs length seq map filter]. rewrite Hcond.
  assert (Hnext : Z.of_nat (length (pre ++ [v])) = u0 + 1).
  { rewrite length_app. cbn [length]. unfold u0. lia. }
  assert (Hm' : m = (pre ++ [v]) ++ t).
  { rewrite <- app_assoc. exact Hm. }
  assert (Hlen' : S (length pre) = length (pre ++ [v])).
  { rewrite length_app. cbn [length]. lia. }
  rewrite <- Hnext, Hlen'.
  fold u0. destruct (low u0) eqn:Hlow; cbn [map];
    [rewrite Hv; f_equal|];
    (apply (IH (pre ++ [v])); [exact Hm'|]).
  - intros a b. cbn [In]. rewrite Hseen, Hnext. split.
    + intros [H|H].
      * injection H as <- <-. unfold low in Hlow. apply Z.ltb_lt in Hlow.
        rewrite Hv in Hlow. unfold u0 in *. repeat split; auto; lia.
      * fold u0 in H. lia.
    + intros (Ha & Hb & Hab).
      destruct (Z.eq_dec a u0) as [->|Hne].
      * left. f_equal. congruence.
      * right. fold u0. repeat split; auto; lia.
  - intros a b. rewrite Hseen, Hnext. fold u0. split.
    + intros (Ha & Hb & Hab). repeat split; auto; lia.
    + intros (Ha & Hb & Hab).
      destruct (Z.eq_dec a u0) as [->|Hne].
      * exfalso. unfold low in Hlow. apply Z.ltb_ge in Hlow. lia.
      * repeat split; auto; lia.
Qed.

(** Every pair is printed once, from its smaller end. *)
Lemma print_pairs_low :
  print_pairs 0 m [] =
  map (fun u => (u, mate m u)) (filter low (range (length m))).
Proof.
  apply (print_pairs_spec m [] []); [reflexivity|].
  intros a b. cbn [In length]. split; [intros []|lia].
Qed.

Lemma low_count :
  2 * Z.of_nat (length (filter low (range (length m)))) = matched m.
Proof.
  set (high := fun u => negb (mate m u =? -1) && (mate m u <? u)).
  set (L := range (length m)).
  assert (Hm : matched m =
               Z.of_nat (length (filter (fun u => negb (mate m u =? -1)) L))).
  { unfold matched, L.
    pose proof (filter_map_length (mate m) (fun v => negb (v =? -1))
                  (range (length m))) as H.
    rewrite map_mate_range in H. cbn beta in H. rewrite H. reflexivity. }
  assert (Hsplit : (length (filter (fun u => negb (mate m u =? -1)%Z) L) =
                    length (filter low L) + length (filter high L))%nat).
  { apply filter_split_length. intros x Hx. unfold low, high.
    apply In_range in Hx.
    destruct (Z.eqb_spec (mate m x) (-1)) as [He|Hne]; cbn [negb andb].
    - rewrite He. split.
      + destruct (x <? -1) eqn:H; [apply Z.ltb_lt in H; lia|reflexivity].
      + apply andb_false_r.
    - destruct (Hsym x Hne) as [_ Hneq].
      destruct (x <? mate m x) eqn:H1, (mate m x <? x) eqn:H2; cbn; auto;
        try apply Z.ltb_lt in H1; try apply Z.ltb_lt in H2;
        try apply Z.ltb_ge in H1; try apply Z.ltb_ge in H2; lia. }
  assert (Hnd : NoDup L) by apply range_NoDup.
  assert (Hinj : forall x x' y : Z,
            mate m x = y /\ mate m y = x ->
            mate m x' = y /\ mate m y = x' -> x = x').
  { intros x x' y [_ H1] [_ H2]. congruence. }
  assert (H1 : (length (filter low L) <= length (filter high L))%nat).
  { apply (inj_count (fun x y => mate m x = y /\ mate m y = x) Hinj);
      [apply NoDup_filter; exact Hnd|].
    intros x Hx. apply filter_In in Hx. destruct Hx as [Hx Hl].
    apply In_range in Hx. unfold low in Hl. apply Z.ltb_lt in Hl.
    assert (Hne : mate m x <> -1) by lia.
    destruct (Hsym x Hne) as [Hmm _].
    exists (mate m x). split; [|auto].
    apply filter_In. split.
    - apply In_range. apply mate_range. rewrite Hmm. lia.
    - unfold high. rewrite Hmm. apply andb_true_iff. split.
      + apply negb_true_iff, Z.eqb_neq. lia.
      + apply Z.ltb_lt. exact Hl. }
  assert (H2 : (length (filter high L) <= length (filter low L))%nat).
  { apply (inj_count (fun x y => mate m x = y /\ mate m y = x) Hinj);
      [apply NoDup_filter; exact Hnd|].
    intros x Hx. apply filter_In in Hx. destruct Hx as [Hx Hh].
    apply In_range in Hx. unfold high in Hh. apply andb_true_iff in Hh.
    destruct Hh as [Hne Hlt].
    apply negb_true_iff, Z.eqb_neq in Hne. apply Z.ltb_lt in Hlt.
    destruct (Hsym x Hne) as [Hmm _].
    exists (mate m x). split; [|auto].
    apply filter_In. split.
    - apply In_range. apply mate_range. rewrite Hmm. lia.
    - unfold low. rewrite Hmm. apply Z.ltb_lt. exact Hlt. }
  rewrite Hm, Hsplit. lia.
Qed.

End Pairs.

(** ** Inputs that give the same run *)

Lemma strip_from_length : forall adj i,
  length (strip_from i adj) = length adj.
Proof.
  induction adj as [|l t IH]; intros i; cbn; [reflexivity|].
  rewrite IH. reflexivity.
Qed.

Lemma strip_from_nth : forall adj i (k : nat),
  nth k (strip_from i adj) [] =
  filter (fun u => negb (u =? i + Z.of_nat k)) (nth k adj []).
Proof.
  induction adj as [|l t IH]; intros i k; cbn [strip_from].
  - destruct k; reflexivity.
  - destruct k as [|k]; cbn [nth].
    + rewrite Z.add_0_r. reflexivity.
    + rewrite IH. replace (i + 1 + Z.of_nat k) with (i + Z.of_nat (S k)) by lia.
      reflexivity.
Qed.

Lemma strip_loops_length adj : length (strip_loops adj) = length adj.
Proof.
  apply strip_from_length.
Qed.

Lemma strip_loops_nth adj v :
  0 <= v ->
  nth (Z.to_nat v) (strip_loops adj) [] =
  filter (fun u => negb (u =? v)) (nth (Z.to_nat v) adj []).
Proof.
  intros Hv. unfold strip_loops. rewrite strip_from_nth.
  replace (0 + Z.of_nat (Z.to_nat v)) with v by lia. reflexivity.
Qed.

(** The functions of the search only use the length of [adj], except for
    the read of [adj[v]] in the search loop. *)
Lemma visit_length strict adj adj' fuel root v u st :
  length adj = length adj' ->
  visit strict adj fuel root v u st = visit strict adj' fuel root v u st.
Proof.
  intros H. unfold visit, lca. rewrite H. reflexivity.
Qed.

Lemma scan_length strict adj adj' fuel root v :
  length adj = length adj' ->
  forall us st,
    scan strict adj fuel root v us st = scan strict adj' fuel root v us st.
Proof.
  intros H. induction us as [|u us IH]; intros st; cbn [scan]; auto.
  rewrite (visit_length strict adj adj' fuel root v u st H).
  destruct (visit strict adj' fuel root v u st) as [[b s]| | |];
    cbn [bind fst snd]; auto.
  destruct b; auto.
Qed.

(** A neighbour equal to the vertex itself is in the same blossom. *)
Lemma visit_self strict adj fuel root v st bv :
  py_get (base st) v = Ok bv ->
  visit strict adj fuel root v v st = Ok (false, st).
Proof.
  intros H. unfold visit. rewrite H. cbn [bind].
  rewrite Z.eqb_refl. reflexivity.
Qed.

(** *** Two inputs whose adjacency lists are scanned alike *)

Section Lockstep.

Variable strict : site -> bool.
Variables adj G : list (list Z).
Hypothesis Hlen : length adj = length G.
Hypothesis HG : wf_graph G.

Hypothesis Hscan : forall m root k v st,
  wf_matching G m -> 0 <= root < Z.of_nat (length G) -> mate m root = -1 ->
  searching G m root st -> queued st -> Uf st v = true ->
  (length G <= k)%nat ->
  scan strict adj k root v (nth (Z.to_nat v) adj []) st =
  scan strict G k root v (nth (Z.to_nat v) G []) st.

Section OneSearch.

Variable m : list Z.
Hypothesis Hm : wf_matching G m.
Variable root : Z.
Hypothesis Hroot : 0 <= root < Z.of_nat (length G).
Hypothesis Hfree : mate m root = -1.

Lemma bfs_lockstep k : forall fuel st,
  searching G m root st -> queued st -> (length G <= k)%nat ->
  bfs strict adj fuel k root st = bfs strict G fuel k root st.
Proof.
  induction fuel as [|fuel IH]; intros st Hst Hq Hk; [reflexivity|].
  cbn [bfs]. destruct (q st) as [|v q'] eqn:Hqe; [reflexivity|].
  assert (Hv : Uf st v = true) by (apply Hq; rewrite Hqe; simpl; auto).
  pose proof (U_range G m root st Hst v Hv) as Hvr.
  rewrite (py_get_nth adj v []) by (apply in_range_spec; rewrite Hlen; exact Hvr).
  rewrite (py_get_nth G v []) by (apply in_range_spec; exact Hvr).
  cbn [bind].
  assert (Hst1 : searching G m root (set_q st q')).
  { destruct Hst as (H1 & H2 & H3). split; [exact H1|]. split; [|exact H3].
    exact H2. }
  assert (Hq1 : queued (set_q st q')).
  { intros x Hx. apply Hq. rewrite Hqe. simpl. auto. }
  rewrite (Hscan m root k v (set_q st q') Hm Hroot Hfree Hst1 Hq1 Hv Hk).
  destruct (scan_ok strict G HG m Hm root Hroot Hfree k v
              (nth (Z.to_nat v) G []) (set_q st q') Hst1 Hq1 Hv)
    as (b & st1 & Hrun & _ & Hres); auto.
  { intros u Hu. split; auto. }
  rewrite Hrun. cbn [bind fst snd]. destruct b; [reflexivity|].
  destruct Hres as (R1 & R2 & _).
  apply IH; auto.
Qed.

Lemma find_path_lockstep fuel st0 :
  sized (length G) st0 -> match_ st0 = m -> (length G <= fuel)%nat ->
  find_path strict adj fuel root st0 = find_path strict G fuel root st0.
Proof.
  intros (Hs1 & Hs2 & Hs3 & Hs4 & Hs5) Hm0 Hfuel.
  unfold find_path. rewrite Hlen.
  rewrite (reset_base_range (length G) (base st0) Hs3).
  cbn [bind used].
  assert (Hin : in_range (repeat false (length G)) root = true).
  { apply in_range_spec. rewrite repeat_length. exact Hroot. }
  rewrite (py_set_ok _ _ true Hin). cbn [bind].
  set (st2 := set_q _ _).
  assert (HP : forall z, Pf st2 z = -1).
  { intros z. unfold st2, Pf. cbn. apply zview_repeat. }
  assert (HB : forall z, Bf st2 z = z).
  { intros z. unfold st2, Bf. cbn. apply zview_range. }
  assert (HU : forall z, Uf st2 z = true <-> z = root).
  { intros z. unfold st2, Uf. cbn. rewrite (bview_set _ _ true z Hin).
    rewrite bview_repeat. destruct (Z.eqb_spec z root); intuition congruence. }
  apply bfs_lockstep; auto.
  - split; [exact Hm0|]. split.
    + unfold st2, sized. cbn.
      rewrite list_set_length, !repeat_length, range_length.
      repeat split; auto.
    + apply (Inv_init (Z.of_nat (length G)) (edge G) (mate m) root); auto.
  - intros x Hx. unfold st2 in Hx. cbn in Hx. destruct Hx as [<-|[]].
    apply HU. reflexivity.
Qed.

End OneSearch.

Lemma main_loop_lockstep fuel : forall vs st res,
  (length G < fuel)%nat ->
  (forall v, In v vs -> 0 <= v < Z.of_nat (length G)) ->
  sized (length G) st -> wf_matching G (match_ st) ->
  main_loop strict adj fuel vs st res = main_loop strict G fuel vs st res.
Proof.
  induction vs as [|v vs IH]; intros st res Hfuel Hvs Hsz Hm; [reflexivity|].
  assert (Hv : 0 <= v < Z.of_nat (length G)) by (apply Hvs; simpl; auto).
  assert (Hvs' : forall x, In x vs -> 0 <= x < Z.of_nat (length G)).
  { intros x Hx. apply Hvs. simpl. auto. }
  cbn [main_loop].
  destruct (py_get (match_ st) v) as [mv| | |] eqn:Hget; cbn [bind]; auto.
  destruct (Z.eqb_spec mv (-1)) as [Hmv|Hmv]; [|apply IH; auto].
  assert (Hfree : mate (match_ st) v = -1).
  { rewrite (py_get_z (match_ st) (-1) v) in Hget
      by (apply in_range_spec; rewrite (proj1 Hm); exact Hv).
    unfold mate. congruence. }
  rewrite (find_path_lockstep (match_ st) Hm v Hv Hfree fuel st Hsz eq_refl)
    by lia.
  destruct (find_path_ok strict G HG (match_ st) Hm v Hv Hfree fuel st Hsz
              eq_refl Hfuel) as (b & st1 & Hrun & Hsz1 & Hres).
  rewrite Hrun. cbn [bind fst snd].
  apply IH; auto.
  destruct b; [apply Hres|]. destruct Hres as [Heq _]. rewrite Heq. exact Hm.
Qed.

Lemma max_matching_lockstep fuel :
  (length G < fuel)%nat ->
  max_matching strict adj fuel = max_matching strict G fuel.
Proof.
  intros Hfuel. unfold max_matching.
  assert (Hi : init_state adj = init_state G).
  { unfold init_state. rewrite Hlen. reflexivity. }
  rewrite Hi, Hlen.
  rewrite (main_loop_lockstep fuel (range (length G)) (init_state G) 0); auto.
  - intros v Hv. apply In_range. exact Hv.
  - apply init_state_ok.
  - apply init_state_ok.
Qed.

End Lockstep.

(** *** Self-loops are skipped *)

Section Loops.

Variable strict : site -> bool.
Variable adj : list (list Z).

Let G : list (list Z) := strip_loops adj.

Hypothesis HG : wf_graph G.

Let Hlen : length adj = length G := eq_sym (strip_loops_length adj).

Lemma scan_loops m root k v : forall us st,
  wf_matching G m -> 0 <= root < Z.of_nat (length G) -> mate m root = -1 ->
  searching G m root st -> queued st -> Uf st v = true ->
  (forall u, In u us -> u <> v -> edge G v u) ->
  (length G <= k)%nat ->
  scan strict adj k root v us st =
  scan strict G k root v (filter (fun u => negb (u =? v)) us) st.
Proof.
  induction us as [|u us IH]; intros st Hm Hroot Hfree Hst Hq Hv Hus Hk;
    [reflexivity|].
  cbn [scan filter].
  destruct (Z.eqb_spec u v) as [->|Hne]; cbn [negb].
  - rewrite (visit_self strict adj k root v st (Bf st v)).
    + cbn [bind fst snd]. apply IH; auto.
      intros x Hx. apply Hus. right. exact Hx.
    + apply (get_base G m root st Hst). apply (U_range G m root st Hst v Hv).
  - cbn [scan]. rewrite (visit_length strict adj G k root v u st Hlen).
    destruct (visit_ok strict G HG m Hm root Hroot Hfree st Hst k v u Hv)
      as (b & st1 & Hrun & _ & Hres); auto.
    { apply Hus; [left; reflexivity|exact Hne]. }
    rewrite Hrun. cbn [bind fst snd]. destruct b; [reflexivity|].
    destruct Hres as (H1 & H2 & _ & H4 & _).
    apply IH; auto.
    intros x Hx. apply Hus. right. exact Hx.
Qed.

Lemma max_matching_loops fuel :
  (length G < fuel)%nat ->
  max_matching strict adj fuel = max_matching strict G fuel.
Proof.
  apply (max_matching_lockstep strict adj G Hlen HG).
  intros m root k v st Hm Hroot Hfree Hst Hq Hv Hk.
  pose proof (U_range G m root st Hst v Hv) as Hvr.
  assert (HnG : nth (Z.to_nat v) G [] =
                filter (fun u => negb (u =? v)) (nth (Z.to_nat v) adj [])).
  { apply strip_loops_nth. lia. }
  rewrite HnG. apply (scan_loops m root k v); auto.
  intros u Hu Hne. split; [exact Hvr|]. rewrite HnG.
  apply filter_In. split; [exact Hu|].
  apply negb_true_iff, Z.eqb_neq. exact Hne.
Qed.

End Loops.

(** *** Repeated neighbours are passed over *)

Lemma drop_repeats_In x : forall us seen,
  In x (drop_repeats seen us) <-> In x us /\ ~ In x seen.
Proof.
  induction us as [|u us IH]; intros seen; cbn [drop_repeats].
  - simpl. tauto.
  - destruct (existsb (Z.eqb u) seen) eqn:Hex.
    + rewrite IH. apply existsb_exists in Hex.
      destruct Hex as (y & Hy & Heq). apply Z.eqb_eq in Heq. subst y.
      simpl. split; [tauto|]. intros [[->|H] Hn]; tauto.
    + assert (Hu : ~ In u seen).
      { intros Hin. assert (existsb (Z.eqb u) seen = true); [|congruence].
        apply existsb_exists. exists u. split; [exact Hin|apply Z.eqb_refl]. }
      simpl. rewrite IH. simpl.
      destruct (Z.eq_dec u x) as [->|Hne]; tauto.
Qed.

Lemma uniq_length adj : length (uniq adj) = length adj.
Proof.
  apply length_map.
Qed.

Lemma uniq_nth adj (k : nat) :
  nth k (uniq adj) [] = drop_repeats [] (nth k adj []).
Proof.
  unfold uniq. apply (map_nth (drop_repeats []) adj [] k).
Qed.

Lemma uniq_edge adj u v : edge (uniq adj) u v <-> edge adj u v.
Proof.
  unfold edge. rewrite uniq_length, uniq_nth, drop_repeats_In.
  simpl. tauto.
Qed.

Lemma uniq_wf adj : wf_graph adj -> wf_graph (uniq adj).
Proof.
  intros H u v Huv. apply (proj1 (uniq_edge adj u v)) in Huv.
  destruct (H u v Huv) as (H1 & H2 & H3).
  rewrite uniq_length, uniq_edge. auto.
Qed.

Section Repeats.

Variable strict : site -> bool.
Variable adj : list (list Z).
Hypothesis Hwf : wf_graph adj.

Let G : list (list Z) := uniq adj.

Let HG : wf_graph G := uniq_wf adj Hwf.

Let Hlen : length adj = length G := eq_sym (uniq_length adj).

Lemma scan_repeats m root k v : forall us seen st,
  wf_matching G m -> 0 <= root < Z.of_nat (length G) -> mate m root = -1 ->
  searching G m root st -> queued st -> Uf st v = true ->
  (forall u, In u us -> edge G v u) ->
  (forall x, In x seen -> edge G v x /\ settled st v x) ->
  (length G <= k)%nat ->
  scan strict adj k root v us st =
  scan strict G k root v (drop_repeats seen us) st.
Proof.
  induction us as [|u us IH];
    intros seen st Hm Hroot Hfree Hst Hq Hv Hus Hseen Hk; [reflexivity|].
  assert (Hus' : forall x, In x us -> edge G v x).
  { intros x Hx. apply Hus. right. exact Hx. }
  cbn [scan drop_repeats].
  rewrite (visit_length strict adj G k root v u st Hlen).
  destruct (existsb (Z.eqb u) seen) eqn:Hex.
  - apply existsb_exists in Hex. destruct Hex as (y & Hy & Heq).
    apply Z.eqb_eq in Heq. subst y. destruct (Hseen u Hy) as [He Hs].
    rewrite (visit_settled strict G HG m Hm root st Hst k v u Hv He Hs).
    cbn [bind fst snd]. apply IH; auto.
  - cbn [scan].
    destruct (visit_ok strict G HG m Hm root Hroot Hfree st Hst k v u Hv)
      as (b & st1 & Hrun & _ & Hres); auto.
    { apply Hus. left. reflexivity. }
    rewrite Hrun. cbn [bind fst snd]. destruct b; [reflexivity|].
    destruct Hres as (H1 & H2 & _ & H4 & _ & H6 & H7).
    apply IH; auto.
    intros x [<-|Hx].
    + split; [apply Hus; left; reflexivity|exact H6].
    + destruct (Hseen x Hx) as [He Hs]. split; [exact He|apply H7; exact Hs].
Qed.

Lemma max_matching_repeats fuel :
  (length G < fuel)%nat ->
  max_matching strict adj fuel = max_matching strict G fuel.
Proof.
  apply (max_matching_lockstep strict adj G Hlen HG).
  intros m root k v st Hm Hroot Hfree Hst Hq Hv Hk.
  pose proof (U_range G m root st Hst v Hv) as Hvr.
  replace (nth (Z.to_nat v) G []) with
    (drop_repeats [] (nth (Z.to_nat v) adj []))
    by (symmetry; apply uniq_nth).
  apply (scan_repeats m root k v); auto.
  - intros u Hu. apply uniq_edge. split; [rewrite Hlen; exact Hvr|exact Hu].
  - intros x [].
Qed.

End Repeats.

(** C3: [find_path] is atomic on failure.  Whatever the graph, the root and
    the contents of the arrays when the search is invoked, a search that
    returns [False] leaves [match] exactly as it was. *)
Theorem find_path_failure_atomic :
  forall (strict : site -> bool) (adj : list (list Z)) (fuel : nat) (root : Z)
         (st st' : state),
    find_path strict adj fuel root st = Ok (false, st') ->
    match_ st' = match_ st.
Proof.
  intros strict adj fuel root st st' H. unfold find_path in H.
  do 2 bind_next H. apply bfs_match in H. simpl in H. exact H.
Qed.

(** A failing search: root 2 of [edge4] is isolated. *)
Lemma find_path_failure_atomic_witness :
  exists st',
    find_path unguarded edge4 5 2 (init_state edge4) = Ok (false, st') /\
    match_ st' = match_ (init_state edge4).
Proof.
  eexists. split.
  - vm_compute. reflexivity.
  - apply (find_path_failure_atomic unguarded edge4 5 2). vm_compute. reflexivity.
Defined.

(** C7: on the 5-cycle the driver returns size 2 and leaves exactly one
    vertex (vertex 4) with the sentinel -1. *)
Theorem max_matching_cycle5 :
  forall k : nat,
    exists m : list Z,
      max_matching unguarded cycle5 (6 + k) = Ok (m, 2) /\
      length (filter (fun v => v =? -1) m) = 1%nat.
Proof.
  intros k. exists [1; 0; 3; 2; -1]. split.
  - vm_compute. reflexivity.
  - reflexivity.
Qed.

(** C8: on the single-edge graph the driver returns size 1 and the match
    array [1, 0, -1, -1]. *)
Theorem max_matching_edge4 :
  forall k : nat,
    max_matching unguarded edge4 (5 + k) = Ok ([1; 0; -1; -1], 1).
Proof.
  intros k. vm_compute. reflexivity.
Qed.

(** ** The matching that the driver returns *)

Lemma cycle5_wf : wf_graph cycle5.
Proof.
  apply wf_graphb_sound. vm_compute. reflexivity.
Qed.

(** C1: on every well-formed graph the size returned by [max_matching] is
    the maximum matching cardinality of the graph: the returned array is a
    matching of the graph with [res] pairs, and no matching of the graph
    has more.  The size does not depend on the order in which the roots are
    tried: the main loop of the driver, run over the vertices in any other
    order, ends with the same counter. *)
Theorem max_matching_maximum :
  forall (adj : list (list Z)) (fuel : nat),
    wf_graph adj -> (length adj < fuel)%nat ->
    exists (m : list Z) (res : Z),
      max_matching unguarded adj fuel = Ok (m, res) /\
      wf_matching adj m /\ matched m = 2 * res /\
      (forall m2, wf_matching adj m2 -> matched m2 <= 2 * res) /\
      (forall vs, Permutation vs (range (length adj)) ->
         exists st',
           main_loop unguarded adj fuel vs (init_state adj) 0 =
           Ok (st', res)).
Proof.
  intros adj fuel Hwf Hfuel.
  assert (Hany : forall vs, Permutation vs (range (length adj)) ->
            exists st' res,
              main_loop unguarded adj fuel vs (init_state adj) 0 =
              Ok (st', res) /\
              maximum adj (match_ st') /\ matched (match_ st') = 2 * res).
  { intros vs Hp.
    apply (main_loop_maximum unguarded adj Hwf fuel Hfuel vs).
    intros v. rewrite <- In_range. split; intros Hv.
    - apply (Permutation_in v Hp Hv).
    - apply (Permutation_in v (Permutation_sym Hp) Hv). }
  destruct (Hany (range (length adj)) (Permutation_refl _))
    as (st & res & Hrun & Hmax & Hcnt).
  exists (match_ st), res. unfold max_matching. rewrite Hrun. cbn [bind fst snd].
  split; [reflexivity|]. split; [apply Hmax|]. split; [exact Hcnt|]. split.
  - intros m2 Hm2. rewrite <- Hcnt. apply Hmax. exact Hm2.
  - intros vs Hp. destruct (Hany vs Hp) as (st' & res' & Hrun' & Hmax' & Hcnt').
    exists st'. rewrite Hrun'.
    pose proof (maximum_unique adj _ _ Hmax Hmax') as Heq.
    assert (res' = res) by lia. subst res'. reflexivity.
Qed.

Lemma max_matching_maximum_witness :
  wf_graph cycle5 /\ (length cycle5 < 6)%nat /\
  exists (m : list Z) (res : Z),
    max_matching unguarded cycle5 6 = Ok (m, res) /\
    wf_matching cycle5 m /\ matched m = 2 * res /\
    (forall m2, wf_matching cycle5 m2 -> matched m2 <= 2 * res) /\
    (forall vs, Permutation vs (range (length cycle5)) ->
       exists st',
         main_loop unguarded cycle5 6 vs (init_state cycle5) 0 =
         Ok (st', res)).
Proof.
  split; [exact cycle5_wf|]. split; [simpl; lia|].
  apply (max_matching_maximum cycle5 6); [exact cycle5_wf|simpl; lia].
Defined.

(** C4: [max_matching] terminates on every well-formed graph.  With every
    loop (the main loop, the search loop, the two loops of [lca],
    [mark_path], the contraction loop and the augmentation flip) allowed
    more than [len(adj)] iterations, the call returns a result: no loop runs
    out of its bound and no index is out of range. *)
Theorem max_matching_terminates :
  forall (adj : list (list Z)) (fuel : nat),
    wf_graph adj -> (length adj < fuel)%nat ->
    exists r : list Z * Z, max_matching unguarded adj fuel = Ok r.
Proof.
  intros adj fuel Hwf Hfuel.
  destruct (max_matching_ok unguarded adj Hwf fuel Hfuel)
    as (m & res & Hrun & _).
  exists (m, res). exact Hrun.
Qed.

Lemma max_matching_terminates_witness :
  wf_graph cycle5 /\ (length cycle5 < 6)%nat /\
  exists r : list Z * Z, max_matching unguarded cycle5 6 = Ok r.
Proof.
  split; [exact cycle5_wf|]. split; [simpl; lia|].
  apply (max_matching_terminates cycle5 6); [exact cycle5_wf|simpl; lia].
Defined.

(** C2: the returned [match] array is a symmetric partial involution: if
    [match[u] = v] and [v] is not the sentinel, then [match[v] = u]; hence
    no vertex is the match of two distinct vertices. *)
Theorem max_matching_symmetric :
  forall (adj : list (list Z)) (fuel : nat),
    wf_graph adj -> (length adj < fuel)%nat ->
    exists (m : list Z) (res : Z),
      max_matching unguarded adj fuel = Ok (m, res) /\
      length m = length adj /\
      (forall u v, mate m u = v -> v <> -1 -> mate m v = u) /\
      (forall u1 u2 v,
          mate m u1 = v -> mate m u2 = v -> v <> -1 -> u1 = u2).
Proof.
  intros adj fuel Hwf Hfuel.
  destruct (max_matching_ok unguarded adj Hwf fuel Hfuel)
    as (m & res & Hrun & [Hlen Hm] & _).
  exists m, res. split; [exact Hrun|]. split; [exact Hlen|].
  assert (Hsym : forall u v, mate m u = v -> v <> -1 -> mate m v = u).
  { intros u v Huv Hv. subst v. apply (Hm u Hv). }
  split; [exact Hsym|].
  intros u1 u2 v H1 H2 Hv.
  rewrite <- (Hsym u1 v H1 Hv). apply (Hsym u2 v H2 Hv).
Qed.

Lemma max_matching_symmetric_witness :
  wf_graph cycle5 /\ (length cycle5 < 6)%nat /\
  exists (m : list Z) (res : Z),
    max_matching unguarded cycle5 6 = Ok (m, res) /\
    length m = length cycle5 /\
    (forall u v, mate m u = v -> v <> -1 -> mate m v = u) /\
    (forall u1 u2 v,
        mate m u1 = v -> mate m u2 = v -> v <> -1 -> u1 = u2).
Proof.
  split; [exact cycle5_wf|]. split; [simpl; lia|].
  apply (max_matching_symmetric cycle5 6); [exact cycle5_wf|simpl; lia].
Defined.

(** C5: every matched pair of the output is an edge of the input graph: if
    [match[u] = v] and [v] is not the sentinel, then [v] occurs in
    [adj[u]]. *)
Theorem max_matching_valid :
  forall (adj : list (list Z)) (fuel : nat),
    wf_graph adj -> (length adj < fuel)%nat ->
    exists (m : list Z) (res : Z),
      max_matching unguarded adj fuel = Ok (m, res) /\
      forall u v, mate m u = v -> v <> -1 ->
        0 <= u < Z.of_nat (length adj) /\
        In v (nth (Z.to_nat u) adj []).
Proof.
  intros adj fuel Hwf Hfuel.
  destruct (max_matching_ok unguarded adj Hwf fuel Hfuel)
    as (m & res & Hrun & [Hlen Hm] & _).
  exists m, res. split; [exact Hrun|].
  intros u v Huv Hv. subst v. apply (Hm u Hv).
Qed.

Lemma max_matching_valid_witness :
  wf_graph cycle5 /\ (length cycle5 < 6)%nat /\
  exists (m : list Z) (res : Z),
    max_matching unguarded cycle5 6 = Ok (m, res) /\
    forall u v, mate m u = v -> v <> -1 ->
      0 <= u < Z.of_nat (length cycle5) /\
      In v (nth (Z.to_nat u) cycle5 []).
Proof.
  split; [exact cycle5_wf|]. split; [simpl; lia|].
  apply (max_matching_valid cycle5 6); [exact cycle5_wf|simpl; lia].
Defined.

(** C6: the returned size is half the number of entries of the returned
    [match] array that differ from the sentinel. *)
Theorem max_matching_size :
  forall (adj : list (list Z)) (fuel : nat),
    wf_graph adj -> (length adj < fuel)%nat ->
    exists (m : list Z) (res : Z),
      max_matching unguarded adj fuel = Ok (m, res) /\
      matched m = 2 * res /\ res = matched m / 2.
Proof.
  intros adj fuel Hwf Hfuel.
  destruct (max_matching_ok unguarded adj Hwf fuel Hfuel)
    as (m & res & Hrun & _ & Hcnt).
  exists m, res. split; [exact Hrun|]. split; [exact Hcnt|].
  rewrite Hcnt, Z.mul_comm, Z.div_mul; lia.
Qed.

Lemma max_matching_size_witness :
  wf_graph cycle5 /\ (length cycle5 < 6)%nat /\
  exists (m : list Z) (res : Z),
    max_matching unguarded cycle5 6 = Ok (m, res) /\
    matched m = 2 * res /\ res = matched m / 2.
Proof.
  split; [exact cycle5_wf|]. split; [simpl; lia|].
  apply (max_matching_size cycle5 6); [exact cycle5_wf|simpl; lia].
Defined.

(** C9: the second loop of [lca] never evaluates [p[match[b]]] with
    [match[b] = -1].  The run in which that evaluation is a trap returns,
    and returns what the code returns. *)
Theorem lca_never_reads_sentinel :
  forall (adj : list (list Z)) (fuel : nat),
    wf_graph adj -> (length adj < fuel)%nat ->
    exists r : list Z * Z,
      max_matching (guard SiteLca) adj fuel = Ok r /\
      max_matching unguarded adj fuel = Ok r.
Proof.
  intros adj fuel Hwf Hfuel.
  destruct (max_matching_ok (guard SiteLca) adj Hwf fuel Hfuel)
    as (m & res & Hrun & _).
  exists (m, res). split; [exact Hrun|].
  apply (max_matching_sim (guard SiteLca)). exact Hrun.
Qed.

Lemma lca_never_reads_sentinel_witness :
  wf_graph cycle5 /\ (length cycle5 < 6)%nat /\
  exists r : list Z * Z,
    max_matching (guard SiteLca) cycle5 6 = Ok r /\
    max_matching unguarded cycle5 6 = Ok r.
Proof.
  split; [exact cycle5_wf|]. split; [simpl; lia|].
  apply (lca_never_reads_sentinel cycle5 6); [exact cycle5_wf|simpl; lia].
Defined.

(** C10: in the augmentation flip every vertex [curr] has [p[curr] <> -1]:
    the [prev = -1] fallback is unreachable and [match[prev] = curr] never
    writes at index -1.  The run in which the fallback is a trap returns,
    and returns what the code returns. *)
Theorem flip_never_falls_back :
  forall (adj : list (list Z)) (fuel : nat),
    wf_graph adj -> (length adj < fuel)%nat ->
    exists r : list Z * Z,
      max_matching (guard SiteFlip) adj fuel = Ok r /\
      max_matching unguarded adj fuel = Ok r.
Proof.
  intros adj fuel Hwf Hfuel.
  destruct (max_matching_ok (guard SiteFlip) adj Hwf fuel Hfuel)
    as (m & res & Hrun & _).
  exists (m, res). split; [exact Hrun|].
  apply (max_matching_sim (guard SiteFlip)). exact Hrun.
Qed.

Lemma flip_never_falls_back_witness :
  wf_graph cycle5 /\ (length cycle5 < 6)%nat /\
  exists r : list Z * Z,
    max_matching (guard SiteFlip) cycle5 6 = Ok r /\
    max_matching unguarded cycle5 6 = Ok r.
Proof.
  split; [exact cycle5_wf|]. split; [simpl; lia|].
  apply (flip_never_falls_back cycle5 6); [exact cycle5_wf|simpl; lia].
Defined.

(** ** One search *)

Lemma edge4_wf : wf_graph edge4.
Proof.
  apply wf_graphb_sound. vm_compute. reflexivity.
Qed.

(** X1: the search is sound and complete.  Called on a free root, with a
    valid matching in [match], [find_path] returns [True] exactly when the
    graph has an augmenting path through the root: a simple path between
    two free vertices whose edges are alternately outside and inside the
    matching. *)
Theorem find_path_iff_augmenting :
  forall (adj : list (list Z)) (fuel : nat) (root : Z) (st : state),
    wf_graph adj -> wf_matching adj (match_ st) -> sized (length adj) st ->
    0 <= root < Z.of_nat (length adj) -> mate (match_ st) root = -1 ->
    (length adj < fuel)%nat ->
    exists (b : bool) (st' : state),
      find_path unguarded adj fuel root st = Ok (b, st') /\
      (b = true <->
       exists a l, Aug (edge adj) (mate (match_ st)) a l /\ In root (a :: l)).
Proof.
  intros adj fuel root st Hwf Hm Hsz Hroot Hfree Hfuel.
  destruct (find_path_ok unguarded adj Hwf (match_ st) Hm root Hroot Hfree
              fuel st Hsz eq_refl Hfuel) as (b & st' & Hrun & _ & Hres).
  exists b, st'. split; [exact Hrun|].
  destruct b.
  - split; [intros _|reflexivity].
    destruct Hres as (_ & _ & a & l & HA & Hin & _).
    exists a, l. split; [exact HA|right; exact Hin].
  - split; [discriminate|]. intros (a & l & HA & Hin). exfalso.
    destruct Hres as (_ & O & I & B & HH & Hor).
    destruct (hung_avoid (edge adj) (mate (match_ st)) (wf_graph_sym adj Hwf)
                (wf_matching_ok adj _ Hwf Hm) O I B HH a l HA root Hin)
      as [H _].
    congruence.
Qed.

Lemma find_path_iff_augmenting_witness :
  exists (b : bool) (st' : state),
    find_path unguarded cycle5 6 0 (init_state cycle5) = Ok (b, st') /\
    (b = true <->
     exists a l,
       Aug (edge cycle5) (mate (match_ (init_state cycle5))) a l /\
       In 0 (a :: l)).
Proof.
  apply (find_path_iff_augmenting cycle5 6 0 (init_state cycle5)).
  - exact cycle5_wf.
  - apply init_state_ok.
  - apply init_state_ok.
  - simpl. lia.
  - reflexivity.
  - simpl. lia.
Defined.

(** X2: what a successful search does to [match].  After [find_path]
    returned [True], [match] is again a matching of the graph, it has
    exactly one pair more, the root is matched, and every vertex that was
    matched before the call is still matched.  The entries that changed
    all lie on one augmenting path through the root. *)
Theorem find_path_success_effect :
  forall (adj : list (list Z)) (fuel : nat) (root : Z) (st st' : state),
    wf_graph adj -> wf_matching adj (match_ st) -> sized (length adj) st ->
    0 <= root < Z.of_nat (length adj) -> mate (match_ st) root = -1 ->
    (length adj < fuel)%nat ->
    find_path unguarded adj fuel root st = Ok (true, st') ->
    wf_matching adj (match_ st') /\
    matched (match_ st') = matched (match_ st) + 2 /\
    mate (match_ st') root <> -1 /\
    (forall z, mate (match_ st) z <> -1 -> mate (match_ st') z <> -1) /\
    exists a l,
      Aug (edge adj) (mate (match_ st)) a l /\ In root (a :: l) /\
      forall z, ~ In z (a :: l) -> mate (match_ st') z = mate (match_ st) z.
Proof.
  intros adj fuel root st st' Hwf Hm Hsz Hroot Hfree Hfuel Hrun.
  destruct (find_path_ok unguarded adj Hwf (match_ st) Hm root Hroot Hfree
              fuel st Hsz eq_refl Hfuel) as (b & st1 & Hrun1 & _ & Hres).
  rewrite Hrun in Hrun1. injection Hrun1 as <- <-.
  pose proof (augmented_keeps_matched _ _ _ _ Hres) as Hkeep.
  destruct Hres as (Hm' & Hcnt & a & l & HA & Hin & Hout & Hon).
  split; [exact Hm'|]. split; [exact Hcnt|].
  split; [apply Hon; right; exact Hin|]. split; [exact Hkeep|].
  exists a, l. split; [exact HA|]. split; [right; exact Hin|exact Hout].
Qed.

Lemma find_path_success_effect_witness :
  exists st' : state,
    find_path unguarded cycle5 6 0 (init_state cycle5) = Ok (true, st') /\
    wf_matching cycle5 (match_ st') /\
    matched (match_ st') = matched (match_ (init_state cycle5)) + 2 /\
    mate (match_ st') 0 <> -1 /\
    (forall z, mate (match_ (init_state cycle5)) z <> -1 ->
               mate (match_ st') z <> -1) /\
    exists a l,
      Aug (edge cycle5) (mate (match_ (init_state cycle5))) a l /\
      In 0 (a :: l) /\
      forall z, ~ In z (a :: l) ->
        mate (match_ st') z = mate (match_ (init_state cycle5)) z.
Proof.
  eexists. split.
  - vm_compute. reflexivity.
  - apply (find_path_success_effect cycle5 6 0 (init_state cycle5)).
    + exact cycle5_wf.
    + apply init_state_ok.
    + apply init_state_ok.
    + simpl. lia.
    + reflexivity.
    + simpl. lia.
    + vm_compute. reflexivity.
Defined.

(** ** The driver *)

(** X3: the matching returned by [max_matching] leaves no edge with both
    ends unmatched. *)
Theorem max_matching_no_free_edge :
  forall (adj : list (list Z)) (fuel : nat),
    wf_graph adj -> (length adj < fuel)%nat ->
    exists (m : list Z) (res : Z),
      max_matching unguarded adj fuel = Ok (m, res) /\
      forall u v, edge adj u v -> mate m u = -1 -> mate m v <> -1.
Proof.
  intros adj fuel Hwf Hfuel.
  destruct (init_state_ok adj) as (H1 & H2 & _).
  destruct (main_loop_run unguarded adj Hwf fuel Hfuel (range (length adj))
              (init_state adj) 0 [])
    as (st' & res' & Hrun & _ & Hm & _ & HD & _); auto.
  - intros v Hv. apply In_range. exact Hv.
  - intros r [].
  - exists (match_ st'), res'. unfold max_matching. rewrite Hrun.
    split; [reflexivity|]. intros u v Huv Hu.
    destruct (HD u) as (O & I & B & HH & Hou); auto.
    { apply in_or_app. left. apply In_range. apply Huv. }
    apply (hung_root_edge adj (match_ st') O I B u v); auto.
Qed.

Lemma max_matching_no_free_edge_witness :
  wf_graph cycle5 /\ (length cycle5 < 6)%nat /\
  exists (m : list Z) (res : Z),
    max_matching unguarded cycle5 6 = Ok (m, res) /\
    forall u v, edge cycle5 u v -> mate m u = -1 -> mate m v <> -1.
Proof.
  split; [exact cycle5_wf|]. split; [simpl; lia|].
  apply (max_matching_no_free_edge cycle5 6); [exact cycle5_wf|simpl; lia].
Defined.

(** X4: the main loop does not need the empty matching to start from.
    Started with any matching of the graph in [match] and any value of the
    counter, and run over the vertices in any order, it ends with a maximum
    matching; every vertex matched at the start is matched at the end, and
    the counter has grown by the number of pairs added. *)
Theorem main_loop_any_start :
  forall (adj : list (list Z)) (fuel : nat) (st : state) (res : Z)
         (vs : list Z),
    wf_graph adj -> (length adj < fuel)%nat ->
    sized (length adj) st -> wf_matching adj (match_ st) ->
    Permutation vs (range (length adj)) ->
    exists (st' : state) (res' : Z),
      main_loop unguarded adj fuel vs st res = Ok (st', res') /\
      maximum adj (match_ st') /\
      matched (match_ st') = matched (match_ st) + 2 * (res' - res) /\
      (forall z, mate (match_ st) z <> -1 -> mate (match_ st') z <> -1).
Proof.
  intros adj fuel st res vs Hwf Hfuel Hsz Hm Hp.
  assert (Hvs : forall v, In v vs <-> 0 <= v < Z.of_nat (length adj)).
  { intros v. rewrite <- In_range. split; intros Hv.
    - apply (Permutation_in v Hp Hv).
    - apply (Permutation_in v (Permutation_sym Hp) Hv). }
  destruct (main_loop_run unguarded adj Hwf fuel Hfuel vs st res [])
    as (st' & res' & Hrun & _ & Hm' & Hcnt & HD & _ & _ & Hkeep & _); auto.
  - intros v Hv. apply Hvs. exact Hv.
  - intros r [].
  - exists st', res'. split; [exact Hrun|]. split; [|split; auto].
    apply certified_maximum; auto.
    intros r Hr Hf. apply HD; auto.
    apply in_or_app. left. apply Hvs. exact Hr.
Qed.

Lemma main_loop_any_start_witness :
  exists (st' : state) (res' : Z),
    main_loop unguarded cycle5 6 [4; 3; 2; 1; 0]
      (set_match (init_state cycle5) [-1; 2; 1; -1; -1]) 7 = Ok (st', res') /\
    maximum cycle5 (match_ st') /\
    matched (match_ st') = matched [-1; 2; 1; -1; -1] + 2 * (res' - 7) /\
    (forall z, mate [-1; 2; 1; -1; -1] z <> -1 -> mate (match_ st') z <> -1).
Proof.
  apply (main_loop_any_start cycle5 6
           (set_match (init_state cycle5) [-1; 2; 1; -1; -1]) 7
           [4; 3; 2; 1; 0]).
  - exact cycle5_wf.
  - simpl. lia.
  - vm_compute. repeat split; reflexivity.
  - apply wf_matchingb_sound. vm_compute. reflexivity.
  - apply Permutation_rev.
Defined.

(** X5: running the main loop a second time on what the first run left
    changes nothing: no search succeeds, the counter and [match] stay as
    they are. *)
Theorem main_loop_rerun :
  forall (adj : list (list Z)) (fuel : nat),
    wf_graph adj -> (length adj < fuel)%nat ->
    exists (st : state) (res : Z),
      main_loop unguarded adj fuel (range (length adj)) (init_state adj) 0 =
      Ok (st, res) /\
      exists st' : state,
        main_loop unguarded adj fuel (range (length adj)) st res =
        Ok (st', res) /\
        match_ st' = match_ st.
Proof.
  intros adj fuel Hwf Hfuel.
  destruct (init_state_ok adj) as (H1 & H2 & _).
  assert (Hr : forall v, In v (range (length adj)) ->
                         0 <= v < Z.of_nat (length adj))
    by (intros v Hv; apply In_range; exact Hv).
  destruct (main_loop_run unguarded adj Hwf fuel Hfuel (range (length adj))
              (init_state adj) 0 [] Hr H1 H2)
    as (st & res & Hrun & Hsz & Hm & _ & HD & _); [intros r []|].
  assert (Hmax : maximum adj (match_ st)).
  { apply certified_maximum; auto.
    intros r Hr0 Hf. apply HD; auto.
    apply in_or_app. left. apply In_range. exact Hr0. }
  destruct (main_loop_run unguarded adj Hwf fuel Hfuel (range (length adj))
              st res [] Hr Hsz Hm)
    as (st' & res' & Hrun' & _ & Hm' & Hcnt & _ & Hle & Hsame & _);
    [intros r []|].
  pose proof (proj2 Hmax (match_ st') Hm') as Hbound.
  assert (res' = res) by lia. subst res'.
  exists st, res. split; [exact Hrun|].
  exists st'. split; [exact Hrun'|]. apply Hsame. reflexivity.
Qed.

Lemma main_loop_rerun_witness :
  wf_graph cycle5 /\ (length cycle5 < 6)%nat /\
  exists (st : state) (res : Z),
    main_loop unguarded cycle5 6 (range (length cycle5)) (init_state cycle5)
      0 = Ok (st, res) /\
    exists st' : state,
      main_loop unguarded cycle5 6 (range (length cycle5)) st res =
      Ok (st', res) /\
      match_ st' = match_ st.
Proof.
  split; [exact cycle5_wf|]. split; [simpl; lia|].
  apply (main_loop_rerun cycle5 6); [exact cycle5_wf|simpl; lia].
Defined.

(** X6: a root whose search failed is never matched by a later search:
    whatever vertices the main loop goes on with, the root is still
    unmatched when it ends.  One search per vertex is therefore enough. *)
Theorem failed_root_stays_free :
  forall (adj : list (list Z)) (fuel : nat) (root : Z) (st st1 : state)
         (vs : list Z) (res : Z),
    wf_graph adj -> wf_matching adj (match_ st) -> sized (length adj) st ->
    0 <= root < Z.of_nat (length adj) -> mate (match_ st) root = -1 ->
    (length adj < fuel)%nat ->
    find_path unguarded adj fuel root st = Ok (false, st1) ->
    (forall v, In v vs -> 0 <= v < Z.of_nat (length adj)) ->
    exists (st' : state) (res' : Z),
      main_loop unguarded adj fuel vs st1 res = Ok (st', res') /\
      mate (match_ st') root = -1.
Proof.
  intros adj fuel root st st1 vs res Hwf Hm Hsz Hroot Hfree Hfuel Hrun Hvs.
  destruct (find_path_ok unguarded adj Hwf (match_ st) Hm root Hroot Hfree
              fuel st Hsz eq_refl Hfuel) as (b & st2 & Hrun2 & Hsz2 & Hres).
  rewrite Hrun in Hrun2. injection Hrun2 as <- <-.
  destruct Hres as (Heq & O & I & B & HH & Hor).
  destruct (main_loop_run unguarded adj Hwf fuel Hfuel vs st1 res [root])
    as (st' & res' & Hrun' & _ & _ & _ & _ & _ & _ & _ & Hkf); auto.
  - rewrite Heq. exact Hm.
  - rewrite Heq. intros r [<-|[]] _. exists O, I, B. auto.
  - exists st', res'. split; [exact Hrun'|].
    apply Hkf; [left; reflexivity|]. rewrite Heq. exact Hfree.
Qed.

Lemma failed_root_stays_free_witness :
  exists st1 : state,
    find_path unguarded edge4 5 2 (init_state edge4) = Ok (false, st1) /\
    exists (st' : state) (res' : Z),
      main_loop unguarded edge4 5 [3; 1; 0] st1 0 = Ok (st', res') /\
      mate (match_ st') 2 = -1.
Proof.
  eexists. split.
  - vm_compute. reflexivity.
  - apply (failed_root_stays_free edge4 5 2 (init_state edge4)).
    + exact edge4_wf.
    + apply init_state_ok.
    + apply init_state_ok.
    + simpl. lia.
    + reflexivity.
    + simpl. lia.
    + vm_compute. reflexivity.
    + simpl. intros v Hv. lia.
Defined.

(** ** Inputs at the edge *)

Lemma no_edges_wf (k : nat) : wf_graph (repeat [] k).
Proof.
  intros u v [Hu Hin]. exfalso.
  destruct (nth_in_or_default (Z.to_nat u) (repeat (@nil Z) k) [])
    as [H|H].
  - apply repeat_spec in H. rewrite H in Hin. exact Hin.
  - rewrite H in Hin. exact Hin.
Qed.

(** X7: on a graph without edges, of any number of vertices (the empty
    graph included), [max_matching] returns size 0 and a [match] array
    that holds the sentinel for every vertex. *)
Theorem max_matching_no_edges :
  forall (k fuel : nat),
    (k < fuel)%nat ->
    max_matching unguarded (repeat [] k) fuel = Ok (repeat (-1) k, 0).
Proof.
  intros k fuel Hfuel.
  assert (Hlen : length (repeat (@nil Z) k) = k) by apply repeat_length.
  destruct (max_matching_ok unguarded (repeat [] k) (no_edges_wf k) fuel)
    as (m & res & Hrun & [Hl Hm] & Hcnt); [rewrite Hlen; exact Hfuel|].
  rewrite Hlen in Hl.
  assert (Hfree : forall u, mate m u = -1).
  { intros u. destruct (Z.eq_dec (mate m u) (-1)) as [|Hne]; auto.
    exfalso. destruct (Hm u Hne) as [He _].
    destruct (no_edges_wf k _ _ He) as (_ & _ & [_ Hin]).
    destruct He as [_ Hin'].
    destruct (nth_in_or_default (Z.to_nat u) (repeat (@nil Z) k) [])
      as [H|H].
    - apply repeat_spec in H. rewrite H in Hin'. exact Hin'.
    - rewrite H in Hin'. exact Hin'. }
  assert (Hm_eq : m = repeat (-1) k).
  { apply (nth_ext _ _ (-1) (-1)); [rewrite repeat_length; exact Hl|].
    intros i Hi. rewrite nth_repeat.
    specialize (Hfree (Z.of_nat i)). unfold mate, zview in Hfree.
    assert (Hr : in_range m (Z.of_nat i) = true)
      by (apply in_range_spec; lia).
    rewrite Hr, Nat2Z.id in Hfree. exact Hfree. }
  subst m. rewrite matched_repeat in Hcnt.
  assert (res = 0) by lia. subst res. exact Hrun.
Qed.

Lemma max_matching_no_edges_witness :
  (0 < 1)%nat /\
  max_matching unguarded (repeat [] 0) 1 = Ok (repeat (-1) 0, 0).
Proof.
  split; [lia|]. apply (max_matching_no_edges 0 1). lia.
Defined.

Lemma py_get_out {A : Type} (l : list A) (i : Z) :
  i < - Z.of_nat (length l) \/ Z.of_nat (length l) <= i ->
  py_get l i = IndexError.
Proof.
  intros H. unfold py_get, py_index. cbn zeta.
  destruct ((0 <=? i) && (i <? Z.of_nat (length l))) eqn:H1.
  { apply andb_true_iff in H1. destruct H1 as [H1 H2].
    apply Z.leb_le in H1. apply Z.ltb_lt in H2. lia. }
  destruct ((- Z.of_nat (length l) <=? i) && (i <? 0)) eqn:H2.
  { apply andb_true_iff in H2. destruct H2 as [H2 H3].
    apply Z.leb_le in H2. apply Z.ltb_lt in H3. lia. }
  reflexivity.
Qed.

(** X8: a neighbour index outside [-n, n) makes the call fail.  If the
    first neighbour of vertex 0 is such an index, [max_matching] raises
    [IndexError], at the read of [base[u]] in the first search. *)
Theorem max_matching_index_error :
  forall (u : Z) (us : list Z) (rest : list (list Z)) (fuel : nat),
    u < - Z.of_nat (length ((u :: us) :: rest)) \/
    Z.of_nat (length ((u :: us) :: rest)) <= u ->
    (0 < fuel)%nat ->
    max_matching unguarded ((u :: us) :: rest) fuel = IndexError.
Proof.
  intros u us rest fuel Hu Hfuel.
  destruct fuel as [|fuel]; [lia|].
  set (adj := (u :: us) :: rest) in *.
  assert (Hn : length adj = S (length rest)) by reflexivity.
  unfold max_matching.
  assert (Hrange : range (length adj) =
                   0 :: map Z.of_nat (seq 1 (length rest))).
  { rewrite Hn. reflexivity. }
  rewrite Hrange. cbn [main_loop].
  assert (Hin0 : forall {A : Type} (l : list A),
            length l = length adj -> in_range l 0 = true).
  { intros A l Hl. apply in_range_spec. rewrite Hl, Hn. lia. }
  unfold init_state at 1. cbn [match_].
  rewrite (py_get_z (repeat (-1) (length adj)) (-1) 0)
    by (apply Hin0; apply repeat_length).
  cbn [bind]. unfold mate.
  replace (zview (repeat (-1) (length adj)) (-1) 0) with (-1)
    by (symmetry; apply zview_repeat).
  cbn [Z.eqb]. unfold find_path.
  destruct (reset_base_ok (range (length adj)) (base (init_state adj)))
    as (b' & Hrun & Hlen & _).
  { intros i Hi. apply In_range in Hi. cbn [base init_state].
    rewrite range_length. exact Hi. }
  rewrite Hrun. cbn [bind used].
  rewrite (py_set_ok (repeat false (length adj)) 0 true)
    by (apply Hin0; apply repeat_length).
  cbn [bind bfs q set_q].
  assert (Hb : length b' = length adj).
  { rewrite Hlen. cbn [base init_state]. apply range_length. }
  rewrite (py_get_nth adj 0 []) by (apply Hin0; reflexivity).
  cbn [bind Z.to_nat nth adj scan]. unfold visit.
  cbn [base set_q set_used].
  rewrite (py_get_z b' 0 0) by (apply Hin0; exact Hb).
  cbn [bind].
  rewrite (py_get_out b' u) by (rewrite Hb; exact Hu).
  reflexivity.
Qed.

Lemma max_matching_index_error_witness :
  (7 < - Z.of_nat (length [[7; 1]; [0]]) \/
   Z.of_nat (length [[7; 1]; [0]]) <= 7) /\
  (0 < 3)%nat /\
  max_matching unguarded [[7; 1]; [0]] 3 = IndexError.
Proof.
  split; [right; simpl; lia|]. split; [lia|].
  apply (max_matching_index_error 7 [1] [[0]] 3); [right; simpl; lia|lia].
Defined.

(** ** Nothing is carried from one search to the next *)

(** X9: [find_path] starts from scratch.  What it returns, and the [match]
    array it leaves, depend on [match] alone: the contents of [p], [used],
    [q], [blossom] and [base] at the time of the call have no influence
    ([base] only needs its [n] entries, which are overwritten). *)
Theorem find_path_ignores_stale_arrays :
  forall (adj : list (list Z)) (fuel : nat) (root : Z) (st st' : state),
    match_ st = match_ st' ->
    length (base st) = length adj -> length (base st') = length adj ->
    found_and_match (find_path unguarded adj fuel root st) =
    found_and_match (find_path unguarded adj fuel root st').
Proof.
  intros adj fuel root st st' Hm Hb Hb'.
  apply found_and_match_same. apply find_path_same; assumption.
Qed.

Lemma find_path_ignores_stale_arrays_witness :
  found_and_match (find_path unguarded cycle5 6 0 (init_state cycle5)) =
  found_and_match
    (find_path unguarded cycle5 6 0
       (mkState (repeat (-1) 5) [3; 3; 3] [4; 4; 4; 4; 4] [1; 2] [true] [])).
Proof.
  apply (find_path_ignores_stale_arrays cycle5 6 0); reflexivity.
Defined.

(** ** The demo under [__main__] *)

(** X10: the adjacency lists that the demo builds from a list of edges
    form a well-formed graph with exactly those edges, provided every edge
    joins two different vertices of [0, n): the lists are symmetric, hold
    only vertices, and [v] occurs in [adj[u]] exactly when [(u, v)] or
    [(v, u)] is in the list. *)
Theorem build_adj_well_formed :
  forall (n : nat) (edges : list (Z * Z)),
    (forall u v, In (u, v) edges ->
       0 <= u < Z.of_nat n /\ 0 <= v < Z.of_nat n /\ u <> v) ->
    exists adj : list (list Z),
      build_adj n edges = Ok adj /\ length adj = n /\ wf_graph adj /\
      forall a b, edge adj a b <-> In (a, b) edges \/ In (b, a) edges.
Proof.
  exact build_adj_ok.
Qed.

Lemma build_adj_well_formed_witness :
  exists adj : list (list Z),
    build_adj 5 [(0, 1); (1, 2); (2, 3); (3, 4); (4, 0)] = Ok adj /\
    length adj = 5%nat /\ wf_graph adj /\
    forall a b,
      edge adj a b <->
      In (a, b) [(0, 1); (1, 2); (2, 3); (3, 4); (4, 0)] \/
      In (b, a) [(0, 1); (1, 2); (2, 3); (3, 4); (4, 0)].
Proof.
  apply (build_adj_well_formed 5 [(0, 1); (1, 2); (2, 3); (3, 4); (4, 0)]).
  intros u v H. simpl in H.
  repeat (destruct H as [H|H]; [injection H as <- <-; simpl; lia|]).
  destruct H.
Defined.

(** X11: the loop that prints the pairs prints every pair of a matching
    once, as [(u, match[u])] from its smaller end [u], in the order of
    the vertices; the number of lines is half the number of matched
    vertices. *)
Theorem print_pairs_once :
  forall (adj : list (list Z)) (m : list Z),
    wf_graph adj -> wf_matching adj m ->
    print_pairs 0 m [] =
    map (fun u => (u, mate m u))
        (filter (fun u => u <? mate m u) (range (length m))) /\
    2 * Z.of_nat (length (print_pairs 0 m [])) = matched m.
Proof.
  intros adj m Hwf Hm.
  assert (Hsym : forall u, mate m u <> -1 ->
                           mate m (mate m u) = u /\ mate m u <> u).
  { intros u Hu. destruct (wf_matching_ok adj m Hwf Hm u Hu) as (H1 & H2 & _).
    auto. }
  pose proof (print_pairs_low m Hsym) as H1.
  pose proof (low_count m Hsym) as H2.
  cbv zeta in H1, H2. split; [exact H1|].
  rewrite H1, length_map. exact H2.
Qed.

Lemma print_pairs_once_witness :
  print_pairs 0 [1; 0; 3; 2; -1] [] =
  map (fun u => (u, mate [1; 0; 3; 2; -1] u))
      (filter (fun u => u <? mate [1; 0; 3; 2; -1] u)
              (range (length [1; 0; 3; 2; -1]))) /\
  2 * Z.of_nat (length (print_pairs 0 [1; 0; 3; 2; -1] [])) =
  matched [1; 0; 3; 2; -1].
Proof.
  apply (print_pairs_once cycle5 [1; 0; 3; 2; -1]).
  - exact cycle5_wf.
  - apply wf_matchingb_sound. vm_compute. reflexivity.
Defined.

(** X12: the demo as a whole.  For a list of edges between different
    vertices of [0, n), it prints a size and that many pairs; every pair
    printed is an edge of the list, smaller end first, and no set of
    disjoint edges of the graph is larger than the size printed. *)
Theorem demo_prints_maximum_matching :
  forall (fuel n : nat) (edges : list (Z * Z)),
    (forall u v, In (u, v) edges ->
       0 <= u < Z.of_nat n /\ 0 <= v < Z.of_nat n /\ u <> v) ->
    (n < fuel)%nat ->
    exists (adj : list (list Z)) (size : Z) (pairs : list (Z * Z)),
      build_adj n edges = Ok adj /\
      demo fuel n edges = Ok (size, pairs) /\
      Z.of_nat (length pairs) = size /\
      (forall u v, In (u, v) pairs ->
         u < v /\ (In (u, v) edges \/ In (v, u) edges)) /\
      (forall m2, wf_matching adj m2 -> matched m2 <= 2 * size).
Proof.
  intros fuel n edges Hv Hfuel.
  destruct (build_adj_ok n edges Hv) as (adj & Hrun & Hlen & Hwf & Hedge).
  assert (Hfuel' : (length adj < fuel)%nat) by (rewrite Hlen; exact Hfuel).
  destruct (main_loop_maximum unguarded adj Hwf fuel Hfuel'
              (range (length adj)))
    as (st & res & Hloop & [Hm Hmax] & Hcnt).
  { intros v. apply In_range. }
  destruct (print_pairs_once adj (match_ st) Hwf Hm) as [Hp Hc].
  exists adj, res, (print_pairs 0 (match_ st) []).
  split; [exact Hrun|]. split; [|split; [lia|split]].
  - unfold demo. rewrite Hrun. cbn [bind]. unfold max_matching.
    rewrite Hloop. reflexivity.
  - intros u v Hin. rewrite Hp in Hin. apply in_map_iff in Hin.
    destruct Hin as (x & Hx & Hin). injection Hx as -> <-.
    apply filter_In in Hin. destruct Hin as [Hr Hlt].
    apply In_range in Hr. apply Z.ltb_lt in Hlt.
    split; [exact Hlt|]. apply Hedge.
    apply (proj2 Hm u). lia.
  - intros m2 Hm2. rewrite <- Hcnt. apply Hmax. exact Hm2.
Qed.

Lemma demo_prints_maximum_matching_witness :
  exists (adj : list (list Z)) (size : Z) (pairs : list (Z * Z)),
    build_adj 5 [(0, 1); (1, 2); (2, 3); (3, 4); (4, 0)] = Ok adj /\
    demo 6 5 [(0, 1); (1, 2); (2, 3); (3, 4); (4, 0)] = Ok (size, pairs) /\
    Z.of_nat (length pairs) = size /\
    (forall u v, In (u, v) pairs ->
       u < v /\
       (In (u, v) [(0, 1); (1, 2); (2, 3); (3, 4); (4, 0)] \/
        In (v, u) [(0, 1); (1, 2); (2, 3); (3, 4); (4, 0)])) /\
    (forall m2, wf_matching adj m2 -> matched m2 <= 2 * size).
Proof.
  apply (demo_prints_maximum_matching 6 5
           [(0, 1); (1, 2); (2, 3); (3, 4); (4, 0)]).
  - intros u v H. simpl in H.
    repeat (destruct H as [H|H]; [injection H as <- <-; simpl; lia|]).
    destruct H.
  - lia.
Defined.

(** ** Inputs that are not well formed, and equal graphs *)

(** X13: self-loops are skipped.  If the graph is well formed apart from
    entries [v] in [adj[v]], [max_matching] returns what it returns on the
    graph without these entries: a maximum matching of that graph. *)
Theorem max_matching_skips_self_loops :
  forall (adj : list (list Z)) (fuel : nat),
    wf_graph (strip_loops adj) -> (length adj < fuel)%nat ->
    exists (m : list Z) (res : Z),
      max_matching unguarded adj fuel = Ok (m, res) /\
      max_matching unguarded (strip_loops adj) fuel = Ok (m, res) /\
      maximum (strip_loops adj) m /\ matched m = 2 * res.
Proof.
  intros adj fuel HG Hfuel.
  assert (Hf : (length (strip_loops adj) < fuel)%nat)
    by (rewrite strip_loops_length; exact Hfuel).
  destruct (main_loop_maximum unguarded (strip_loops adj) HG fuel Hf
              (range (length (strip_loops adj))))
    as (st & res & Hloop & Hmax & Hcnt).
  { intros v. apply In_range. }
  assert (Hrun : max_matching unguarded (strip_loops adj) fuel =
                 Ok (match_ st, res)).
  { unfold max_matching. rewrite Hloop. reflexivity. }
  exists (match_ st), res.
  rewrite (max_matching_loops unguarded adj HG fuel Hf). auto.
Qed.

Lemma max_matching_skips_self_loops_witness :
  exists (m : list Z) (res : Z),
    max_matching unguarded [[0; 1; 2]; [0; 1]; [2; 0; 2]] 4 = Ok (m, res) /\
    max_matching unguarded (strip_loops [[0; 1; 2]; [0; 1]; [2; 0; 2]]) 4 =
    Ok (m, res) /\
    maximum (strip_loops [[0; 1; 2]; [0; 1]; [2; 0; 2]]) m /\
    matched m = 2 * res.
Proof.
  apply (max_matching_skips_self_loops [[0; 1; 2]; [0; 1]; [2; 0; 2]] 4).
  - apply wf_graphb_sound. vm_compute. reflexivity.
  - simpl. lia.
Defined.

Lemma wf_matching_same_edges (adj adj' : list (list Z)) (m : list Z) :
  length adj = length adj' ->
  (forall u v, edge adj u v -> edge adj' u v) ->
  wf_matching adj m -> wf_matching adj' m.
Proof.
  intros Hlen He [Hl Hm]. split; [congruence|].
  intros u Hu. destruct (Hm u Hu) as [H1 H2]. auto.
Qed.

(** X14: the size returned depends on the graph only, not on the way its
    adjacency lists are written: two well-formed inputs with the same
    vertices and the same edges, whatever the order and the repetitions
    of the neighbours in the lists, give the same size. *)
Theorem max_matching_size_of_graph :
  forall (adj adj' : list (list Z)) (fuel : nat),
    wf_graph adj -> wf_graph adj' -> length adj = length adj' ->
    (forall u v, edge adj u v <-> edge adj' u v) ->
    (length adj < fuel)%nat ->
    exists (m m' : list Z) (res : Z),
      max_matching unguarded adj fuel = Ok (m, res) /\
      max_matching unguarded adj' fuel = Ok (m', res).
Proof.
  intros adj adj' fuel Hwf Hwf' Hlen He Hfuel.
  assert (Hfuel' : (length adj' < fuel)%nat) by (rewrite <- Hlen; exact Hfuel).
  destruct (main_loop_maximum unguarded adj Hwf fuel Hfuel
              (range (length adj)))
    as (st & res & Hloop & [Hm Hmax] & Hcnt); [intros v; apply In_range|].
  destruct (main_loop_maximum unguarded adj' Hwf' fuel Hfuel'
              (range (length adj')))
    as (st' & res' & Hloop' & [Hm' Hmax'] & Hcnt'); [intros v; apply In_range|].
  assert (H1 : matched (match_ st') <= matched (match_ st)).
  { apply Hmax. apply (wf_matching_same_edges adj' adj); auto.
    intros u v. apply He. }
  assert (H2 : matched (match_ st) <= matched (match_ st')).
  { apply Hmax'. apply (wf_matching_same_edges adj adj'); auto.
    intros u v. apply He. }
  assert (res' = res) by lia. subst res'.
  exists (match_ st), (match_ st'), res. unfold max_matching.
  rewrite Hloop, Hloop'. auto.
Qed.

Lemma max_matching_size_of_graph_witness :
  exists (m m' : list Z) (res : Z),
    max_matching unguarded cycle5 6 = Ok (m, res) /\
    max_matching unguarded [[4; 1; 4]; [2; 0]; [3; 1; 1]; [4; 2]; [0; 3]] 6 =
    Ok (m', res).
Proof.
  apply (max_matching_size_of_graph cycle5
           [[4; 1; 4]; [2; 0]; [3; 1; 1]; [4; 2]; [0; 3]] 6).
  - exact cycle5_wf.
  - apply wf_graphb_sound. vm_compute. reflexivity.
  - reflexivity.
  - intros u v. unfold edge. change (Z.of_nat (length cycle5)) with 5.
    change (Z.of_nat (length [[4; 1; 4]; [2; 0]; [3; 1; 1]; [4; 2]; [0; 3]]))
      with 5.
    split; intros [Hu Hin]; (split; [exact Hu|]);
      assert (Hc : u = 0 \/ u = 1 \/ u = 2 \/ u = 3 \/ u = 4) by lia;
      destruct Hc as [-> | [-> | [-> | [-> | ->]]]];
      vm_compute in Hin |- *; tauto.
  - simpl. lia.
Defined.

(** X15: the demo's construction of the adjacency lists fails on an edge
    with an end outside [-n, n): after any number of edges between
    vertices of [0, n), such an edge raises [IndexError]. *)
Theorem build_adj_index_error :
  forall (n : nat) (es1 es2 : list (Z * Z)) (u v : Z),
    (forall a b, In (a, b) es1 ->
       0 <= a < Z.of_nat n /\ 0 <= b < Z.of_nat n) ->
    (u < - Z.of_nat n \/ Z.of_nat n <= u) \/
    (0 <= u < Z.of_nat n /\ (v < - Z.of_nat n \/ Z.of_nat n <= v)) ->
    build_adj n (es1 ++ (u, v) :: es2) = IndexError.
Proof.
  intros n es1 es2 u v Hes Hbad. unfold build_adj.
  assert (Hlen : length (repeat (@nil Z) n) = n) by apply repeat_length.
  assert (Happ : forall es adj adj',
            add_edges adj es = Ok adj' ->
            add_edges adj (es ++ (u, v) :: es2) =
            (a <- add_edge adj' (u, v) ;; add_edges a es2)).
  { induction es as [|e es IH]; intros adj adj' H; cbn [add_edges app] in *.
    - injection H as ->. reflexivity.
    - destruct (add_edge adj e) as [a| | |]; cbn [bind] in *;
        try discriminate.
      apply IH. exact H. }
  destruct (add_edges_ok es1 (repeat [] n)) as (adj1 & Hrun & Hl & _).
  { intros a b Hab. rewrite Hlen. apply Hes. exact Hab. }
  rewrite (Happ es1 _ adj1 Hrun). rewrite Hlen in Hl.
  unfold add_edge. cbn [fst snd].
  destruct Hbad as [Hu|[Hu Hv]].
  - rewrite (py_get_out adj1 u) by (rewrite Hl; exact Hu). reflexivity.
  - assert (Hin : in_range adj1 u = true)
      by (apply in_range_spec; rewrite Hl; exact Hu).
    rewrite (py_get_nth adj1 u [] Hin). cbn [bind].
    rewrite (py_set_ok adj1 u _ Hin). cbn [bind].
    rewrite py_get_out; [reflexivity|].
    rewrite list_set_length, Hl. exact Hv.
Qed.

Lemma build_adj_index_error_witness :
  build_adj 3 ([(0, 1); (1, 2)] ++ (2, 3) :: [(0, 2)]) = IndexError.
Proof.
  apply (build_adj_index_error 3 [(0, 1); (1, 2)] [(0, 2)] 2 3).
  - intros a b H. simpl in H.
    destruct H as [H|[H|[]]]; injection H as <- <-; simpl; lia.
  - right. simpl. lia.
Defined.

(** X16: repeated entries of an adjacency list are passed over.  On a
    well-formed graph [max_matching] returns the same array and the same
    size as on the graph whose lists keep each neighbour at its first
    place only, with or without the guards at the two sentinel reads. *)
Theorem max_matching_ignores_repeats :
  forall (strict : site -> bool) (adj : list (list Z)) (fuel : nat),
    wf_graph adj -> (length adj < fuel)%nat ->
    max_matching strict adj fuel = max_matching strict (uniq adj) fuel.
Proof.
  intros strict adj fuel Hwf Hfuel.
  apply (max_matching_repeats strict adj Hwf fuel).
  rewrite uniq_length. exact Hfuel.
Qed.

Lemma max_matching_ignores_repeats_witness :
  max_matching unguarded [[1; 1; 2; 1]; [0; 2; 0]; [1; 0; 0; 1]] 4 =
  max_matching unguarded (uniq [[1; 1; 2; 1]; [0; 2; 0]; [1; 0; 0; 1]]) 4.
Proof.
  apply (max_matching_ignores_repeats unguarded
           [[1; 1; 2; 1]; [0; 2; 0]; [1; 0; 0; 1]] 4).
  - apply wf_graphb_sound. vm_compute. reflexivity.
  - simpl. lia.
Defined.

